(** * Move generation of the word-placement solver ([solver.py])

    A shallow embedding of [SolveState] and of its anchor-based search
    ([cross_check], [find_anchors], [before_part], [extend_after],
    [legal_move], [find_all_options]), followed by the properties of the
    generator.

    Conventions of the embedding:
    - a letter (a rack token, a tile, a trie edge label) is an [ascii]; a
      word is a list of letters;
    - a grid position is a pair of integers [(row, col)];
    - Python lists are lists; [list.remove] removes the first occurrence,
      [list.append] adds at the end;
    - the dictionary built by [cross_check] is a [gmap];
    - a method that may raise returns a [result]; the state of the solver is
      passed explicitly. *)

From Stdlib Require Import ZArith Ascii String.
From stdpp Require Import base tactics option list gmap strings.

Open Scope Z_scope.

(** ** Letters, words, positions *)

Abbreviation letter := ascii (only parsing).
Abbreviation word := (list ascii) (only parsing).
Abbreviation pos := (Z * Z)%type (only parsing).

Definition alphabet : word := list_ascii_of_string "abcdefghijklmnopqrstuvwxyz".

Inductive Direction := across | down.

Global Instance Direction_eq_dec : EqDecision Direction.
Proof. solve_decision. Defined.

(** ** Outcomes of a call

    [Ok] is a normal return.  The exceptions are those the solver's own
    statements can raise: a missing dictionary key, [list.remove] of an
    absent element, and the use of [None] where a string is expected.
    [Unfinished] marks a [while] loop that has not ended after as many rounds
    as the board has positions. *)

Inductive exn := KeyError | ValueError | TypeError | Unfinished.

Inductive result (A : Type) :=
  | Ok (a : A)
  | Raise (e : exn).
Arguments Ok {A} a.
Arguments Raise {A} e.

Global Instance result_ret : MRet result := λ A a, Ok a.
Global Instance result_bind : MBind result := λ A B f m,
  match m with
  | Ok a => f a
  | Raise e => Raise e
  end.

(** [for x in xs: body] over a state that the body may change or abort. *)
Fixpoint for_each {A S : Type} (xs : list A) (body : A → S → result S)
    (s : S) : result S :=
  match xs with
  | [] => Ok s
  | x :: xs' => s' ← body x s; for_each xs' body s'
  end.

(** ** The lexicon ([letter_tree.py], used through [lookup], [is_word],
    [root], and the nodes' [is_word] and [children]) *)

(** Modelled from the spec: the trie node of [letter_tree.py], which is not
    among the sources.  A node records whether the path to it spells a word
    and maps letters to child nodes; the mapping is kept as the list of its
    items in iteration order. *)
#[warnings="-register-all"]
Inductive LetterTreeNode :=
  | Node (is_word : bool) (children : list (letter * LetterTreeNode)).

Definition is_word (n : LetterTreeNode) : bool :=
  match n with Node w _ => w end.

Definition children (n : LetterTreeNode) : list (letter * LetterTreeNode) :=
  match n with Node _ cs => cs end.

(** [children[key]], [None] when [key not in children.keys()]. *)
Fixpoint child_of {A : Type} (key : letter) (cs : list (letter * A)) : option A :=
  match cs with
  | [] => None
  | (k, c) :: cs' => if decide (k = key) then Some c else child_of key cs'
  end.

(** Modelled from the spec: keys of a node's [children] are unique. *)
Fixpoint unique_keys (n : LetterTreeNode) : bool :=
  match n with
  | Node _ cs =>
      bool_decide (NoDup (map fst cs)) && forallb (λ kc, unique_keys kc.2) cs
  end.

(** Modelled from the spec: the lexicon, known by its [root], the
    empty-prefix node. *)
Record LetterTree := mkTree { root : LetterTreeNode }.

Fixpoint lookup_from (n : LetterTreeNode) (w : word) : option LetterTreeNode :=
  match w with
  | [] => Some n
  | l :: w' =>
      match child_of l (children n) with
      | Some c => lookup_from c w'
      | None => None
      end
  end.

(** Modelled from the spec: [lookup(prefix)] returns the trie node for an
    exact prefix, or an absent marker if the prefix is not reachable. *)
Definition lookup (d : LetterTree) (w : word) : option LetterTreeNode :=
  lookup_from (root d) w.

(** Modelled from the spec: dictionary membership, the node of the word
    exists and marks a complete word. *)
Definition dict_is_word (d : LetterTree) (w : word) : bool :=
  match lookup d w with
  | Some n => is_word n
  | None => false
  end.

(** ** The board ([board.py], used through six methods) *)

(** Modelled from the spec: the Board interface the generator consumes.
    [get_tile] is the letter of a filled position and [None] elsewhere. *)
Record Board := mkBoard {
  all_positions : list pos;
  is_filled : pos → bool;
  is_empty : pos → bool;
  in_bounds : pos → bool;
  get_tile : pos → option letter;
  calculate_score : word → pos → option Direction → list letter → Z
}.

(** Modelled from the spec: what the three predicates, the enumeration and
    [get_tile] mean together. *)
Record board_ok (b : Board) : Prop := {
  positions_in_bounds : ∀ p, p ∈ all_positions b ↔ in_bounds b p = true;
  filled_in_bounds : ∀ p, is_filled b p = true → in_bounds b p = true;
  empty_iff : ∀ p,
    is_empty b p = true ↔ in_bounds b p = true ∧ is_filled b p = false;
  filled_tile : ∀ p, is_filled b p = true → is_Some (get_tile b p)
}.

(** ** The solver state *)

(** A found move, the 5-tuple appended by [legal_move]. *)
Record Move := mkMove {
  move_word : word;
  move_start : pos;
  move_direction : option Direction;
  move_used : list letter;
  move_score : Z
}.

Record SolveState := mkState {
  dictionary : LetterTree;
  board : Board;
  rack : list letter;
  reference_rack : list letter;
  cross_check_results : option (gmap pos (list letter));
  direction : option Direction;
  found_moves : list Move
}.

(** [SolveState.__init__].  [direction] and [cross_check_results] start as
    [None]. *)
Definition init (dictionary : LetterTree) (board : Board) (rack : list letter)
    : SolveState :=
  mkState dictionary board rack rack None None [].

Definition set_rack (self : SolveState) (r : list letter) : SolveState :=
  mkState (dictionary self) (board self) r (reference_rack self)
          (cross_check_results self) (direction self) (found_moves self).

Definition set_direction (self : SolveState) (d : option Direction) : SolveState :=
  mkState (dictionary self) (board self) (rack self) (reference_rack self)
          (cross_check_results self) d (found_moves self).

Definition set_cross_check_results (self : SolveState)
    (t : option (gmap pos (list letter))) : SolveState :=
  mkState (dictionary self) (board self) (rack self) (reference_rack self)
          t (direction self) (found_moves self).

Definition set_found_moves (self : SolveState) (ms : list Move) : SolveState :=
  mkState (dictionary self) (board self) (rack self) (reference_rack self)
          (cross_check_results self) (direction self) ms.

(** ** Direction-relative moves on the grid

    The four methods read only [self.direction]; any value other than
    ['across'], also the initial [None], takes the [else] branch. *)

Definition before (d : option Direction) (p : pos) : pos :=
  let '(row, col) := p in
  match d with
  | Some across => (row, col - 1)
  | _ => (row - 1, col)
  end.

Definition after (d : option Direction) (p : pos) : pos :=
  let '(row, col) := p in
  match d with
  | Some across => (row, col + 1)
  | _ => (row + 1, col)
  end.

Definition before_cross (d : option Direction) (p : pos) : pos :=
  let '(row, col) := p in
  match d with
  | Some across => (row - 1, col)
  | _ => (row, col - 1)
  end.

Definition after_cross (d : option Direction) (p : pos) : pos :=
  let '(row, col) := p in
  match d with
  | Some across => (row + 1, col)
  | _ => (row, col + 1)
  end.

(** ** Python list operations on the rack *)

(** [l.remove(x)]: drop the first occurrence, [None] (a [ValueError]) when
    there is none. *)
Fixpoint list_remove (x : letter) (l : list letter) : option (list letter) :=
  match l with
  | [] => None
  | y :: l' => if decide (x = y) then Some l' else (y ::.) <$> list_remove x l'
  end.

(** [for x in xs: l.remove(x)]. *)
Fixpoint list_remove_all (xs : list letter) (l : list letter) : option (list letter) :=
  match xs with
  | [] => Some l
  | x :: xs' => list_remove x l ≫= list_remove_all xs'
  end.

Definition or_raise {A : Type} (e : exn) (o : option A) : result A :=
  match o with
  | Some a => Ok a
  | None => Raise e
  end.

(** ** [legal_move] *)

(** The [while word_idx >= 0] loop: it runs [word_idx + 1] times and steps
    [play_pos] back once per round. *)
Fixpoint walk_back (d : option Direction) (rounds : nat) (play_pos : pos) : pos :=
  match rounds with
  | O => play_pos
  | S rounds' => walk_back d rounds' (before d play_pos)
  end.

Definition legal_move (w : word) (last_pos : pos) (self : SolveState)
    : result SolveState :=
  let play_pos := walk_back (direction self) (length w) last_pos in
  let start_pos := after (direction self) play_pos in
  let score :=
    calculate_score (board self) w start_pos (direction self) (rack self) in
  used_rack ← or_raise ValueError
                 (list_remove_all (rack self) (reference_rack self));
  Ok (set_found_moves self
        (found_moves self ++
           [mkMove w (after (direction self) play_pos) (direction self)
                   used_rack score])).

(** ** [cross_check] *)

(** [while is_filled(step(scan_pos))]: move to the next cell and add its tile
    to the letters read so far.  Concatenating a [None] tile raises. *)
Fixpoint scan_filled (b : Board) (step : pos → pos)
    (add : letter → word → word) (fuel : nat) (scan_pos : pos)
    (letters : word) : result word :=
  if is_filled b (step scan_pos) then
    match fuel with
    | O => Raise Unfinished
    | S fuel' =>
        let scan_pos := step scan_pos in
        match get_tile b scan_pos with
        | Some t => scan_filled b step add fuel' scan_pos (add t letters)
        | None => Raise TypeError
        end
    end
  else Ok letters.

Definition prepend (t : letter) (letters : word) : word := t :: letters.
Definition append (t : letter) (letters : word) : word := letters ++ [t].

Definition loop_bound (b : Board) : nat := length (all_positions b).

(** The inner [for letter in 'abc...z'] loop. *)
Definition legal_letters (d : LetterTree) (letters_before letters_after : word)
    : list letter :=
  foldl (λ legal_here letter,
           let word_formed := letters_before ++ [letter] ++ letters_after in
           if dict_is_word d word_formed then legal_here ++ [letter]
           else legal_here)
        [] alphabet.

(** The letters legal on one empty position: the body of the loop of
    [cross_check] from [letters_before = ""] to the value of [legal_here]. *)
Definition legal_here_at (self : SolveState) (pos : pos) : result (list letter) :=
  let b := board self in
  letters_before ←
    scan_filled b (before_cross (direction self)) prepend (loop_bound b) pos [];
  letters_after ←
    scan_filled b (after_cross (direction self)) append (loop_bound b) pos [];
  Ok (if (length letters_before =? 0)%nat && (length letters_after =? 0)%nat
      then alphabet
      else legal_letters (dictionary self) letters_before letters_after).

Definition cross_check (self : SolveState) : result (gmap pos (list letter)) :=
  let b := board self in
  for_each (all_positions b)
    (λ pos result,
       if is_filled b pos then Ok result
       else
         legal_here ← legal_here_at self pos;
         Ok (<[pos := legal_here]> result))
    ∅.

(** ** [find_anchors] *)

Definition neighbor_filled (b : Board) (d : option Direction) (p : pos) : bool :=
  is_filled b (before d p) || is_filled b (after d p)
  || is_filled b (before_cross d p) || is_filled b (after_cross d p).

Definition find_anchors (self : SolveState) : list pos :=
  let b := board self in
  foldl (λ anchors pos,
           let empty := is_empty b pos in
           if empty && neighbor_filled b (direction self) pos
           then anchors ++ [pos] else anchors)
        [] (all_positions b).

(** ** The search: [extend_after] and [before_part]

    Both recurse into [current_node.children[next_letter]]; the recursion is
    on the trie, so [current_node] is written as the first argument.
    [table_at] is [self.cross_check_results[next_pos]]. *)

Definition table_at (self : SolveState) (p : pos) : result (list letter) :=
  match cross_check_results self with
  | None => Raise TypeError
  | Some table => or_raise KeyError (table !! p)
  end.

Definition callee : Type := word → pos → bool → SolveState → result SolveState.

(** The body of [for next_letter in current_node.children.keys()] in
    [extend_after]; [child_call] is the recursive call on
    [current_node.children[next_letter]]. *)
Definition extend_after_step (partial_word : word) (next_pos : pos)
    (kc : letter * callee) (self : SolveState) : result SolveState :=
  let '(next_letter, child_call) := kc in
  if bool_decide (next_letter ∈ rack self) then
    legal_here ← table_at self next_pos;
    if bool_decide (next_letter ∈ legal_here) then
      rack' ← or_raise ValueError (list_remove next_letter (rack self));
      self ← child_call (partial_word ++ [next_letter])
                        (after (direction self) next_pos) true
                        (set_rack self rack');
      Ok (set_rack self (rack self ++ [next_letter]))
    else Ok self
  else Ok self.

Fixpoint extend_after (current_node : LetterTreeNode) (partial_word : word)
    (next_pos : pos) (anchor_filled : bool) (self : SolveState)
    {struct current_node} : result SolveState :=
  match current_node with
  | Node node_is_word node_children =>
      let calls := map (λ kc, (kc.1, extend_after kc.2)) node_children in
      self ←
        (if negb (is_filled (board self) next_pos) && node_is_word
            && anchor_filled
         then legal_move partial_word (before (direction self) next_pos) self
         else Ok self);
      if in_bounds (board self) next_pos then
        if is_empty (board self) next_pos then
          for_each calls (extend_after_step partial_word next_pos) self
        else
          match get_tile (board self) next_pos with
          | Some existing_letter =>
              match child_of existing_letter calls with
              | Some child_call =>
                  child_call (partial_word ++ [existing_letter])
                             (after (direction self) next_pos) true self
              | None => Ok self
              end
          | None => Ok self
          end
      else Ok self
  end.

Definition part_callee : Type := word → pos → nat → SolveState → result SolveState.

(** The body of the loop of [before_part]. *)
Definition before_part_step (partial_word : word) (anchor_pos : pos)
    (limit : nat) (kc : letter * part_callee) (self : SolveState)
    : result SolveState :=
  let '(next_letter, child_call) := kc in
  if bool_decide (next_letter ∈ rack self) then
    rack' ← or_raise ValueError (list_remove next_letter (rack self));
    self ← child_call (partial_word ++ [next_letter]) anchor_pos
                      (limit - 1)%nat (set_rack self rack');
    Ok (set_rack self (rack self ++ [next_letter]))
  else Ok self.

Fixpoint before_part (current_node : LetterTreeNode) (partial_word : word)
    (anchor_pos : pos) (limit : nat) (self : SolveState)
    {struct current_node} : result SolveState :=
  self ← extend_after current_node partial_word anchor_pos false self;
  if (0 <? limit)%nat then
    match current_node with
    | Node _ node_children =>
        let calls := map (λ kc, (kc.1, before_part kc.2)) node_children in
        for_each calls (before_part_step partial_word anchor_pos limit) self
    end
  else Ok self.

(** ** [find_all_options] *)

(** [while is_empty(before(scan_pos)) and before(scan_pos) not in anchors]. *)
Fixpoint count_limit (b : Board) (d : option Direction) (anchors : list pos)
    (fuel : nat) (scan_pos : pos) (limit : nat) : result nat :=
  if is_empty b (before d scan_pos)
     && negb (bool_decide (before d scan_pos ∈ anchors)) then
    match fuel with
    | O => Raise Unfinished
    | S fuel' =>
        count_limit b d anchors fuel' (before d scan_pos) (limit + 1)%nat
    end
  else Ok limit.

(** The body of [for anchor_pos in anchors]. *)
Definition search_anchor (anchors : list pos) (anchor_pos : pos)
    (self : SolveState) : result SolveState :=
  let b := board self in
  let d := direction self in
  if is_filled b (before d anchor_pos) then
    let scan_pos := before d anchor_pos in
    first ← or_raise TypeError (get_tile b scan_pos);
    partial_word ←
      scan_filled b (before d) prepend (loop_bound b) scan_pos [first];
    match lookup (dictionary self) partial_word with
    | Some pw_node => extend_after pw_node partial_word anchor_pos false self
    | None => Ok self
    end
  else
    limit ← count_limit b d anchors (loop_bound b) anchor_pos 0%nat;
    before_part (root (dictionary self)) [] anchor_pos limit self.

(** The body of [for direction in ['across', 'down']]. *)
Definition search_direction (d : Direction) (self : SolveState)
    : result SolveState :=
  let self := set_direction self (Some d) in
  let anchors := find_anchors self in
  table ← cross_check self;
  let self := set_cross_check_results self (Some table) in
  for_each anchors (search_anchor anchors) self.

Definition find_all_options (self : SolveState) : result SolveState :=
  for_each [across; down] search_direction self.

(** ** A sample board and sample lexicons

    A square grid with the tiles of a finite map, and the lexicon holding the
    words of a list; the examples below run the generator on them. *)

Definition grid_in_bounds (size : Z) (p : pos) : bool :=
  bool_decide (0 ≤ p.1 < size ∧ 0 ≤ p.2 < size).

Definition grid_positions (size : Z) : list pos :=
  row ← seqZ 0 size; col ← seqZ 0 size; [(row, col)].

Definition grid_board (size : Z) (tiles : gmap pos letter)
    (score : word → pos → option Direction → list letter → Z) : Board :=
  mkBoard (grid_positions size)
          (λ p, grid_in_bounds size p && bool_decide (is_Some (tiles !! p)))
          (λ p, grid_in_bounds size p && bool_decide (tiles !! p = None))
          (grid_in_bounds size)
          (λ p, if grid_in_bounds size p then tiles !! p else None)
          score.

(** A score that only tells how many letters the rack argument holds. *)
Definition rack_size_score : word → pos → option Direction → list letter → Z :=
  λ _ _ _ r, Z.of_nat (length r).

Fixpoint add_word (w : word) (n : LetterTreeNode) : LetterTreeNode :=
  match w with
  | [] => Node true (children n)
  | l :: w' =>
      let sub := default (Node false []) (child_of l (children n)) in
      let sub' := add_word w' sub in
      Node (is_word n)
           (if bool_decide (l ∈ map fst (children n))
            then map (λ kc, if decide (kc.1 = l) then (l, sub') else kc)
                     (children n)
            else children n ++ [(l, sub')])
  end.

Definition tree_of_words (ws : list string) : LetterTree :=
  mkTree (foldl (λ n w, add_word (list_ascii_of_string w) n) (Node false []) ws).

Definition W (s : string) : word := list_ascii_of_string s.

Definition one_tile_board : Board :=
  grid_board 5 {[ (2, 2) := "c"%char ]} rack_size_score.

Definition cat_lexicon : LetterTree := tree_of_words ["cat"; "at"; "ta"]%string.

(** ** What the search explores

    The paths of the search, as relations: [forward] is a run of
    [extend_after] from a node and a square to a later node and square, with
    the rack before and after; [prefix_path] is a run of the loop of
    [before_part].  Racks are taken up to the order of their letters. *)

Section paths.
Context (b : Board) (d : option Direction)
        (table : option (gmap pos (list letter))).

Inductive forward :
    LetterTreeNode → pos → list letter → word →
    LetterTreeNode → pos → list letter → Prop :=
  | forward_stop n p r r' :
      r ≡ₚ r' → forward n p r [] n p r'
  | forward_place n p r l child t legal r1 w n' p' r' :
      in_bounds b p = true → is_empty b p = true →
      (l, child) ∈ children n →
      table = Some t → t !! p = Some legal → l ∈ legal →
      r ≡ₚ l :: r1 →
      forward child (after d p) r1 w n' p' r' →
      forward n p r (l :: w) n' p' r'
  | forward_tile n p r l child w n' p' r' :
      in_bounds b p = true → is_empty b p = false →
      get_tile b p = Some l → child_of l (children n) = Some child →
      forward child (after d p) r w n' p' r' →
      forward n p r (l :: w) n' p' r'.

Inductive prefix_path :
    LetterTreeNode → list letter → word →
    LetterTreeNode → list letter → Prop :=
  | prefix_stop n r r' :
      r ≡ₚ r' → prefix_path n r [] n r'
  | prefix_place n r l child r1 pre n' r' :
      (l, child) ∈ children n →
      r ≡ₚ l :: r1 →
      prefix_path child r1 pre n' r' →
      prefix_path n r (l :: pre) n' r'.

(** The start square [legal_move] computes from the square after the word. *)
Definition start_of (w : word) (end_pos : pos) : pos :=
  after d (walk_back d (length w) (before d end_pos)).

(** [m] is the move [legal_move] appends for the word [w] ending before
    [end_pos] when the working rack is [r]. *)
Definition recorded (ref : list letter) (w : word) (end_pos : pos)
    (r : list letter) (m : Move) : Prop :=
  ∃ used,
    list_remove_all r ref = Some used ∧
    m = mkMove w (start_of w end_pos) d used
               (calculate_score b w (start_of w end_pos) d r).

(** A move of [extend_after node pw p af] entered with rack [r]. *)
Definition extension_move (ref : list letter) (node : LetterTreeNode)
    (pw : word) (p : pos) (af : bool) (r : list letter) (m : Move) : Prop :=
  ∃ w n' p' r',
    forward node p r w n' p' r' ∧
    (af = true ∨ w ≠ []) ∧
    is_word n' = true ∧
    is_filled b p' = false ∧
    recorded ref (pw ++ w) p' r' m.

(** A move of [before_part node pw anchor limit] entered with rack [r]. *)
Definition part_move (ref : list letter) (node : LetterTreeNode)
    (pw : word) (anchor : pos) (limit : nat) (r : list letter) (m : Move)
    : Prop :=
  ∃ pre n1 r1,
    prefix_path node r pre n1 r1 ∧
    (length pre ≤ limit)%nat ∧
    extension_move ref n1 (pw ++ pre) anchor false r1 m.
End paths.

(** The fields the search leaves alone. *)
Definition frame (st st' : SolveState) : Prop :=
  dictionary st' = dictionary st ∧ board st' = board st ∧
  reference_rack st' = reference_rack st ∧
  cross_check_results st' = cross_check_results st ∧
  direction st' = direction st.

(** [st'] is [st] with [new] moves appended and the rack reordered. *)
Definition grows (st st' : SolveState) (new : list Move) : Prop :=
  frame st st' ∧ found_moves st' = found_moves st ++ new ∧ rack st' ≡ₚ rack st.

(** ** Squares on a line, runs of tiles, and the moves of a pass *)

(** [k] steps from [p] along the play direction ([k < 0]: backwards). *)
Definition along (d : option Direction) (k : Z) (p : pos) : pos :=
  match d with
  | Some across => (p.1, p.2 + k)
  | _ => (p.1 + k, p.2)
  end.

(** The square of the [k]-th letter of a move. *)
Definition square (m : Move) (k : nat) : pos :=
  Nat.iter k (after (move_direction m)) (move_start m).

(** [run b step p ts]: the cells after [p] in the direction [step] are filled
    with the tiles [ts], nearest first, and the cell after them is not
    filled. *)
Inductive run (b : Board) (step : pos → pos) : pos → list letter → Prop :=
  | run_end p :
      is_filled b (step p) = false → run b step p []
  | run_more p t ts :
      is_filled b (step p) = true → get_tile b (step p) = Some t →
      run b step (step p) ts → run b step p (t :: ts).

(** A move of the search from one anchor: either the tiles before the anchor
    are the fixed prefix, or up to [limit] letters are placed before it. *)
Definition anchor_move (b : Board) (dict : LetterTree) (d : option Direction)
    (table : option (gmap pos (list letter))) (anchors : list pos)
    (ref r : list letter) (anchor : pos) (m : Move) : Prop :=
  (is_filled b (before d anchor) = true ∧
   ∃ ts node,
     run b (before d) anchor ts ∧
     lookup dict (rev ts) = Some node ∧
     extension_move b d table ref node (rev ts) anchor false r m)
  ∨
  (is_filled b (before d anchor) = false ∧
   ∃ limit : nat,
     (∀ i : nat, (0 < i ≤ limit)%nat →
        is_empty b (along d (- Z.of_nat i) anchor) = true ∧
        along d (- Z.of_nat i) anchor ∉ anchors) ∧
     part_move b d table ref (root dict) [] anchor limit r m).

(** A move of the pass in direction [dir] started from the state [st]. *)
Definition pass_move (st : SolveState) (dir : Direction) (m : Move) : Prop :=
  let sd := set_direction st (Some dir) in
  ∃ table anchor,
    cross_check sd = Ok table ∧
    anchor ∈ find_anchors sd ∧
    anchor_move (board st) (dictionary st) (Some dir) (Some table)
                (find_anchors sd) (reference_rack st) (rack st) anchor m.

(** What [find_all_options] leaves alone, whatever the direction. *)
Definition outer_frame (st st' : SolveState) : Prop :=
  dictionary st' = dictionary st ∧ board st' = board st ∧
  reference_rack st' = reference_rack st.

(** A step of one cell along a grid line. *)
Definition is_line (step : pos → pos) : Prop :=
  ∃ v : pos, v ≠ (0, 0) ∧ ∀ p, step p = (p.1 + v.1, p.2 + v.2).

(** The legal letters of a position whose perpendicular runs are [rb]
    (before it, nearest first) and [ra] (after it), as the spec words it. *)
Definition legal_set (dict : LetterTree) (rb ra : list letter) : list letter :=
  match rb, ra with
  | [], [] => alphabet
  | _, _ => List.filter (λ l, dict_is_word dict (rev rb ++ [l] ++ ra)) alphabet
  end.

(** The solver can search from [st]: the working rack is part of the
    reference rack and the table has an entry for every empty position. *)
Definition ready (st : SolveState) : Prop :=
  rack st ⊆+ reference_rack st ∧
  ∃ table,
    cross_check_results st = Some table ∧
    ∀ p, in_bounds (board st) p = true → is_empty (board st) p = true →
         is_Some (table !! p).

(** ** The sample run and the statements it refutes *)

Definition moves_of (r : result SolveState) : list Move :=
  match r with
  | Ok s => found_moves s
  | Raise _ => []
  end.

Definition rack_of (r : result SolveState) : list letter :=
  match r with
  | Ok s => rack s
  | Raise _ => []
  end.

(** The tile [c] in the middle of a 5 by 5 board, the rack [a, t]. *)
Definition cat_state : SolveState := init cat_lexicon one_tile_board (W "at").

Definition cat_across : Move :=
  mkMove (W "cat") (2, 2) (Some across) (W "at") 0.

Definition cat_down : Move :=
  mkMove (W "cat") (2, 2) (Some down) (W "at") 0.

(** The tiles [a, t] in the middle row, a larger lexicon, the rack [c, s]. *)
Definition at_board : Board :=
  grid_board 5 (<[ (2, 1) := "a"%char ]> {[ (2, 2) := "t"%char ]})
             rack_size_score.

Definition cats_lexicon : LetterTree :=
  tree_of_words ["cat"; "at"; "ta"; "cats"; "as"; "sat"]%string.

(** The score of every move found is the score of the input rack. *)
Definition scored_with_input_rack (dict : LetterTree) (b : Board)
    (rack0 : list letter) : Prop :=
  ∀ st' m,
    find_all_options (init dict b rack0) = Ok st' →
    m ∈ found_moves st' →
    move_score m
    = calculate_score b (move_word m) (move_start m) (move_direction m) rack0.

(** A rack token that is not a letter of the alphabet. *)
Definition malformed (rack0 : list letter) : Prop :=
  ∃ t, t ∈ rack0 ∧ t ∉ alphabet.

(** A malformed rack makes the generator raise. *)
Definition rejects_malformed (dict : LetterTree) (b : Board)
    (rack0 : list letter) : Prop :=
  malformed rack0 → ∃ e, find_all_options (init dict b rack0) = Raise e.

(** [find_all_options] changes nothing but [direction],
    [cross_check_results] and [found_moves], and only appends to the last. *)
Definition changes_three_fields (st : SolveState) : Prop :=
  ∀ st',
    find_all_options st = Ok st' →
    dictionary st' = dictionary st ∧ board st' = board st ∧
    reference_rack st' = reference_rack st ∧
    rack st' = rack st ∧
    ∃ new, found_moves st' = found_moves st ++ new.

(** ** Placements *)

(** The letters a word puts on empty squares when it is laid from [p] on. *)
Fixpoint placed_letters (b : Board) (d : option Direction) (w : word)
    (p : pos) : list letter :=
  match w with
  | [] => []
  | l :: w' =>
      (if is_empty b p then [l] else []) ++ placed_letters b d w' (after d p)
  end.

(** The placements the search accepts, stated on the finished word: [w] laid
    from [start] in direction [d] is a dictionary word; each of its squares
    is on the board and either holds the word's letter as a tile or is empty
    and admits the letter by the table; the letters laid on empty squares
    come from the rack [r]; the cells next to the two ends are not filled;
    and one of its squares is an anchor. *)
Record legal_placement (b : Board) (dict : LetterTree) (d : option Direction)
    (table : gmap pos (list letter)) (anchors : list pos) (r : list letter)
    (w : word) (start : pos) : Prop := {
  placement_word : dict_is_word dict w = true;
  placement_squares : ∀ (k : nat) (l : letter),
    w !! k = Some l →
    in_bounds b (along d (Z.of_nat k) start) = true ∧
    (is_empty b (along d (Z.of_nat k) start) = true →
     ∃ legal, table !! along d (Z.of_nat k) start = Some legal ∧ l ∈ legal) ∧
    (is_empty b (along d (Z.of_nat k) start) = false →
     get_tile b (along d (Z.of_nat k) start) = Some l);
  placement_rack : placed_letters b d w start ⊆+ r;
  placement_before : is_filled b (along d (-1) start) = false;
  placement_after : is_filled b (along d (Z.of_nat (length w)) start) = false;
  placement_anchor : ∃ k : nat,
    (k < length w)%nat ∧ along d (Z.of_nat k) start ∈ anchors
}.

(** Between [st] and [st'] a move with the property [P] was appended. *)
Definition finds (st st' : SolveState) (P : Move → Prop) : Prop :=
  ∃ new m, found_moves st' = found_moves st ++ new ∧ m ∈ new ∧ P m.

(** The word, start and direction of a move. *)
Definition lays (w : word) (start : pos) (d : option Direction) (m : Move)
    : Prop :=
  move_word m = w ∧ move_start m = start ∧ move_direction m = d.

(** The letter [l] fits the empty square [p] across the play direction: it is
    a letter of the alphabet and, when a tile is next to [p] across the play
    direction, the tiles of that line with [l] in its place are a word. *)
Definition cross_ok (b : Board) (dict : LetterTree) (d : option Direction)
    (p : pos) (l : letter) : Prop :=
  l ∈ alphabet ∧
  ∀ rb ra : list letter,
    run b (before_cross d) p rb → run b (after_cross d) p ra →
    rb ≠ [] ∨ ra ≠ [] → dict_is_word dict (rev rb ++ [l] ++ ra) = true.

(** The word [w] can be played from [start] in direction [d] with the rack
    [r], by the rules of the game alone: no table and no list of anchors. *)
Record playable (b : Board) (dict : LetterTree) (r : list letter)
    (d : option Direction) (w : word) (start : pos) : Prop := {
  playable_word : dict_is_word dict w = true;
  playable_squares :
    ∀ (k : nat) (l : letter),
      w !! k = Some l →
      in_bounds b (along d (Z.of_nat k) start) = true ∧
      (is_empty b (along d (Z.of_nat k) start) = true →
       cross_ok b dict d (along d (Z.of_nat k) start) l) ∧
      (is_empty b (along d (Z.of_nat k) start) = false →
       get_tile b (along d (Z.of_nat k) start) = Some l);
  playable_rack : placed_letters b d w start ⊆+ r;
  playable_before : is_filled b (along d (-1) start) = false;
  playable_after : is_filled b (along d (Z.of_nat (length w)) start) = false;
  playable_anchor :
    ∃ k : nat,
      (k < length w)%nat ∧
      is_empty b (along d (Z.of_nat k) start) = true ∧
      neighbor_filled b d (along d (Z.of_nat k) start) = true
}.

(** What tells two moves apart: word, start and direction. *)
Definition move_key (m : Move) : word * pos * option Direction :=
  (move_word m, move_start m, move_direction m).

(** The moves [extend_after] appends have distinct words, all going on from
    the partial word. *)
Definition ext_words (pw : word) (st st' : SolveState) : Prop :=
  ∃ new,
    found_moves st' = found_moves st ++ new ∧
    NoDup (map move_word new) ∧
    Forall (λ m, pw `prefix_of` move_word m) new.

(** The moves [before_part] appends are distinct in word or start. *)
Definition part_keys (st st' : SolveState) : Prop :=
  ∃ new,
    found_moves st' = found_moves st ++ new ∧ NoDup (map move_key new).

(** [a] is the first anchor on the squares of the move [m]. *)
Definition first_anchor (d : option Direction) (anchors : list pos) (a : pos)
    (m : Move) : Prop :=
  a ∈ anchors ∧ move_direction m = d ∧
  ∃ n : nat,
    move_start m = along d (- Z.of_nat n) a ∧
    ∀ i : nat, (0 < i ≤ n)%nat → along d (- Z.of_nat i) a ∉ anchors.

(** ** The opponent model of [MCTSPlayer]

    [game_state['tile_distribution']] is a [dict] from tiles to counts; it is
    kept as the list of its items, in insertion order. *)
Definition tile_distribution : Type := list (letter * Z).

(** [tile_dist[tile]], for [tile in tile_dist]. *)
Fixpoint dist_count (tile_dist : tile_distribution) (tile : letter)
    : option Z :=
  match tile_dist with
  | [] => None
  | (key, count) :: rest =>
      if decide (key = tile) then Some count else dist_count rest tile
  end.

(** [tile_dist[tile] = count], for a key of the dict. *)
Fixpoint dist_set (tile_dist : tile_distribution) (tile : letter) (count : Z)
    : tile_distribution :=
  match tile_dist with
  | [] => []
  | (key, old) :: rest =>
      if decide (key = tile) then (key, count) :: rest
      else (key, old) :: dist_set rest tile count
  end.

(** [if tile in tile_dist and tile_dist[tile] > 0: tile_dist[tile] -= 1]. *)
Definition take_tile (tile_dist : tile_distribution) (tile : letter)
    : tile_distribution :=
  match dist_count tile_dist tile with
  | Some count =>
      if 0 <? count then dist_set tile_dist tile (count - 1) else tile_dist
  | None => tile_dist
  end.

(** The list [remaining_tiles] of [_simulate_opponent_rack]: the tiles on
    the board, the own rack and the tiles of the planned move are taken from
    the distribution, and what is left is written out tile by tile. *)
Definition remaining_tiles (tile_distribution0 : tile_distribution)
    (b : Board) (rack my_used_tiles : list letter) : list letter :=
  let tile_dist := tile_distribution0 in
  let tile_dist :=
    foldl (λ tile_dist pos,
             match get_tile b pos with
             | Some tile => take_tile tile_dist tile
             | None => tile_dist
             end) tile_dist (all_positions b) in
  let tile_dist := foldl take_tile tile_dist rack in
  let tile_dist := foldl take_tile tile_dist my_used_tiles in
  foldl (λ remaining '(tile, count),
           remaining ++ replicate (Z.to_nat count) tile) [] tile_dist.

(** [random.sample(population, k)]: [k] items of the population at distinct
    places, in any order. *)
Definition sample (population : list letter) (k : nat) (out : list letter)
    : Prop :=
  length out = k ∧ out ⊆+ population.

(** [out] is a rack [_simulate_opponent_rack] can return. *)
Definition _simulate_opponent_rack (tile_distribution0 : tile_distribution)
    (b : Board) (rack my_used_tiles : list letter) (out : list letter)
    : Prop :=
  let remaining := remaining_tiles tile_distribution0 b rack my_used_tiles in
  let num_tiles := Nat.min 7 (length remaining) in
  match remaining with
  | [] => out = []
  | _ :: _ => sample remaining num_tiles out
  end.

(** [xs.count(tile)]. *)
Definition tile_count (tile : letter) (xs : list letter) : nat :=
  length (filter (λ x, x = tile) xs).

(** The tiles [_simulate_opponent_rack] takes as seen. *)
Definition seen_tiles (b : Board) (rack my_used_tiles : list letter)
    : list letter :=
  omap (get_tile b) (all_positions b) ++ rack ++ my_used_tiles.

(** [max(move[4] for move in found_moves)], for a list that is not empty. *)
Definition max_score (m : Move) (ms : list Move) : Z :=
  foldl (λ best m', Z.max best (move_score m')) (move_score m) ms.

(** [_evaluate_move_sequence]: [place_word] is the method of the copied
    board that lays the planned move. *)
Definition _evaluate_move_sequence
    (place_word : Board → word → pos → option Direction → list letter
                  → result Board)
    (lexicon_tree : LetterTree) (b : Board) (rack : list letter)
    (my_move : Move) (opponent_rack : list letter) : result Z :=
  let my_score := move_score my_move in
  test_board ← place_word b (move_word my_move) (move_start my_move)
                          (move_direction my_move) rack;
  opponent_solver ←
    find_all_options (init lexicon_tree test_board opponent_rack);
  match found_moves opponent_solver with
  | [] => Ok my_score
  | m :: ms => Ok (my_score - max_score m ms)
  end.

(** The sample board after [cat] is laid across from (2, 2), and a
    [place_word] that lays it. *)
Definition cat_board : Board :=
  grid_board 5 (<[ (2, 3) := "a"%char ]>
                  (<[ (2, 4) := "t"%char ]> {[ (2, 2) := "c"%char ]}))
             rack_size_score.

Definition lay_cat (b : Board) (w : word) (start : pos)
    (d : option Direction) (rack : list letter) : result Board :=
  Ok cat_board.

(** What is left of a count after [n] of its tiles were seen. *)
Definition left_of (n : nat) (count : Z) : Z :=
  if count <=? 0 then count else Z.max 0 (count - Z.of_nat n).










(** * Properties *)

(** ** Sequencing and loops *)

Lemma bind_Ok {A B : Type} (m : result A) (f : A → result B) (y : B) :
  m ≫= f = Ok y ↔ ∃ x, m = Ok x ∧ f x = Ok y.
Proof.
  destruct m as [x|e]; simpl; split.
  - intros H. by exists x.
  - by intros (x' & [= ->] & H).
  - intros H. discriminate H.
  - by intros (x' & [=] & _).
Qed.

Lemma or_raise_Ok {A : Type} (e : exn) (o : option A) (x : A) :
  or_raise e o = Ok x ↔ o = Some x.
Proof. destruct o; simpl; split; congruence. Qed.

(** Invariant rule: what every round preserves holds after the loop. *)
Lemma for_each_inv {A S : Type} (I : S → Prop) (xs : list A)
    (body : A → S → result S) (s s' : S) :
  I s →
  (∀ x t t', x ∈ xs → I t → body x t = Ok t' → I t') →
  for_each xs body s = Ok s' →
  I s'.
Proof.
  revert s. induction xs as [|x xs IH]; intros s Hs Hbody Hrun; simpl in Hrun.
  - by injection Hrun as <-.
  - apply bind_Ok in Hrun as (t & Hx & Hrest).
    apply (IH t); [|intros y u u' Hy; apply Hbody; by right|done].
    apply (Hbody x s t); [by left|done..].
Qed.

(** Totality rule: when every round returns from a state of [I] into a state
    of [I], the loop returns. *)
Lemma for_each_returns {A S : Type} (I : S → Prop) (xs : list A)
    (body : A → S → result S) (s : S) :
  I s →
  (∀ x t, x ∈ xs → I t → ∃ t', body x t = Ok t' ∧ I t') →
  ∃ s', for_each xs body s = Ok s' ∧ I s'.
Proof.
  revert s. induction xs as [|x xs IH]; intros s Hs Hbody; simpl.
  - by exists s.
  - destruct (Hbody x s) as (t & -> & Ht); [by left|done|]. simpl.
    apply IH; [done|]. intros y u Hy. apply Hbody. by right.
Qed.

Lemma for_each_total {A S : Type} (xs : list A) (body : A → S → result S)
    (s : S) :
  (∀ x t, x ∈ xs → ∃ t', body x t = Ok t') →
  ∃ s', for_each xs body s = Ok s'.
Proof.
  intros Hbody.
  destruct (for_each_returns (λ _, True) xs body s) as (s' & Hs' & _);
    [done| |by exists s'].
  intros x t Hx _. destruct (Hbody x t Hx) as [t' Ht']. by exists t'.
Qed.

Lemma for_each_map {A B S : Type} (g : A → B) (xs : list A)
    (body : B → S → result S) (s : S) :
  for_each (map g xs) body s = for_each xs (λ x, body (g x)) s.
Proof.
  revert s. induction xs as [|x xs IH]; intros s; simpl; [done|].
  destruct (body (g x) s); simpl; [apply IH|done].
Qed.

(** A loop that appends the elements passing a test is a filter. *)
Lemma foldl_append_filter {A : Type} (test : A → bool) (xs acc : list A) :
  foldl (λ acc x, if test x then acc ++ [x] else acc) acc xs
  = acc ++ List.filter test xs.
Proof.
  revert acc. induction xs as [|x xs IH]; intros acc; simpl.
  - by rewrite app_nil_r.
  - rewrite IH. destruct (test x); [by rewrite <- app_assoc|done].
Qed.

(** ** The trie *)

(** Induction on a node with the hypothesis for every child. *)
Lemma LetterTreeNode_children_ind (P : LetterTreeNode → Prop) :
  (∀ w cs, Forall (λ kc, P kc.2) cs → P (Node w cs)) →
  ∀ n, P n.
Proof.
  intros HNode. fix IH 1. intros [w cs]. apply HNode.
  induction cs as [|[k c] cs IHcs]; constructor; [apply IH|apply IHcs].
Qed.

Lemma child_of_map {A B : Type} (g : A → B) (key : letter)
    (cs : list (letter * A)) :
  child_of key (map (λ kc, (kc.1, g kc.2)) cs) = g <$> child_of key cs.
Proof.
  induction cs as [|[k c] cs IH]; simpl; [done|]. by destruct (decide (k = key)).
Qed.

Lemma child_of_Some_elem {A : Type} (key : letter) (cs : list (letter * A)) (c : A) :
  child_of key cs = Some c → (key, c) ∈ cs.
Proof.
  induction cs as [|[k c'] cs IH]; simpl; [done|].
  destruct (decide (k = key)) as [->|]; [intros [= ->]; by left|].
  intros H. right. by apply IH.
Qed.

Lemma child_of_unique {A : Type} (key : letter) (cs : list (letter * A)) (c : A) :
  NoDup (map fst cs) → (key, c) ∈ cs → child_of key cs = Some c.
Proof.
  induction cs as [|[k c'] cs IH]; simpl; intros Hnd Hin.
  - by apply elem_of_nil in Hin.
  - apply NoDup_cons in Hnd as [Hk Hnd].
    apply elem_of_cons in Hin as [[= <- <-]|Hin].
    + by rewrite decide_True.
    + destruct (decide (k = key)) as [->|]; [|by apply IH].
      exfalso. apply Hk. apply list_elem_of_fmap. by exists (key, c).
Qed.

Lemma unique_keys_Node (w : bool) (cs : list (letter * LetterTreeNode)) :
  unique_keys (Node w cs) = true →
  NoDup (map fst cs) ∧ ∀ k c, (k, c) ∈ cs → unique_keys c = true.
Proof.
  simpl. intros [Hnd Hall]%andb_prop. split.
  - by apply bool_decide_eq_true in Hnd.
  - intros k c Hin. rewrite forallb_forall in Hall.
    apply (Hall (k, c)). by apply list_elem_of_In.
Qed.

Lemma lookup_from_app (n : LetterTreeNode) (w1 w2 : word) :
  lookup_from n (w1 ++ w2) = lookup_from n w1 ≫= λ n1, lookup_from n1 w2.
Proof.
  revert n. induction w1 as [|l w1 IH]; intros n; simpl; [done|].
  destruct (child_of l (children n)); simpl; [apply IH|done].
Qed.

Lemma lookup_from_unique_keys (n n' : LetterTreeNode) (w : word) :
  unique_keys n = true → lookup_from n w = Some n' → unique_keys n' = true.
Proof.
  revert n. induction w as [|l w IH]; intros n Hn; simpl.
  - by intros [= <-].
  - destruct (child_of l (children n)) as [c|] eqn:Hc; [|done].
    apply IH. destruct n as [isw cs].
    apply unique_keys_Node in Hn as [_ Hcs].
    apply (Hcs l). by apply child_of_Some_elem.
Qed.

(** ** Racks as multisets *)

Lemma list_remove_Some (x : letter) (l k : list letter) :
  list_remove x l = Some k → l ≡ₚ x :: k.
Proof.
  revert k. induction l as [|y l IH]; intros k; simpl; [done|].
  destruct (decide (x = y)) as [->|]; [by intros [= ->]|].
  destruct (list_remove x l) as [k'|]; simpl; [|done].
  intros [= <-]. rewrite (IH k' eq_refl). apply Permutation_swap.
Qed.

Lemma list_remove_elem (x : letter) (l : list letter) :
  x ∈ l → is_Some (list_remove x l).
Proof.
  induction l as [|y l IH]; simpl; intros Hin.
  - by apply elem_of_nil in Hin.
  - destruct (decide (x = y)); [by eexists|].
    apply elem_of_cons in Hin as [?|Hin]; [done|].
    destruct (IH Hin) as [k ->]. by eexists.
Qed.

Lemma list_remove_all_Some (xs l k : list letter) :
  list_remove_all xs l = Some k → l ≡ₚ xs ++ k.
Proof.
  revert l. induction xs as [|x xs IH]; intros l; simpl.
  - by intros [= ->].
  - destruct (list_remove x l) as [l'|] eqn:Hx; simpl; [|done].
    intros Hk. rewrite (list_remove_Some _ _ _ Hx). by rewrite (IH _ Hk).
Qed.

Lemma list_remove_all_submseteq (xs l : list letter) :
  xs ⊆+ l → is_Some (list_remove_all xs l).
Proof.
  revert l. induction xs as [|x xs IH]; intros l Hsub; simpl; [by eexists|].
  destruct (list_remove_elem x l) as [l' Hl'].
  { apply (elem_of_submseteq (x :: xs)); [by left|done]. }
  rewrite Hl'. simpl. apply IH.
  apply list_remove_Some in Hl'. rewrite Hl' in Hsub.
  by apply (submseteq_app_inv_l _ _ [x]).
Qed.

(** ** Frames *)

Lemma grows_refl (st : SolveState) : grows st st [].
Proof. unfold grows, frame. by rewrite app_nil_r. Qed.

Lemma grows_moves (st st' : SolveState) (new new' : list Move) :
  grows st st' new → grows st (set_found_moves st' (found_moves st' ++ new'))
                           (new ++ new').
Proof.
  intros ((? & ? & ? & ? & ?) & Hm & Hr). unfold grows, frame; simpl.
  by rewrite Hm, app_assoc.
Qed.

Lemma grows_trans (st t t2 : SolveState) (new new2 : list Move) :
  grows st t new → grows t t2 new2 → grows st t2 (new ++ new2).
Proof.
  intros ((? & ? & ? & ? & ?) & Hm & Hr) ((? & ? & ? & ? & ?) & Hm2 & Hr2).
  unfold grows, frame.
  rewrite Hm2, Hm, app_assoc. split_and!; try congruence.
  by rewrite Hr2.
Qed.

(** One round of a search loop: remove a letter, search, put it back. *)
Lemma grows_round (st t t2 : SolveState) (l : letter) (rack' : list letter)
    (new new2 : list Move) :
  grows st t new →
  list_remove l (rack t) = Some rack' →
  grows (set_rack t rack') t2 new2 →
  grows st (set_rack t2 (rack t2 ++ [l])) (new ++ new2).
Proof.
  intros ((? & ? & ? & ? & ?) & Hm & Hr) Hrem
         ((? & ? & ? & ? & ?) & Hm2 & Hr2).
  unfold grows, frame; simpl in *.
  rewrite Hm2, Hm, app_assoc. split_and!; try congruence.
  rewrite <- Hr, (list_remove_Some _ _ _ Hrem), Hr2.
  by rewrite Permutation_app_comm.
Qed.

Lemma legal_move_Ok (w : word) (last_pos : pos) (st st' : SolveState) :
  legal_move w last_pos st = Ok st' →
  ∃ m, st' = set_found_moves st (found_moves st ++ [m]) ∧
       recorded (board st) (direction st) (reference_rack st) w
                (after (direction st) last_pos) (rack st) m.
Proof.
  unfold legal_move. intros (used & Hused%or_raise_Ok & [= <-])%bind_Ok.
  eexists. split; [done|]. exists used. split; [done|].
  unfold start_of. destruct last_pos as [row col].
  by destruct (direction st) as [[]|]; simpl;
    rewrite ?Z.add_simpl_r, ?Z.sub_add.
Qed.

(** ** Grid moves *)

Lemma after_before (d : option Direction) (p : pos) : after d (before d p) = p.
Proof.
  destruct p as [row col].
  by destruct d as [[]|]; simpl; rewrite ?Z.sub_add.
Qed.

(** ** Soundness of the search: every move it appends lies on a path *)

Section soundness.
Context (b : Board) (d : option Direction)
        (table : option (gmap pos (list letter))) (ref : list letter).

Lemma forward_perm n p r1 r2 w n' p' r' :
  r1 ≡ₚ r2 →
  forward b d table n p r1 w n' p' r' →
  forward b d table n p r2 w n' p' r'.
Proof.
  intros Hperm Hfwd. revert r2 Hperm.
  induction Hfwd as [n p r r' Hr|n p r l child t legal r1' w n' p' r'
                                 ? ? ? ? ? ? Hr ? _|
                     n p r l child w n' p' r' ? ? ? ? _ IH];
    intros r2 Hperm.
  - apply forward_stop. by rewrite <- Hperm.
  - eapply forward_place; [done..| |done]. by rewrite <- Hperm.
  - eapply forward_tile; [done..|]. by apply IH.
Qed.

Lemma prefix_path_perm n r1 r2 pre n' r' :
  r1 ≡ₚ r2 →
  prefix_path n r1 pre n' r' → prefix_path n r2 pre n' r'.
Proof.
  intros Hperm Hpath. destruct Hpath as [n r r' Hr|n r l child r1' pre n' r'
                                         ? Hr ?].
  - apply prefix_stop. by rewrite <- Hperm.
  - eapply prefix_place; [done| |done]. by rewrite <- Hperm.
Qed.

Lemma extension_move_perm node pw p af r1 r2 m :
  r1 ≡ₚ r2 →
  extension_move b d table ref node pw p af r1 m →
  extension_move b d table ref node pw p af r2 m.
Proof.
  intros Hperm (w & n' & p' & r' & Hfwd & Hrest).
  exists w, n', p', r'. split; [by eapply forward_perm|done].
Qed.

(** A move found below a letter placed from the rack is a move of the
    node itself. *)
Lemma extension_move_place node pw p af r l child t legal r1 m :
  in_bounds b p = true → is_empty b p = true →
  (l, child) ∈ children node →
  table = Some t → t !! p = Some legal → l ∈ legal →
  r ≡ₚ l :: r1 →
  extension_move b d table ref child (pw ++ [l]) (after d p) true r1 m →
  extension_move b d table ref node pw p af r m.
Proof.
  intros ? ? ? ? ? ? ? (w & n' & p' & r' & Hfwd & _ & Hw & Hp' & Hrec).
  exists (l :: w), n', p', r'. split_and!; [|by right|done..|].
  - by eapply forward_place.
  - by rewrite <- app_assoc in Hrec.
Qed.

(** The same below a letter read from a tile. *)
Lemma extension_move_tile node pw p af r l child m :
  in_bounds b p = true → is_empty b p = false →
  get_tile b p = Some l → child_of l (children node) = Some child →
  extension_move b d table ref child (pw ++ [l]) (after d p) true r m →
  extension_move b d table ref node pw p af r m.
Proof.
  intros ? ? ? ? (w & n' & p' & r' & Hfwd & _ & Hw & Hp' & Hrec).
  exists (l :: w), n', p', r'. split_and!; [|by right|done..|].
  - by eapply forward_tile.
  - by rewrite <- app_assoc in Hrec.
Qed.
End soundness.

(** What [extend_after] has done when it returns. *)
Definition extend_after_post (node : LetterTreeNode) (pw : word) (p : pos)
    (af : bool) (st st' : SolveState) : Prop :=
  ∃ new,
    grows st st' new ∧
    Forall (extension_move (board st) (direction st) (cross_check_results st)
                           (reference_rack st) node pw p af (rack st)) new.

Lemma extend_after_post_frame node pw p af st st' :
  extend_after_post node pw p af st st' → frame st st'.
Proof. by intros (new & (Hf & _) & _). Qed.

Lemma table_at_Ok (st : SolveState) (p : pos) (legal : list letter) :
  table_at st p = Ok legal →
  ∃ t, cross_check_results st = Some t ∧ t !! p = Some legal.
Proof.
  unfold table_at. destruct (cross_check_results st) as [t|]; [|done].
  intros H%or_raise_Ok. by exists t.
Qed.

(** One round of the loop of [extend_after] keeps the postcondition, given
    that the recursive call meets it. *)
Lemma extend_after_step_sound node pw p af st t t' l child :
  (∀ pw' p' af' s s',
     extend_after child pw' p' af' s = Ok s' →
     extend_after_post child pw' p' af' s s') →
  (l, child) ∈ children node →
  in_bounds (board st) p = true → is_empty (board st) p = true →
  extend_after_post node pw p af st t →
  extend_after_step pw p (l, extend_after child) t = Ok t' →
  extend_after_post node pw p af st t'.
Proof.
  intros IH Hchild Hin Hempty (new & Hgrow & Hnew) Hstep.
  unfold extend_after_step in Hstep.
  case_bool_decide as Hrack; [|by injection Hstep as <-; exists new].
  apply bind_Ok in Hstep as (legal & Hlegal & Hstep).
  case_bool_decide as Hl; [|by injection Hstep as <-; exists new].
  apply bind_Ok in Hstep as (rack' & Hrem%or_raise_Ok & Hstep).
  apply bind_Ok in Hstep as (t2 & Hcall & [= <-]).
  apply IH in Hcall as (new2 & Hgrow2 & Hnew2).
  exists (new ++ new2). split; [by eapply grows_round|].
  apply Forall_app. split; [done|].
  destruct Hgrow as ((_ & Hb & Href & Htab & Hd) & _ & Hr).
  apply table_at_Ok in Hlegal as (tbl & Ht & Hp).
  simpl in Hnew2. rewrite Hb, Href, Htab, Hd in Hnew2.
  eapply Forall_impl; [exact Hnew2|]. intros m Hm. simpl in Hm.
  eapply extension_move_place;
    [done..|by rewrite <- Htab|exact Hp|done| |exact Hm].
  rewrite <- Hr. by apply list_remove_Some.
Qed.

(** The first statement of [extend_after]: the move it may record. *)
Lemma extend_after_record_sound isw cs pw p af st st1 :
  (if negb (is_filled (board st) p) && isw && af
   then legal_move pw (before (direction st) p) st
   else Ok st) = Ok st1 →
  extend_after_post (Node isw cs) pw p af st st1.
Proof.
  intros Hrec.
  destruct (negb (is_filled (board st) p) && isw && af) eqn:Hcond.
  - apply legal_move_Ok in Hrec as (m & -> & Hm).
    rewrite after_before in Hm.
    apply andb_prop in Hcond as [[Hfill%negb_true_iff ->]%andb_prop ->].
    exists [m]. split; [apply (grows_moves st st [] [m]), grows_refl|].
    constructor; [|done].
    exists [], (Node true cs), p, (rack st).
    rewrite app_nil_r. split_and!; [by constructor|by left|done..].
  - injection Hrec as <-. exists []. split; [apply grows_refl|done].
Qed.

Lemma extend_after_sound node :
  ∀ pw p af st st',
    extend_after node pw p af st = Ok st' →
    extend_after_post node pw p af st st'.
Proof.
  induction node as [isw cs IH] using LetterTreeNode_children_ind.
  intros pw p af st st' Hrun. simpl in Hrun.
  apply bind_Ok in Hrun as (st1 & Hrec & Hrun).
  pose proof (extend_after_record_sound _ cs _ _ _ _ _ Hrec) as Hst1.
  pose proof (extend_after_post_frame _ _ _ _ _ _ Hst1)
    as (_ & Hb & _ & _ & Hd).
  rewrite Hb, Hd in Hrun.
  destruct (in_bounds (board st) p) eqn:Hin; [|by injection Hrun as <-].
  destruct (is_empty (board st) p) eqn:Hempty.
  - rewrite for_each_map in Hrun.
    eapply (for_each_inv (extend_after_post (Node isw cs) pw p af st));
      [exact Hst1| |exact Hrun].
    intros [l child] t t' Hl Ht Hstep. simpl in Hstep.
    eapply extend_after_step_sound; [|exact Hl|done..].
    rewrite Forall_forall in IH. by apply (IH (l, child)).
  - destruct (get_tile (board st) p) as [l|] eqn:Htile;
      [|by injection Hrun as <-].
    rewrite child_of_map in Hrun.
    destruct (child_of l cs) as [child|] eqn:Hchild; simpl in Hrun;
      [|by injection Hrun as <-].
    rewrite Forall_forall in IH.
    apply (IH (l, child)) in Hrun as (new2 & Hgrow2 & Hnew2);
      [|by apply child_of_Some_elem].
    destruct Hst1 as (new1 & Hgrow1 & Hnew1).
    exists (new1 ++ new2). split; [by eapply grows_trans|].
    apply Forall_app. split; [done|].
    destruct Hgrow1 as ((_ & Hb1 & Href1 & Htab1 & Hd1) & _ & Hr1).
    rewrite Hb1, Href1, Htab1, Hd1 in Hnew2.
    eapply Forall_impl; [exact Hnew2|]. intros m Hm. simpl in Hm.
    eapply extension_move_tile; [done..|].
    by eapply extension_move_perm.
Qed.

(** What [before_part] has done when it returns. *)
Definition before_part_post (node : LetterTreeNode) (pw : word) (anchor : pos)
    (limit : nat) (st st' : SolveState) : Prop :=
  ∃ new,
    grows st st' new ∧
    Forall (part_move (board st) (direction st) (cross_check_results st)
                      (reference_rack st) node pw anchor limit (rack st)) new.

Lemma part_move_here b d table ref node pw anchor limit r m :
  extension_move b d table ref node pw anchor false r m →
  part_move b d table ref node pw anchor limit r m.
Proof.
  intros Hm. exists [], node, r. rewrite app_nil_r.
  split_and!; [by constructor|simpl; lia|done].
Qed.

Lemma part_move_place b d table ref node pw anchor limit r l child r1 m :
  (0 < limit)%nat →
  (l, child) ∈ children node →
  r ≡ₚ l :: r1 →
  part_move b d table ref child (pw ++ [l]) anchor (limit - 1) r1 m →
  part_move b d table ref node pw anchor limit r m.
Proof.
  intros Hlimit Hchild Hr (pre & n1 & r2 & Hpath & Hlen & Hm).
  exists (l :: pre), n1, r2. split_and!.
  - by eapply prefix_place.
  - simpl. lia.
  - by rewrite <- app_assoc in Hm.
Qed.

Lemma before_part_step_sound node pw anchor limit st t t' l child :
  (∀ pw' limit' s s',
     before_part child pw' anchor limit' s = Ok s' →
     before_part_post child pw' anchor limit' s s') →
  (l, child) ∈ children node →
  (0 < limit)%nat →
  before_part_post node pw anchor limit st t →
  before_part_step pw anchor limit (l, before_part child) t = Ok t' →
  before_part_post node pw anchor limit st t'.
Proof.
  intros IH Hchild Hlimit (new & Hgrow & Hnew) Hstep.
  unfold before_part_step in Hstep.
  case_bool_decide as Hrack; [|by injection Hstep as <-; exists new].
  apply bind_Ok in Hstep as (rack' & Hrem%or_raise_Ok & Hstep).
  apply bind_Ok in Hstep as (t2 & Hcall & [= <-]).
  apply IH in Hcall as (new2 & Hgrow2 & Hnew2).
  exists (new ++ new2). split; [by eapply grows_round|].
  apply Forall_app. split; [done|].
  destruct Hgrow as ((_ & Hb & Href & Htab & Hd) & _ & Hr).
  simpl in Hnew2. rewrite Hb, Href, Htab, Hd in Hnew2.
  eapply Forall_impl; [exact Hnew2|]. intros m Hm. simpl in Hm.
  eapply part_move_place; [done..| |exact Hm].
  rewrite <- Hr. by apply list_remove_Some.
Qed.

Lemma before_part_eq node pw anchor limit st :
  before_part node pw anchor limit st =
  st1 ← extend_after node pw anchor false st;
  if (0 <? limit)%nat then
    for_each (map (λ kc, (kc.1, before_part kc.2)) (children node))
             (before_part_step pw anchor limit) st1
  else Ok st1.
Proof. by destruct node. Qed.

Lemma before_part_sound node :
  ∀ pw anchor limit st st',
    before_part node pw anchor limit st = Ok st' →
    before_part_post node pw anchor limit st st'.
Proof.
  induction node as [isw cs IH] using LetterTreeNode_children_ind.
  intros pw anchor limit st st' Hrun. rewrite before_part_eq in Hrun.
  apply bind_Ok in Hrun as (st1 & Hext & Hrun). simpl in Hrun.
  apply extend_after_sound in Hext as (new1 & Hgrow1 & Hnew1).
  assert (before_part_post (Node isw cs) pw anchor limit st st1) as Hst1.
  { exists new1. split; [done|].
    eapply Forall_impl; [exact Hnew1|]. intros m. apply part_move_here. }
  destruct (0 <? limit)%nat eqn:Hlimit; [|by injection Hrun as <-].
  apply Nat.ltb_lt in Hlimit.
  rewrite for_each_map in Hrun.
  eapply (for_each_inv (before_part_post (Node isw cs) pw anchor limit st));
    [exact Hst1| |exact Hrun].
  intros [l child] t t' Hl Ht Hstep. simpl in Hstep.
  eapply before_part_step_sound; [|exact Hl|done..].
  rewrite Forall_forall in IH. intros pw' limit'. by apply (IH (l, child)).
Qed.

(** ** Lines on the grid *)

Lemma after_along d p : after d p = along d 1 p.
Proof. destruct p. by destruct d as [[]|]. Qed.

Lemma before_along d p : before d p = along d (-1) p.
Proof. destruct p. by destruct d as [[]|]. Qed.

Lemma along_along d j k p : along d j (along d k p) = along d (k + j) p.
Proof. destruct p. destruct d as [[]|]; simpl; f_equal; lia. Qed.

Lemma along_0 d p : along d 0 p = p.
Proof. destruct p. destruct d as [[]|]; simpl; f_equal; lia. Qed.

Lemma iter_after d (k : nat) p :
  Nat.iter k (after d) p = along d (Z.of_nat k) p.
Proof.
  induction k as [|k IH]; [by rewrite along_0|].
  rewrite Nat.iter_succ, IH, after_along, along_along. f_equal. lia.
Qed.

Lemma walk_back_along d (k : nat) p :
  walk_back d k p = along d (- Z.of_nat k) p.
Proof.
  revert p. induction k as [|k IH]; intros p; simpl walk_back.
  - by rewrite along_0.
  - rewrite IH, before_along, along_along. f_equal. lia.
Qed.

Lemma start_of_along d (w : word) p :
  start_of d w p = along d (- Z.of_nat (length w)) p.
Proof.
  unfold start_of.
  rewrite walk_back_along, before_along, after_along, !along_along.
  f_equal. lia.
Qed.

(** ** The [while] loops *)

Lemma scan_filled_run b step add fuel p acc letters :
  scan_filled b step add fuel p acc = Ok letters →
  ∃ ts, run b step p ts ∧ letters = foldl (λ ls t, add t ls) acc ts.
Proof.
  revert p acc. induction fuel as [|fuel IH]; intros p acc; simpl;
    destruct (is_filled b (step p)) eqn:Hfill; try done.
  - intros [= <-]. exists []. split; [by constructor|done].
  - destruct (get_tile b (step p)) as [t|] eqn:Htile; [|done].
    intros (ts & Hrun & ->)%IH. exists (t :: ts). split; [by constructor|done].
  - intros [= <-]. exists []. split; [by constructor|done].
Qed.

Lemma foldl_prepend (ts acc : word) :
  foldl (λ ls t, prepend t ls) acc ts = rev ts ++ acc.
Proof.
  revert acc. induction ts as [|t ts IH]; intros acc; simpl; [done|].
  by rewrite IH, <- app_assoc.
Qed.

Lemma foldl_append (ts acc : word) :
  foldl (λ ls t, append t ls) acc ts = acc ++ ts.
Proof.
  revert acc. induction ts as [|t ts IH]; intros acc; simpl.
  - by rewrite app_nil_r.
  - unfold append at 2. by rewrite IH, <- app_assoc.
Qed.

Lemma count_limit_Ok b d anchors fuel p limit0 limit :
  count_limit b d anchors fuel p limit0 = Ok limit →
  ∃ n : nat, limit = (limit0 + n)%nat ∧
    ∀ i : nat, (0 < i ≤ n)%nat →
      is_empty b (along d (- Z.of_nat i) p) = true ∧
      along d (- Z.of_nat i) p ∉ anchors.
Proof.
  revert p limit0. induction fuel as [|fuel IH]; intros p limit0; simpl;
    destruct (is_empty b (before d p)
              && negb (bool_decide (before d p ∈ anchors))) eqn:Hcond;
    try done.
  - intros [= <-]. exists 0%nat. split; [lia|]. intros i Hi. lia.
  - intros (n & -> & Hn)%IH. exists (S n). split; [lia|]. intros i Hi.
    apply andb_prop in Hcond as [Hempty Hanchor].
    apply negb_true_iff, bool_decide_eq_false in Hanchor.
    destruct (decide (i = 1%nat)) as [->|Hne].
    + by rewrite <- before_along.
    + specialize (Hn (i - 1)%nat). rewrite before_along, along_along in Hn.
      replace (-1 + - Z.of_nat (i - 1)) with (- Z.of_nat i) in Hn by lia.
      apply Hn. lia.
  - intros [= <-]. exists 0%nat. split; [lia|]. intros i Hi. lia.
Qed.

(** ** Soundness of a pass and of [find_all_options] *)

Lemma part_move_perm b d table ref node pw anchor limit r1 r2 m :
  r1 ≡ₚ r2 →
  part_move b d table ref node pw anchor limit r1 m →
  part_move b d table ref node pw anchor limit r2 m.
Proof.
  intros Hperm (pre & n1 & r' & Hpath & Hrest).
  exists pre, n1, r'. split; [by eapply prefix_path_perm|done].
Qed.

Lemma anchor_move_perm b dict d table anchors ref r1 r2 anchor m :
  r1 ≡ₚ r2 →
  anchor_move b dict d table anchors ref r1 anchor m →
  anchor_move b dict d table anchors ref r2 anchor m.
Proof.
  intros Hperm [(Hfill & ts & node & Hrun & Hnode & Hm)
               |(Hfill & limit & Hlimit & Hm)]; [left|right];
    (split; [done|]).
  - exists ts, node. split_and!; [done..|by eapply extension_move_perm].
  - exists limit. split; [done|by eapply part_move_perm].
Qed.

Lemma search_anchor_sound anchors anchor st st' :
  search_anchor anchors anchor st = Ok st' →
  ∃ new,
    grows st st' new ∧
    Forall (anchor_move (board st) (dictionary st) (direction st)
                        (cross_check_results st) anchors (reference_rack st)
                        (rack st) anchor) new.
Proof.
  unfold search_anchor.
  destruct (is_filled (board st) (before (direction st) anchor)) eqn:Hfill.
  - intros (first & Hfirst%or_raise_Ok & Hrun)%bind_Ok.
    apply bind_Ok in Hrun as (pw & Hscan & Hrun).
    apply scan_filled_run in Hscan as (ts & Hts & ->).
    rewrite foldl_prepend in Hrun.
    change (rev ts ++ [first]) with (rev (first :: ts)) in Hrun.
    destruct (lookup (dictionary st) (rev (first :: ts))) as [node|] eqn:Hnode.
    + apply extend_after_sound in Hrun as (new & Hgrow & Hnew).
      exists new. split; [done|].
      eapply Forall_impl; [exact Hnew|]. intros m Hm. left. split; [done|].
      exists (first :: ts), node. split_and!; [by constructor|done..].
    + injection Hrun as <-. exists []. split; [apply grows_refl|done].
  - intros (limit & Hlimit & Hrun)%bind_Ok.
    apply count_limit_Ok in Hlimit as (n & -> & Hn).
    apply before_part_sound in Hrun as (new & Hgrow & Hnew).
    exists new. split; [done|].
    eapply Forall_impl; [exact Hnew|]. intros m Hm. right. split; [done|].
    by exists n.
Qed.

Lemma cross_check_ext (s t : SolveState) :
  board t = board s → dictionary t = dictionary s → direction t = direction s →
  cross_check t = cross_check s.
Proof. unfold cross_check, legal_here_at. by intros -> -> ->. Qed.

Lemma find_anchors_ext (s t : SolveState) :
  board t = board s → direction t = direction s →
  find_anchors t = find_anchors s.
Proof. unfold find_anchors. by intros -> ->. Qed.

Lemma pass_move_ext (s t : SolveState) (dir : Direction) (m : Move) :
  outer_frame s t → rack t ≡ₚ rack s →
  pass_move t dir m → pass_move s dir m.
Proof.
  intros (Hdict & Hb & Href) Hr (table & anchor & Htable & Hanchor & Hm).
  exists table, anchor.
  rewrite <- (cross_check_ext _ (set_direction t (Some dir))) by done.
  rewrite <- (find_anchors_ext _ (set_direction t (Some dir))) by done.
  split_and!; [done..|]. rewrite <- Hb, <- Hdict, <- Href.
  by eapply anchor_move_perm.
Qed.

(** What one pass has done when it returns. *)
Lemma search_direction_sound (dir : Direction) (st st' : SolveState) :
  search_direction dir st = Ok st' →
  ∃ new table,
    outer_frame st st' ∧
    found_moves st' = found_moves st ++ new ∧
    rack st' ≡ₚ rack st ∧
    direction st' = Some dir ∧
    cross_check (set_direction st (Some dir)) = Ok table ∧
    cross_check_results st' = Some table ∧
    Forall (pass_move st dir) new.
Proof.
  unfold search_direction. intros (table & Htable & Hrun)%bind_Ok.
  set (sd := set_direction st (Some dir)) in *.
  set (sd' := set_cross_check_results sd (Some table)) in *.
  set (anchors := find_anchors sd) in *.
  assert (∃ new, grows sd' st' new ∧ Forall (pass_move st dir) new)
    as (new & ((Hdict & Hb & Href & Htab & Hdir) & Hmoves & Hr) & Hnew).
  { eapply (for_each_inv
              (λ t, ∃ new, grows sd' t new ∧ Forall (pass_move st dir) new));
      [| |exact Hrun].
    - exists []. split; [apply grows_refl|done].
    - intros anchor t t' Hanchor (new & Hgrow & Hnew) Hstep.
      apply search_anchor_sound in Hstep as (new2 & Hgrow2 & Hnew2).
      exists (new ++ new2). split; [by eapply grows_trans|].
      apply Forall_app. split; [done|].
      destruct Hgrow as ((Hdict & Hb & Href & Htab & Hdir) & _ & Hr).
      rewrite Hdict, Hb, Href, Htab, Hdir in Hnew2.
      eapply Forall_impl; [exact Hnew2|]. intros m Hm.
      exists table, anchor. split_and!; [done..|].
      by eapply anchor_move_perm. }
  exists new, table. by split_and!.
Qed.

(** What [find_all_options] has done when it returns. *)
Lemma find_all_options_sound (st st' : SolveState) :
  find_all_options st = Ok st' →
  ∃ new,
    outer_frame st st' ∧
    found_moves st' = found_moves st ++ new ∧
    rack st' ≡ₚ rack st ∧
    Forall (λ m, ∃ dir, pass_move st dir m) new.
Proof.
  unfold find_all_options. intros Hrun.
  eapply (for_each_inv
            (λ t, ∃ new, outer_frame st t ∧
                         found_moves t = found_moves st ++ new ∧
                         rack t ≡ₚ rack st ∧
                         Forall (λ m, ∃ dir, pass_move st dir m) new));
    [| |exact Hrun].
  - exists []. unfold outer_frame. by rewrite app_nil_r.
  - intros dir t t' _ (new & Hframe & Hmoves & Hr & Hnew) Hstep.
    apply search_direction_sound in Hstep
      as (new2 & table & Hframe2 & Hmoves2 & Hr2 & _ & _ & _ & Hnew2).
    exists (new ++ new2). split_and!.
    + destruct Hframe as (? & ? & ?), Hframe2 as (? & ? & ?).
      unfold outer_frame. split_and!; congruence.
    + by rewrite Hmoves2, Hmoves, app_assoc.
    + by rewrite Hr2.
    + apply Forall_app. split; [done|].
      eapply Forall_impl; [exact Hnew2|]. intros m Hm. exists dir.
      by eapply pass_move_ext.
Qed.

(** ** The [while] loops end on a board that keeps its contract *)

Lemma is_line_before d : is_line (before d).
Proof.
  destruct d as [[]|]; [exists (0, -1)|exists (-1, 0)..];
    (split; [done|]); intros [row col]; simpl; f_equal; lia.
Qed.

Lemma is_line_before_cross d : is_line (before_cross d).
Proof.
  destruct d as [[]|]; [exists (-1, 0)|exists (0, -1)..];
    (split; [done|]); intros [row col]; simpl; f_equal; lia.
Qed.

Lemma is_line_after_cross d : is_line (after_cross d).
Proof.
  destruct d as [[]|]; [exists (1, 0)|exists (0, 1)..];
    (split; [done|]); intros [row col]; simpl; f_equal; lia.
Qed.

Lemma iter_line (step : pos → pos) (v : pos) (k : nat) (p : pos) :
  (∀ q, step q = (q.1 + v.1, q.2 + v.2)) →
  Nat.iter k step p = (p.1 + Z.of_nat k * v.1, p.2 + Z.of_nat k * v.2).
Proof.
  intros Hstep. induction k as [|k IH].
  - destruct p; simpl; f_equal; lia.
  - rewrite Nat.iter_succ, IH, Hstep. simpl. f_equal; lia.
Qed.

Lemma iter_line_inj (step : pos → pos) (j k : nat) (p : pos) :
  is_line step → Nat.iter j step p = Nat.iter k step p → j = k.
Proof.
  intros ([v1 v2] & Hv & Hstep).
  rewrite !(iter_line step (v1, v2)) by done. simpl. intros [= H1 H2].
  destruct (decide (v1 = 0)) as [->|]; [|nia].
  destruct (decide (v2 = 0)) as [->|]; [done|nia].
Qed.

(** Cells on a line that all lie on the board are no more than the board has
    positions: walking on, one leaves the cells that satisfy [P]. *)
Lemma line_leaves (b : Board) (P : pos → bool) (step : pos → pos) (p : pos) :
  is_line step →
  (∀ q, P q = true → q ∈ all_positions b) →
  ∃ k : nat, (k ≤ loop_bound b)%nat ∧ P (Nat.iter (S k) step p) = false.
Proof.
  intros Hline HP.
  assert (∀ n : nat,
            (∃ k : nat, (k < n)%nat ∧ P (Nat.iter (S k) step p) = false) ∨
            (∀ k : nat, (k < n)%nat → P (Nat.iter (S k) step p) = true))
    as Hsearch.
  { induction n as [|n [(k & Hk & HPk)|Hall]].
    - right. intros k Hk. lia.
    - left. exists k. split; [lia|done].
    - destruct (P (Nat.iter (S n) step p)) eqn:HPn.
      + right. intros k Hk. destruct (decide (k = n)) as [->|]; [done|].
        apply Hall. lia.
      + left. exists n. split; [lia|done]. }
  destruct (Hsearch (S (loop_bound b))) as [(k & Hk & HPk)|Hall].
  { exists k. split; [lia|done]. }
  exfalso.
  set (cells := (λ k, Nat.iter (S k) step p) <$> seq 0 (S (loop_bound b))).
  assert (cells ⊆+ all_positions b) as Hsub.
  { apply NoDup_submseteq.
    - apply NoDup_fmap_2_strong; [|apply NoDup_seq].
      intros j k _ _ Heq. apply iter_line_inj in Heq; [lia|done].
    - intros q (k & -> & Hk)%list_elem_of_fmap. apply HP, Hall.
      apply elem_of_seq in Hk. lia. }
  apply submseteq_length in Hsub. unfold cells in Hsub.
  rewrite length_fmap, length_seq in Hsub. unfold loop_bound in Hsub. lia.
Qed.

Lemma filled_position b q :
  board_ok b → is_filled b q = true → q ∈ all_positions b.
Proof.
  intros Hok Hq. by apply (positions_in_bounds b Hok), (filled_in_bounds b Hok).
Qed.

Lemma empty_position b q :
  board_ok b → is_empty b q = true → q ∈ all_positions b.
Proof.
  intros Hok Hq. apply (positions_in_bounds b Hok).
  by apply (empty_iff b Hok) in Hq as [? _].
Qed.

Lemma empty_not_filled b q :
  board_ok b → is_empty b q = true → is_filled b q = false.
Proof. intros Hok Hq. by apply (empty_iff b Hok) in Hq as [_ ?]. Qed.

Lemma scan_filled_fuel b step add (fuel : nat) p acc :
  (∀ q, is_filled b q = true → is_Some (get_tile b q)) →
  (∃ k : nat, (k ≤ fuel)%nat ∧ is_filled b (Nat.iter (S k) step p) = false) →
  ∃ letters, scan_filled b step add fuel p acc = Ok letters.
Proof.
  intros Htile. revert p acc.
  induction fuel as [|fuel IH]; intros p acc (k & Hk & Hend); simpl;
    destruct (is_filled b (step p)) eqn:Hfill; try by eexists.
  - assert (k = 0%nat) as -> by lia. simpl in Hend. congruence.
  - destruct (Htile _ Hfill) as [t ->]. apply IH.
    destruct k as [|k]; [simpl in Hend; congruence|].
    exists k. split; [lia|]. by rewrite <- Nat.iter_succ_r.
Qed.

Lemma scan_filled_returns b step add p acc :
  board_ok b → is_line step →
  ∃ letters, scan_filled b step add (loop_bound b) p acc = Ok letters.
Proof.
  intros Hok Hline. apply scan_filled_fuel; [apply (filled_tile b Hok)|].
  apply line_leaves; [done|]. intros q Hq. by apply filled_position.
Qed.

Lemma count_limit_fuel b d anchors (fuel : nat) p limit0 :
  (∃ k : nat, (k ≤ fuel)%nat ∧
     is_empty b (Nat.iter (S k) (before d) p)
     && negb (bool_decide (Nat.iter (S k) (before d) p ∈ anchors)) = false) →
  ∃ limit, count_limit b d anchors fuel p limit0 = Ok limit.
Proof.
  revert p limit0.
  induction fuel as [|fuel IH]; intros p limit0 (k & Hk & Hend); simpl;
    destruct (is_empty b (before d p)
              && negb (bool_decide (before d p ∈ anchors))) eqn:Hcond;
    try by eexists.
  - assert (k = 0%nat) as -> by lia. simpl in Hend. congruence.
  - apply IH. destruct k as [|k]; [simpl in Hend; congruence|].
    exists k. split; [lia|]. by rewrite <- Nat.iter_succ_r.
Qed.

Lemma count_limit_returns b d anchors p limit0 :
  board_ok b →
  ∃ limit, count_limit b d anchors (loop_bound b) p limit0 = Ok limit.
Proof.
  intros Hok. apply count_limit_fuel.
  destruct (line_leaves b
              (λ q, is_empty b q && negb (bool_decide (q ∈ anchors)))
              (before d) p) as (k & Hk & Hend); [apply is_line_before| |by eauto].
  intros q [Hq _]%andb_prop. by apply empty_position.
Qed.

(** ** The cross-check table *)

Lemma run_functional b step p ts1 ts2 :
  run b step p ts1 → run b step p ts2 → ts1 = ts2.
Proof.
  intros Hrun. revert ts2.
  induction Hrun as [p Hend|p t ts Hfill Htile _ IH]; intros ts2 Hrun2;
    destruct Hrun2 as [p Hend2|p t2 ts2 Hfill2 Htile2 Hrun2]; try congruence.
  f_equal; [congruence|by apply IH].
Qed.

Lemma legal_set_nil dict : legal_set dict [] [] = alphabet.
Proof. reflexivity. Qed.

Lemma legal_set_elem dict rb ra l :
  rb ≠ [] ∨ ra ≠ [] →
  l ∈ legal_set dict rb ra ↔
  l ∈ alphabet ∧ dict_is_word dict (rev rb ++ [l] ++ ra) = true.
Proof.
  intros Hruns. unfold legal_set. generalize alphabet as abc. intros abc.
  assert (match rb, ra with
          | [], [] => abc
          | _, _ => List.filter
                      (λ l, dict_is_word dict (rev rb ++ [l] ++ ra)) abc
          end
          = List.filter (λ l, dict_is_word dict (rev rb ++ [l] ++ ra)) abc)
    as ->.
  { destruct rb as [|t rb]; [destruct ra as [|t ra]|]; [|reflexivity..].
    destruct Hruns; congruence. }
  by rewrite list_elem_of_In, filter_In, <- list_elem_of_In.
Qed.

Lemma filter_sublist {A : Type} (test : A → bool) (xs : list A) :
  sublist (List.filter test xs) xs.
Proof.
  induction xs as [|x xs IH]; simpl; [done|].
  destruct (test x); [by apply sublist_skip|by apply sublist_cons].
Qed.

Lemma legal_set_sublist dict rb ra : sublist (legal_set dict rb ra) alphabet.
Proof.
  unfold legal_set. generalize alphabet as abc. intros abc.
  destruct rb; [destruct ra|]; [done|apply filter_sublist..].
Qed.

Lemma legal_here_at_Ok st p legal :
  legal_here_at st p = Ok legal →
  ∃ rb ra,
    run (board st) (before_cross (direction st)) p rb ∧
    run (board st) (after_cross (direction st)) p ra ∧
    legal = legal_set (dictionary st) rb ra.
Proof.
  unfold legal_here_at. intros (lb & Hlb & Hrun)%bind_Ok.
  apply bind_Ok in Hrun as (la & Hla & [= <-]).
  apply scan_filled_run in Hlb as (rb & Hrb & ->).
  apply scan_filled_run in Hla as (ra & Hra & ->).
  exists rb, ra. split_and!; [done..|].
  rewrite foldl_prepend, foldl_append, app_nil_r.
  unfold legal_set, legal_letters. generalize alphabet as abc. intros abc.
  rewrite foldl_append_filter.
  destruct rb as [|t rb]; [destruct ra as [|t ra]|]; [done..|].
  replace (length (rev (t :: rb)) =? 0)%nat with false; [done|].
  symmetry. apply Nat.eqb_neq. rewrite length_rev. simpl. lia.
Qed.

Lemma legal_here_at_returns st p :
  board_ok (board st) → ∃ legal, legal_here_at st p = Ok legal.
Proof.
  intros Hok. unfold legal_here_at.
  destruct (scan_filled_returns (board st) (before_cross (direction st))
              prepend p []) as [lb ->]; [done|apply is_line_before_cross|].
  destruct (scan_filled_returns (board st) (after_cross (direction st))
              append p []) as [la ->]; [done|apply is_line_after_cross|].
  simpl. by eexists.
Qed.

(** The loop of [cross_check] over any list of positions. *)
Lemma cross_check_loop (st : SolveState) (xs : list pos)
    (m0 m : gmap pos (list letter)) :
  for_each xs
    (λ pos result,
       if is_filled (board st) pos then Ok result
       else legal_here ← legal_here_at st pos;
            Ok (<[pos := legal_here]> result)) m0 = Ok m →
  ∀ p,
    (p ∈ xs ∧ is_filled (board st) p = false ∧
     ∃ legal, legal_here_at st p = Ok legal ∧ m !! p = Some legal)
    ∨ ((p ∉ xs ∨ is_filled (board st) p = true) ∧ m !! p = m0 !! p).
Proof.
  revert m0. induction xs as [|x xs IH]; intros m0 Hrun p; simpl in Hrun.
  - injection Hrun as <-. right. split; [|done]. left. apply not_elem_of_nil.
  - apply bind_Ok in Hrun as (m1 & Hx & Hrun).
    destruct (IH _ Hrun p) as [(Hp & Hfill & Hlegal)|[Hp Hsame]].
    { left. split; [by right|done]. }
    destruct (is_filled (board st) x) eqn:Hfx.
    + injection Hx as <-. right. split; [|done].
      destruct Hp as [Hp|Hp]; [|by right].
      destruct (decide (p = x)) as [->|]; [by right|].
      left. by intros [?|?]%elem_of_cons.
    + apply bind_Ok in Hx as (legal & Hlegal & [= <-]).
      destruct (decide (p = x)) as [->|Hne].
      * left. split_and!; [by left|done|].
        exists legal. split; [done|]. by rewrite Hsame, lookup_insert_eq.
      * right. rewrite Hsame, lookup_insert_ne by done. split; [|done].
        destruct Hp as [Hp|Hp]; [|by right].
        left. by intros [?|?]%elem_of_cons.
Qed.

(** The table of [cross_check]: the positions of the board that are not
    filled have the letters computed for them, and nothing else has an
    entry. *)
Lemma cross_check_Ok (st : SolveState) (table : gmap pos (list letter))
    (p : pos) :
  cross_check st = Ok table →
  (p ∈ all_positions (board st) ∧ is_filled (board st) p = false ∧
   ∃ rb ra,
     run (board st) (before_cross (direction st)) p rb ∧
     run (board st) (after_cross (direction st)) p ra ∧
     table !! p = Some (legal_set (dictionary st) rb ra))
  ∨ ((p ∉ all_positions (board st) ∨ is_filled (board st) p = true) ∧
     table !! p = None).
Proof.
  intros Hrun.
  destruct (cross_check_loop _ _ _ _ Hrun p)
    as [(Hp & Hfill & legal & Hlegal & Hentry)|[Hp Hsame]].
  - left. split_and!; [done..|].
    apply legal_here_at_Ok in Hlegal as (rb & ra & Hrb & Hra & ->).
    by exists rb, ra.
  - right. by rewrite lookup_empty in Hsame.
Qed.

Lemma cross_check_returns (st : SolveState) :
  board_ok (board st) → ∃ table, cross_check st = Ok table.
Proof.
  intros Hok. unfold cross_check. apply for_each_total.
  intros x t _. destruct (is_filled (board st) x); [by exists t|].
  destruct (legal_here_at_returns st x Hok) as [legal ->]. simpl. by eexists.
Qed.

Lemma cross_check_ready (st : SolveState) (table : gmap pos (list letter)) :
  board_ok (board st) → cross_check st = Ok table →
  ∀ p, in_bounds (board st) p = true → is_empty (board st) p = true →
       is_Some (table !! p).
Proof.
  intros Hok Hrun p Hin Hempty.
  destruct (cross_check_Ok _ _ p Hrun)
    as [(_ & _ & rb & ra & _ & _ & ->)|[[Hp|Hp] _]]; [by eexists|..].
  - exfalso. by apply Hp, empty_position.
  - apply empty_not_filled in Hempty; [congruence|done].
Qed.

(** ** The search returns *)

Lemma ready_grows st t new : ready st → grows st t new → ready t.
Proof.
  intros (Hsub & table & Htable & Hentries)
         ((_ & Hb & Href & Htab & _) & _ & Hr).
  split; [by rewrite Hr, Href|].
  exists table. rewrite Htab, Hb. by split.
Qed.

Lemma ready_remove t l rack' :
  ready t → list_remove l (rack t) = Some rack' → ready (set_rack t rack').
Proof.
  intros (Hsub & Htable) Hrem. split; [|done]. simpl.
  apply list_remove_Some in Hrem. rewrite Hrem in Hsub.
  etrans; [|exact Hsub]. by apply submseteq_cons.
Qed.

Lemma legal_move_returns w p st :
  rack st ⊆+ reference_rack st → ∃ st', legal_move w p st = Ok st'.
Proof.
  intros [used Hused]%list_remove_all_submseteq.
  unfold legal_move. rewrite Hused. simpl. by eexists.
Qed.

Lemma extend_after_step_returns pw p t l child :
  ready t →
  in_bounds (board t) p = true → is_empty (board t) p = true →
  (∀ pw' p' af' s, ready s → ∃ s', extend_after child pw' p' af' s = Ok s') →
  ∃ t', extend_after_step pw p (l, extend_after child) t = Ok t'.
Proof.
  intros Hready Hin Hempty IH. unfold extend_after_step.
  case_bool_decide as Hrack; [|by eexists].
  destruct Hready as (Hsub & table & Htable & Hentries).
  destruct (Hentries p Hin Hempty) as [legal Hlegal].
  unfold table_at. rewrite Htable, Hlegal. simpl.
  case_bool_decide as Hl; [|by eexists].
  destruct (list_remove_elem l (rack t) Hrack) as [rack' Hrem].
  rewrite Hrem. simpl.
  destruct (IH (pw ++ [l]) (after (direction t) p) true (set_rack t rack'))
    as [t2 ->]; [|simpl; by eexists].
  apply (ready_remove t l); [|done]. split; [done|by exists table].
Qed.

Lemma extend_after_returns node :
  ∀ pw p af st, ready st → ∃ st', extend_after node pw p af st = Ok st'.
Proof.
  induction node as [isw cs IH] using LetterTreeNode_children_ind.
  intros pw p af st Hready. simpl.
  assert (∃ st1,
            (if negb (is_filled (board st) p) && isw && af
             then legal_move pw (before (direction st) p) st
             else Ok st) = Ok st1) as [st1 Hrec].
  { destruct (negb (is_filled (board st) p) && isw && af); [|by eexists].
    apply legal_move_returns, Hready. }
  rewrite Hrec. simpl.
  pose proof (extend_after_record_sound _ cs _ _ _ _ _ Hrec) as Hst1.
  pose proof Hst1 as (new1 & Hgrow1 & _).
  pose proof (ready_grows _ _ _ Hready Hgrow1) as Hready1.
  destruct Hgrow1 as ((_ & Hb & _ & _ & Hd) & _ & _).
  rewrite Hb, Hd.
  destruct (in_bounds (board st) p) eqn:Hin; [|by eexists].
  rewrite Forall_forall in IH.
  destruct (is_empty (board st) p) eqn:Hempty.
  - rewrite for_each_map.
    destruct (for_each_returns (extend_after_post (Node isw cs) pw p af st)
                cs (λ kc, extend_after_step pw p (kc.1, extend_after kc.2))
                st1) as (st' & Hst' & _); [done| |by exists st'].
    intros [l child] t Hl (new & Hgrow & Hnew). simpl.
    pose proof (ready_grows _ _ _ Hready Hgrow) as Hreadyt.
    pose proof Hgrow as ((_ & Hbt & _ & _ & _) & _ & _).
    destruct (extend_after_step_returns pw p t l child) as [t' Ht'];
      [done|by rewrite Hbt..|by apply (IH (l, child))|].
    exists t'. split; [done|].
    eapply (extend_after_step_sound (Node isw cs)); [|exact Hl|done..| |exact Ht'].
    + intros pw' p' af' s s'. apply extend_after_sound.
    + by exists new.
  - destruct (get_tile (board st) p) as [l|]; [|by eexists].
    rewrite child_of_map.
    destruct (child_of l cs) as [child|] eqn:Hchild; simpl; [|by eexists].
    apply (IH (l, child)); [by apply child_of_Some_elem|done].
Qed.

Lemma before_part_step_returns pw anchor limit t l child :
  ready t →
  (∀ pw' limit' s, ready s → ∃ s', before_part child pw' anchor limit' s = Ok s') →
  ∃ t', before_part_step pw anchor limit (l, before_part child) t = Ok t'.
Proof.
  intros Hready IH. unfold before_part_step.
  case_bool_decide as Hrack; [|by eexists].
  destruct (list_remove_elem l (rack t) Hrack) as [rack' Hrem].
  rewrite Hrem. simpl.
  destruct (IH (pw ++ [l]) (limit - 1)%nat (set_rack t rack')) as [t2 ->];
    [by apply (ready_remove t l)|simpl; by eexists].
Qed.

Lemma before_part_returns node :
  ∀ pw anchor limit st,
    ready st → ∃ st', before_part node pw anchor limit st = Ok st'.
Proof.
  induction node as [isw cs IH] using LetterTreeNode_children_ind.
  intros pw anchor limit st Hready. rewrite before_part_eq.
  destruct (extend_after_returns (Node isw cs) pw anchor false st Hready)
    as [st1 Hext].
  rewrite Hext. simpl.
  apply extend_after_sound in Hext as (new1 & Hgrow1 & Hnew1).
  destruct (0 <? limit)%nat eqn:Hlimit; [|by eexists].
  apply Nat.ltb_lt in Hlimit. rewrite for_each_map.
  rewrite Forall_forall in IH.
  destruct (for_each_returns
              (before_part_post (Node isw cs) pw anchor limit st)
              cs (λ kc, before_part_step pw anchor limit
                          (kc.1, before_part kc.2))
              st1) as (st' & Hst' & _); [| |by exists st'].
  - exists new1. split; [done|].
    eapply Forall_impl; [exact Hnew1|]. intros m. apply part_move_here.
  - intros [l child] t Hl (new & Hgrow & Hnew). simpl.
    pose proof (ready_grows _ _ _ Hready Hgrow) as Hreadyt.
    destruct (before_part_step_returns pw anchor limit t l child) as [t' Ht'];
      [done|intros pw' limit'; by apply (IH (l, child))|].
    exists t'. split; [done|].
    eapply (before_part_step_sound (Node isw cs));
      [|exact Hl|done| |exact Ht'].
    + intros pw' limit' s s'. apply before_part_sound.
    + by exists new.
Qed.

Lemma search_anchor_returns anchors anchor st :
  board_ok (board st) → ready st →
  ∃ st', search_anchor anchors anchor st = Ok st'.
Proof.
  intros Hok Hready. unfold search_anchor.
  destruct (is_filled (board st) (before (direction st) anchor)) eqn:Hfill.
  - destruct (filled_tile _ Hok _ Hfill) as [first ->]. simpl.
    destruct (scan_filled_returns (board st) (before (direction st)) prepend
                (before (direction st) anchor) [first]) as [pw ->];
      [done|apply is_line_before|]. simpl.
    destruct (lookup (dictionary st) pw); [|by eexists].
    by apply extend_after_returns.
  - destruct (count_limit_returns (board st) (direction st) anchors anchor
                0%nat Hok) as [limit ->]. simpl.
    by apply before_part_returns.
Qed.

Lemma search_direction_returns dir st :
  board_ok (board st) → rack st ⊆+ reference_rack st →
  ∃ st', search_direction dir st = Ok st'.
Proof.
  intros Hok Hsub. unfold search_direction.
  destruct (cross_check_returns (set_direction st (Some dir)) Hok)
    as [table Htable].
  rewrite Htable. simpl.
  set (sd' := set_cross_check_results (set_direction st (Some dir)) (Some table)).
  assert (ready sd') as Hready.
  { split; [done|]. exists table. split; [done|].
    by apply (cross_check_ready (set_direction st (Some dir))). }
  destruct (for_each_returns (λ t, ∃ new, grows sd' t new)
              (find_anchors (set_direction st (Some dir)))
              (search_anchor (find_anchors (set_direction st (Some dir))))
              sd') as (st' & Hst' & _); [| |by exists st'].
  - exists []. apply grows_refl.
  - intros anchor t _ (new & Hgrow).
    pose proof (ready_grows _ _ _ Hready Hgrow) as Hreadyt.
    pose proof Hgrow as ((_ & Hbt & _ & _ & _) & _ & _).
    destruct (search_anchor_returns
                (find_anchors (set_direction st (Some dir))) anchor t)
      as [t' Ht']; [by rewrite Hbt|done|].
    exists t'. split; [done|].
    apply search_anchor_sound in Ht' as (new2 & Hgrow2 & _).
    exists (new ++ new2). by eapply grows_trans.
Qed.

Lemma find_all_options_returns st :
  board_ok (board st) → rack st ⊆+ reference_rack st →
  ∃ st', find_all_options st = Ok st'.
Proof.
  intros Hok Hsub. unfold find_all_options.
  destruct (for_each_returns (λ t, outer_frame st t ∧ rack t ≡ₚ rack st)
              [across; down] search_direction st) as (st' & Hst' & _);
    [done| |by exists st'].
  intros dir t _ ((Hdict & Hb & Href) & Hr).
  destruct (search_direction_returns dir t) as [t' Ht'];
    [by rewrite Hb|by rewrite Hr, Href|].
  exists t'. split; [done|].
  apply search_direction_sound in Ht'
    as (new & table & (Hdict' & Hb' & Href') & _ & Hr' & _).
  unfold outer_frame. rewrite Hr'. split_and!; congruence.
Qed.

(** ** The sample board keeps the contract *)

Lemma grid_positions_elem (size : Z) (p : pos) :
  p ∈ grid_positions size ↔ grid_in_bounds size p = true.
Proof.
  unfold grid_positions, grid_in_bounds. rewrite bool_decide_eq_true.
  destruct p as [row col]. simpl. rewrite list_elem_of_bind. split.
  - intros (r & (c & Hp & Hc)%list_elem_of_bind & Hr).
    apply list_elem_of_singleton in Hp as [= -> ->].
    apply elem_of_seqZ in Hr, Hc. lia.
  - intros [Hr Hc]. exists row. split; [|apply elem_of_seqZ; lia].
    apply list_elem_of_bind. exists col. split; [by left|].
    apply elem_of_seqZ. lia.
Qed.

Lemma grid_board_ok size tiles score : board_ok (grid_board size tiles score).
Proof.
  split; simpl.
  - apply grid_positions_elem.
  - by intros p [? _]%andb_prop.
  - intros p. destruct (grid_in_bounds size p); simpl; [|intuition congruence].
    destruct (tiles !! p); simpl; intuition congruence.
  - intros p [Hin Ht%bool_decide_eq_true]%andb_prop. by rewrite Hin.
Qed.

(** ** Facts about paths *)

Section path_facts.
Context (b : Board) (d : option Direction)
        (table : option (gmap pos (list letter))).

(** A path ends as many squares after its first square as it has
    letters. *)
Lemma forward_end n p r w n' p' r' :
  forward b d table n p r w n' p' r' →
  p' = along d (Z.of_nat (length w)) p.
Proof.
  induction 1 as [n p r r' _|n p r l child t legal r1 w n' p' r'
                              _ _ _ _ _ _ _ _ IH|
                  n p r l child w n' p' r' _ _ _ _ _ IH].
  - by rewrite along_0.
  - rewrite IH, after_along, along_along. f_equal. simpl length. lia.
  - rewrite IH, after_along, along_along. f_equal. simpl length. lia.
Qed.

(** With unique keys a path spells its word in the trie. *)
Lemma forward_lookup n p r w n' p' r' :
  unique_keys n = true →
  forward b d table n p r w n' p' r' →
  lookup_from n w = Some n'.
Proof.
  intros Hkeys Hfwd.
  induction Hfwd as [n p r r' _|n p r l child t legal r1 w n' p' r'
                                _ _ Hchild _ _ _ _ _ IH|
                     n p r l child w n' p' r' _ _ _ Hchild _ IH]; [done|..];
    destruct n as [isw cs]; apply unique_keys_Node in Hkeys as [Hnd Hcs];
    simpl in *.
  - rewrite (child_of_unique l cs child) by done. by apply IH, (Hcs l).
  - rewrite Hchild. apply IH, (Hcs l). by apply child_of_Some_elem.
Qed.

(** A letter of a path that lies on an empty square is in the table's
    entry for the square. *)
Lemma forward_squares n p r w n' p' r' (i : nat) (l : letter) :
  forward b d table n p r w n' p' r' →
  w !! i = Some l →
  is_empty b (along d (Z.of_nat i) p) = true →
  ∃ t legal,
    table = Some t ∧ t !! along d (Z.of_nat i) p = Some legal ∧ l ∈ legal.
Proof.
  intros Hfwd. revert i.
  induction Hfwd as [n p r r' _|n p r l0 child t legal r1 w n' p' r'
                                _ _ _ Ht Hp Hl _ _ IH|
                     n p r l0 child w n' p' r' _ Hfull _ _ _ IH];
    intros i Hi Hempty; [done|..]; destruct i as [|i]; simpl in Hi.
  - injection Hi as <-. rewrite along_0. by exists t, legal.
  - destruct (IH i Hi) as (t' & legal' & ? & Hentry & ?).
    { rewrite after_along, along_along.
      by replace (1 + Z.of_nat i) with (Z.of_nat (S i)) by lia. }
    exists t', legal'. split_and!; [done| |done].
    rewrite after_along, along_along in Hentry.
    by replace (1 + Z.of_nat i) with (Z.of_nat (S i)) in Hentry by lia.
  - rewrite along_0 in Hempty. congruence.
  - destruct (IH i Hi) as (t' & legal' & ? & Hentry & ?).
    { rewrite after_along, along_along.
      by replace (1 + Z.of_nat i) with (Z.of_nat (S i)) by lia. }
    exists t', legal'. split_and!; [done| |done].
    rewrite after_along, along_along in Hentry.
    by replace (1 + Z.of_nat i) with (Z.of_nat (S i)) in Hentry by lia.
Qed.

Lemma prefix_path_rack n r pre n' r' :
  prefix_path n r pre n' r' → r ≡ₚ pre ++ r'.
Proof.
  induction 1 as [n r r' Hr|n r l child r1 pre n' r' _ Hr _ IH]; [done|].
  by rewrite Hr, IH.
Qed.

Lemma prefix_path_lookup n r pre n' r' :
  unique_keys n = true →
  prefix_path n r pre n' r' →
  lookup_from n pre = Some n' ∧ unique_keys n' = true.
Proof.
  intros Hkeys Hpath.
  induction Hpath as [n r r' _|n r l child r1 pre n' r' Hchild _ _ IH];
    [done|].
  destruct n as [isw cs]; apply unique_keys_Node in Hkeys as [Hnd Hcs].
  simpl in *. rewrite (child_of_unique l cs child) by done.
  by apply IH, (Hcs l).
Qed.

(** The tiles of a run sit on filled squares. *)
Lemma run_filled (p : pos) (ts : list letter) (j : nat) :
  run b (before d) p ts →
  (0 < j ≤ length ts)%nat →
  is_filled b (along d (- Z.of_nat j) p) = true.
Proof.
  intros Hrun. revert j.
  induction Hrun as [p _|p t ts Hfill _ _ IH]; intros j Hj; simpl in Hj;
    [lia|].
  destruct (decide (j = 1%nat)) as [->|Hne]; [by rewrite <- before_along|].
  specialize (IH (j - 1)%nat). rewrite before_along, along_along in IH.
  replace (-1 + - Z.of_nat (j - 1)) with (- Z.of_nat j) in IH by lia.
  apply IH. lia.
Qed.
End path_facts.

(** ** Facts about recorded moves *)

Lemma square_along (m : Move) (k : nat) :
  square m k = along (move_direction m) (Z.of_nat k) (move_start m).
Proof. apply iter_after. Qed.

Lemma recorded_fields b d ref w p' r' m :
  recorded b d ref w p' r' m →
  move_word m = w ∧ move_direction m = d ∧
  move_start m = along d (- Z.of_nat (length w)) p' ∧
  move_score m = calculate_score b w (move_start m) d r' ∧
  ref ≡ₚ r' ++ move_used m.
Proof.
  intros (used & Hused%list_remove_all_Some & ->). simpl.
  by rewrite start_of_along.
Qed.

(** A move of [extend_after] started at [p] without the anchor flag: the word
    goes on after [pw], which ends just before [p]. *)
Lemma extension_move_start b d table ref node pw p r m :
  extension_move b d table ref node pw p false r m →
  ∃ w, w ≠ [] ∧ move_word m = pw ++ w ∧ move_direction m = d ∧
       move_start m = along d (- Z.of_nat (length pw)) p.
Proof.
  intros (w & n' & p' & r' & Hfwd & [[=]|Hw] & _ & _ & Hrec).
  apply recorded_fields in Hrec as (-> & -> & -> & _).
  apply forward_end in Hfwd as ->.
  exists w. split_and!; [done..|].
  rewrite along_along, length_app. f_equal. lia.
Qed.

Lemma extension_move_recorded b d table ref node pw p af r m :
  extension_move b d table ref node pw p af r m →
  ∃ w p' r', recorded b d ref w p' r' m.
Proof. intros (w & n' & p' & r' & _ & _ & _ & _ & Hrec). eauto. Qed.

Lemma anchor_move_recorded b dict d table anchors ref r anchor m :
  anchor_move b dict d table anchors ref r anchor m →
  ∃ w p' r', recorded b d ref w p' r' m.
Proof.
  intros [(_ & ts & node & _ & _ & Hm)
         |(_ & limit & _ & pre & n1 & r1 & _ & _ & Hm)];
    by eapply extension_move_recorded.
Qed.

(** A move of the search from an anchor starts before the anchor or on it and
    reaches it. *)
Lemma anchor_move_start b dict d table anchors ref r anchor m :
  anchor_move b dict d table anchors ref r anchor m →
  ∃ pw w, w ≠ [] ∧ move_word m = pw ++ w ∧ move_direction m = d ∧
          move_start m = along d (- Z.of_nat (length pw)) anchor.
Proof.
  intros [(_ & ts & node & _ & _ & Hm)
         |(_ & limit & _ & pre & n1 & r1 & _ & _ & Hm)];
    apply extension_move_start in Hm as (w & ? & ? & ? & ?);
    [by exists (rev ts), w|by exists pre, w].
Qed.

(** The moves found from the initial state are moves of a pass. *)
Lemma found_moves_init dict b rack0 st' m :
  find_all_options (init dict b rack0) = Ok st' →
  m ∈ found_moves st' →
  ∃ dir, pass_move (init dict b rack0) dir m.
Proof.
  intros (new & _ & Hmoves & _ & Hnew)%find_all_options_sound Hm.
  simpl in Hmoves. rewrite Hmoves in Hm. rewrite Forall_forall in Hnew.
  by apply Hnew.
Qed.

(** ** A board without tiles *)

Lemma find_anchors_unfilled (st : SolveState) :
  (∀ p, is_filled (board st) p = false) → find_anchors st = [].
Proof.
  intros Hnone. unfold find_anchors. rewrite foldl_append_filter. simpl.
  induction (all_positions (board st)) as [|p ps IH]; simpl; [done|].
  unfold neighbor_filled at 1. by rewrite !Hnone, andb_false_r.
Qed.

Lemma scan_filled_unfilled b step add fuel p acc :
  (∀ q, is_filled b q = false) → scan_filled b step add fuel p acc = Ok acc.
Proof. intros Hnone. destruct fuel; simpl; by rewrite Hnone. Qed.

Lemma cross_check_unfilled (st : SolveState) :
  (∀ p, is_filled (board st) p = false) → ∃ table, cross_check st = Ok table.
Proof.
  intros Hnone. unfold cross_check. apply for_each_total.
  intros p t _. rewrite Hnone. unfold legal_here_at.
  rewrite !scan_filled_unfilled by done. by eexists.
Qed.

Lemma search_direction_unfilled (dir : Direction) (st : SolveState) :
  (∀ p, is_filled (board st) p = false) →
  ∃ table,
    search_direction dir st
    = Ok (set_cross_check_results (set_direction st (Some dir)) (Some table)).
Proof.
  intros Hnone. unfold search_direction.
  destruct (cross_check_unfilled (set_direction st (Some dir)) Hnone)
    as [table ->].
  exists table. simpl. by rewrite find_anchors_unfilled.
Qed.

(** ** The sample run *)

Lemma moves_of_Ok (st st' : SolveState) :
  find_all_options st = Ok st' →
  found_moves st' = moves_of (find_all_options st) ∧
  rack st' = rack_of (find_all_options st).
Proof. by intros ->. Qed.

Lemma cat_run :
  moves_of (find_all_options cat_state) = [cat_across; cat_down] ∧
  rack_of (find_all_options cat_state) = W "ta".
Proof. split; vm_compute; reflexivity. Qed.

Example alphabet_26 : length alphabet = 26%nat ∧ NoDup alphabet.
Proof.
  split; [reflexivity|].
  apply (bool_decide_unpack (NoDup alphabet)). vm_compute. exact I.
Qed.

(** The words that go through or next to [a, t]: a letter before the tiles, a
    letter before and one after, and a word across them. *)
Example cats_run :
  moves_of (find_all_options (init cats_lexicon at_board (W "cs")))
  = [mkMove (W "cat") (2, 0) (Some across) (W "c") 1;
     mkMove (W "cats") (2, 0) (Some across) (W "cs") 0;
     mkMove (W "sat") (2, 0) (Some across) (W "s") 1;
     mkMove (W "as") (2, 1) (Some down) (W "s") 1].
Proof. vm_compute. reflexivity. Qed.

(** A token that is no letter stays on the rack and changes nothing. *)
Example digit_run :
  moves_of (find_all_options (init cat_lexicon one_tile_board (W "1at")))
  = [mkMove (W "cat") (2, 2) (Some across) (W "at") 1;
     mkMove (W "cat") (2, 2) (Some down) (W "at") 1].
Proof. vm_compute. reflexivity. Qed.

Lemma cat_returns : ∃ st', find_all_options cat_state = Ok st'.
Proof. apply find_all_options_returns; [apply grid_board_ok|done]. Qed.

(** ** Anatomy of a move *)

(** A move of the search from an anchor is a word [pw ++ w]: [w] is a path of
    [extend_after] from the anchor, and the squares of [pw], before the
    anchor, are either all filled (their tiles spell [pw]) or all empty and
    no anchors (the letters of [pw] come from the rack). *)
Lemma anchor_move_anatomy b dict d table anchors ref r anchor m :
  anchor_move b dict d table anchors ref r anchor m →
  ∃ pw w node r1 n' p' r',
    move_word m = pw ++ w ∧
    move_direction m = d ∧
    move_start m = along d (- Z.of_nat (length pw)) anchor ∧
    w ≠ [] ∧
    forward b d table node anchor r1 w n' p' r' ∧
    is_word n' = true ∧
    (unique_keys (root dict) = true →
     lookup dict pw = Some node ∧ unique_keys node = true) ∧
    ((∀ i : nat, (0 < i ≤ length pw)%nat →
        is_filled b (along d (- Z.of_nat i) anchor) = true)
     ∨
     (pw ⊆+ r ∧
      ∀ i : nat, (0 < i ≤ length pw)%nat →
        is_empty b (along d (- Z.of_nat i) anchor) = true ∧
        along d (- Z.of_nat i) anchor ∉ anchors)).
Proof.
  intros [(_ & ts & node & Hrun & Hnode & Hm)
         |(_ & limit & Hlimit & pre & n1 & r1 & Hpath & Hlen & Hm)].
  - pose proof (extension_move_start _ _ _ _ _ _ _ _ _ Hm)
      as (w' & _ & Hword & Hdir & Hstart).
    destruct Hm as (w & n' & p' & r' & Hfwd & [[=]|Hw] & Hisw & _ & Hrec).
    apply recorded_fields in Hrec as (Hword' & _).
    rewrite Hword' in Hword. apply app_inv_head in Hword as <-.
    exists (rev ts), w, node, r, n', p', r'.
    split_and!; [done..| |].
    + intros Hkeys. split; [done|]. by eapply lookup_from_unique_keys.
    + left. intros i Hi. rewrite length_rev in Hi. by eapply run_filled.
  - pose proof (extension_move_start _ _ _ _ _ _ _ _ _ Hm)
      as (w' & _ & Hword & Hdir & Hstart).
    destruct Hm as (w & n' & p' & r' & Hfwd & [[=]|Hw] & Hisw & _ & Hrec).
    apply recorded_fields in Hrec as (Hword' & _).
    rewrite Hword' in Hword. apply app_inv_head in Hword as <-.
    exists pre, w, n1, r1, n', p', r'.
    split_and!; [done..| |].
    + intros Hkeys. by eapply prefix_path_lookup.
    + right. split.
      * apply prefix_path_rack in Hpath. rewrite Hpath.
        by apply submseteq_inserts_r.
      * intros i Hi. apply Hlimit. lia.
Qed.

Lemma find_anchors_elem (st : SolveState) (p : pos) :
  p ∈ find_anchors st ↔
  p ∈ all_positions (board st) ∧
  is_empty (board st) p = true ∧
  neighbor_filled (board st) (direction st) p = true.
Proof.
  unfold find_anchors. rewrite foldl_append_filter. simpl.
  by rewrite list_elem_of_In, filter_In, <- list_elem_of_In, andb_true_iff.
Qed.

(** An empty position that is no anchor has no tile next to it, so its entry
    in the table is the whole alphabet. *)
Lemma unanchored_entry (st : SolveState) (table : gmap pos (list letter))
    (p : pos) :
  board_ok (board st) →
  cross_check st = Ok table →
  is_empty (board st) p = true →
  p ∉ find_anchors st →
  table !! p = Some alphabet.
Proof.
  intros Hok Htable Hempty Hanchor.
  assert (neighbor_filled (board st) (direction st) p = false) as Hnone.
  { destruct (neighbor_filled (board st) (direction st) p) eqn:Hn; [|done].
    exfalso. apply Hanchor, find_anchors_elem.
    split_and!; [by apply empty_position|done..]. }
  unfold neighbor_filled in Hnone.
  apply orb_false_elim in Hnone as [Hnone Ha].
  apply orb_false_elim in Hnone as [_ Hb].
  destruct (cross_check_Ok st table p Htable)
    as [(_ & _ & rb & ra & Hrb & Hra & ->)|[[Hp|Hp] _]].
  - rewrite (run_functional _ _ _ _ [] Hrb) by by constructor.
    by rewrite (run_functional _ _ _ _ [] Hra) by by constructor.
  - exfalso. by apply Hp, empty_position.
  - apply empty_not_filled in Hempty; [congruence|done].
Qed.

(** The square of the [k]-th letter of a word that starts [n] squares before
    the anchor. *)
Lemma square_from_anchor (m : Move) (d : option Direction) (anchor : pos)
    (n k : nat) :
  move_direction m = d →
  move_start m = along d (- Z.of_nat n) anchor →
  square m k = along d (Z.of_nat k - Z.of_nat n) anchor.
Proof.
  intros Hd Hstart. rewrite square_along, Hd, Hstart, along_along.
  f_equal. lia.
Qed.

(** * The claims *)

(** C1 — rack conservation.  On a board that keeps its contract
    [find_all_options] returns; whenever it returns, the working rack holds
    the letters of the input rack, each as often as before, and the letters
    used by every move found are a sub-multiset of the input rack. *)
Theorem rack_conservation (dict : LetterTree) (b : Board) (rack0 : list letter) :
  (board_ok b → ∃ st', find_all_options (init dict b rack0) = Ok st') ∧
  ∀ st', find_all_options (init dict b rack0) = Ok st' →
    rack st' ≡ₚ rack0 ∧
    ∀ m, m ∈ found_moves st' → move_used m ⊆+ rack0.
Proof.
  split.
  - intros Hok. by apply find_all_options_returns.
  - intros st' Hrun. split.
    + by apply find_all_options_sound in Hrun as (new & _ & _ & Hr & _).
    + intros m Hm.
      destruct (found_moves_init _ _ _ _ _ Hrun Hm)
        as (dir & table & anchor & _ & _ & Hmove).
      apply anchor_move_recorded in Hmove as (w & p' & r' & Hrec).
      apply recorded_fields in Hrec as (_ & _ & _ & _ & Hused).
      simpl in Hused. rewrite Hused. apply submseteq_inserts_l. done.
Qed.

Lemma rack_conservation_witness :
  ∃ st',
    find_all_options (init cat_lexicon one_tile_board (W "at")) = Ok st' ∧
    rack st' ≡ₚ W "at" ∧
    ∀ m, m ∈ found_moves st' → move_used m ⊆+ W "at".
Proof.
  destruct (rack_conservation cat_lexicon one_tile_board (W "at"))
    as [Hreturns Hpost].
  destruct (Hreturns (grid_board_ok _ _ _)) as [st' Hst'].
  exists st'. split; [exact Hst'|]. apply Hpost, Hst'.
Defined.

(** C2 — cross-check correctness.  On a board that keeps its contract
    [cross_check] returns a table in which a filled position has no entry and
    an empty position [p] has the entry determined by the runs of tiles
    across the play direction: with [rb] the run before [p] (nearest tile
    first) and [ra] the run after it, the entry is the whole alphabet when
    both runs are empty, and otherwise holds exactly the letters [l] of the
    alphabet for which [rev rb ++ [l] ++ ra] is a dictionary word. *)
Theorem cross_check_correct (st : SolveState) :
  board_ok (board st) →
  ∃ table,
    cross_check st = Ok table ∧
    ∀ p,
      (is_filled (board st) p = true → table !! p = None) ∧
      (is_empty (board st) p = true →
       ∃ rb ra legal,
         run (board st) (before_cross (direction st)) p rb ∧
         run (board st) (after_cross (direction st)) p ra ∧
         table !! p = Some legal ∧
         (rb = [] ∧ ra = [] → legal = alphabet) ∧
         (rb ≠ [] ∨ ra ≠ [] →
          ∀ l, l ∈ legal ↔
               l ∈ alphabet ∧
               dict_is_word (dictionary st) (rev rb ++ [l] ++ ra) = true)).
Proof.
  intros Hok. destruct (cross_check_returns st Hok) as [table Htable].
  exists table. split; [done|]. intros p.
  destruct (cross_check_Ok st table p Htable)
    as [(Hp & Hfill & rb & ra & Hrb & Hra & Hentry)|[Hp Hentry]].
  - split; [congruence|]. intros _.
    exists rb, ra, (legal_set (dictionary st) rb ra).
    split_and!; [exact Hrb|exact Hra|exact Hentry| |].
    + intros [-> ->]. apply legal_set_nil.
    + intros Hruns l. by apply legal_set_elem.
  - split; [done|]. intros Hempty. exfalso. destruct Hp as [Hp|Hp].
    + by apply Hp, empty_position.
    + apply empty_not_filled in Hempty; [congruence|done].
Qed.

Lemma cross_check_correct_witness :
  ∃ table,
    cross_check (set_direction (init cat_lexicon one_tile_board (W "at"))
                               (Some across)) = Ok table ∧
    table !! (2, 2) = None ∧
    ∃ legal, table !! (1, 2) = Some legal ∧ ("a"%char ∈ legal ↔ False).
Proof.
  destruct (cross_check_correct
              (set_direction (init cat_lexicon one_tile_board (W "at"))
                             (Some across)) (grid_board_ok _ _ _))
    as (table & Htable & Hentries).
  exists table. split; [exact Htable|].
  destruct (Hentries (2, 2)) as [Hfilled _].
  destruct (Hentries (1, 2)) as [_ Hempty].
  split; [by apply Hfilled|].
  destruct (Hempty eq_refl) as (rb & ra & legal & Hrb & Hra & Hentry & _ & Hl).
  exists legal. split; [exact Hentry|].
  assert (rb = []) as ->.
  { apply (run_functional _ _ _ _ _ Hrb). by constructor. }
  assert (ra = ["c"%char]) as ->.
  { apply (run_functional _ _ _ _ _ Hra).
    apply run_more; [done..|]. by constructor. }
  rewrite Hl by by right. split; [|done].
  intros [_ Hword]. vm_compute in Hword. discriminate Hword.
Defined.






(** C4 — anchor characterization.  On a board that keeps its contract a
    position is returned by [find_anchors] exactly when it is empty and one
    of its four neighbours, taken relative to the current direction, is
    filled; a filled position is never returned. *)
Theorem anchor_characterization (st : SolveState) (p : pos) :
  board_ok (board st) →
  (p ∈ find_anchors st ↔
   is_empty (board st) p = true ∧
   (is_filled (board st) (before (direction st) p) = true ∨
    is_filled (board st) (after (direction st) p) = true ∨
    is_filled (board st) (before_cross (direction st) p) = true ∨
    is_filled (board st) (after_cross (direction st) p) = true)) ∧
  (is_filled (board st) p = true → p ∉ find_anchors st).
Proof.
  intros Hok.
  assert (p ∈ find_anchors st ↔
          is_empty (board st) p = true ∧
          neighbor_filled (board st) (direction st) p = true) as Hiff.
  { rewrite find_anchors_elem. split; [by intros [_ ?]|]. intros [Hempty ?].
    split; [by apply empty_position|done]. }
  split.
  - rewrite Hiff. unfold neighbor_filled. rewrite !orb_true_iff. tauto.
  - intros Hfill [Hempty _]%Hiff.
    apply empty_not_filled in Hempty; [congruence|done].
Qed.

Lemma anchor_characterization_witness :
  (1, 2) ∈ find_anchors (set_direction (init cat_lexicon one_tile_board (W "at"))
                                       (Some across)) ∧
  (2, 2) ∉ find_anchors (set_direction (init cat_lexicon one_tile_board (W "at"))
                                       (Some across)).
Proof.
  split.
  - apply anchor_characterization; [apply grid_board_ok|].
    split; [reflexivity|]. right. right. right. reflexivity.
  - apply anchor_characterization; [apply grid_board_ok|reflexivity].
Defined.

(** C5 as stated fails: on the sample board, whose score is the size of the
    rack it is given, the move [cat] is scored 0, not 2. *)
Lemma score_argument_counterexample :
  ¬ scored_with_input_rack cat_lexicon one_tile_board (W "at").
Proof.
  intros Hclaim. destruct cat_returns as [st' Hst'].
  specialize (Hclaim st' cat_across Hst').
  destruct (moves_of_Ok _ _ Hst') as [Hmoves _].
  rewrite Hmoves, (proj1 cat_run) in Hclaim.
  specialize (Hclaim ltac:(by left)). vm_compute in Hclaim.
  discriminate Hclaim.
Qed.

(** C5 (amended) — score argument.  For every move found, the rack passed to
    [calculate_score] is the working rack at the time the move is recorded:
    some list [r] that together with the letters the move used makes up the
    input rack. *)
Theorem score_argument (dict : LetterTree) (b : Board) (rack0 : list letter)
    (st' : SolveState) (m : Move) :
  find_all_options (init dict b rack0) = Ok st' →
  m ∈ found_moves st' →
  ∃ r,
    move_score m
    = calculate_score b (move_word m) (move_start m) (move_direction m) r ∧
    rack0 ≡ₚ r ++ move_used m.
Proof.
  intros Hrun Hm.
  destruct (found_moves_init _ _ _ _ _ Hrun Hm)
    as (dir & table & anchor & _ & _ & Hmove).
  apply anchor_move_recorded in Hmove as (w & p' & r' & Hrec).
  apply recorded_fields in Hrec as (-> & -> & _ & Hscore & Hused).
  by exists r'.
Qed.

Lemma score_argument_witness :
  ∃ r,
    move_score cat_across
    = calculate_score one_tile_board (move_word cat_across)
        (move_start cat_across) (move_direction cat_across) r ∧
    W "at" ≡ₚ r ++ move_used cat_across.
Proof.
  destruct cat_returns as [st' Hst'].
  apply (score_argument cat_lexicon one_tile_board (W "at") st' cat_across);
    [exact Hst'|].
  destruct (moves_of_Ok _ _ Hst') as [-> _].
  destruct cat_run as [-> _]. by left.
Defined.

(** C6 — empty board.  When no position of the board is filled,
    [find_anchors] returns no position in either direction, and
    [find_all_options] returns with [found_moves] still empty, whatever the
    rack and the dictionary. *)
Theorem empty_board_no_moves (dict : LetterTree) (b : Board)
    (rack0 : list letter) :
  (∀ p, is_filled b p = false) →
  (∀ dir, find_anchors (set_direction (init dict b rack0) (Some dir)) = []) ∧
  ∃ st', find_all_options (init dict b rack0) = Ok st' ∧ found_moves st' = [].
Proof.
  intros Hnone. split.
  - intros dir. by apply find_anchors_unfilled.
  - unfold find_all_options. simpl for_each.
    destruct (search_direction_unfilled across (init dict b rack0) Hnone)
      as [table1 ->].
    simpl mbind.
    destruct (search_direction_unfilled down
                (set_cross_check_results
                   (set_direction (init dict b rack0) (Some across))
                   (Some table1)) Hnone) as [table2 ->].
    by eexists.
Qed.

Lemma empty_board_no_moves_witness :
  ∃ st',
    find_all_options (init cat_lexicon (grid_board 3 ∅ rack_size_score)
                           (W "cat")) = Ok st' ∧
    found_moves st' = [].
Proof.
  apply (empty_board_no_moves cat_lexicon (grid_board 3 ∅ rack_size_score)
                              (W "cat")).
  intros p. simpl. rewrite lookup_empty. apply andb_false_r.
Defined.

(** C7 as stated fails: the rack [1, a, t] is searched like any other. *)
Lemma malformed_rack_counterexample :
  ¬ rejects_malformed cat_lexicon one_tile_board (W "1at").
Proof.
  intros Hclaim. destruct Hclaim as [e He].
  - exists "1"%char. split; [by left|].
    intros Hin. apply list_elem_of_In in Hin. vm_compute in Hin.
    repeat (destruct Hin as [Hin|Hin]; [discriminate Hin|]). done.
  - vm_compute in He. discriminate He.
Qed.

(** C7 (amended) — no rack is rejected.  Construction keeps any rack as it is
    given, also one with a token outside the alphabet, and on a board that
    keeps its contract [find_all_options] searches with it and returns
    normally. *)
Theorem malformed_rack_accepted (dict : LetterTree) (b : Board)
    (rack0 : list letter) :
  board_ok b →
  rack (init dict b rack0) = rack0 ∧
  reference_rack (init dict b rack0) = rack0 ∧
  ∃ st', find_all_options (init dict b rack0) = Ok st'.
Proof.
  intros Hok. split_and!; [done..|]. by apply find_all_options_returns.
Qed.

Lemma malformed_rack_accepted_witness :
  malformed (W "1at") ∧
  ∃ st', find_all_options (init cat_lexicon one_tile_board (W "1at")) = Ok st'.
Proof.
  split.
  - exists "1"%char. split; [by left|].
    intros Hin. apply list_elem_of_In in Hin. vm_compute in Hin.
    repeat (destruct Hin as [Hin|Hin]; [discriminate Hin|]). done.
  - apply (malformed_rack_accepted cat_lexicon one_tile_board (W "1at")).
    apply grid_board_ok.
Defined.

(** C8 — anchor coverage.  Every move found by [find_all_options] has, among
    the squares of its word, an anchor of the pass in the move's
    direction. *)
Theorem anchor_coverage (dict : LetterTree) (b : Board) (rack0 : list letter)
    (st' : SolveState) (m : Move) :
  find_all_options (init dict b rack0) = Ok st' →
  m ∈ found_moves st' →
  ∃ dir anchor k,
    move_direction m = Some dir ∧
    anchor ∈ find_anchors (set_direction (init dict b rack0) (Some dir)) ∧
    (k < length (move_word m))%nat ∧
    square m k = anchor.
Proof.
  intros Hrun Hm.
  destruct (found_moves_init _ _ _ _ _ Hrun Hm)
    as (dir & table & anchor & _ & Hanchor & Hmove).
  apply anchor_move_start in Hmove as (pw & w & Hw & Hword & Hdir & Hstart).
  exists dir, anchor, (length pw). split_and!; [done..| |].
  - rewrite Hword, length_app. destruct w; [done|simpl; lia].
  - rewrite square_along, Hdir, Hstart, along_along.
    replace (- Z.of_nat (length pw) + Z.of_nat (length pw)) with 0 by lia.
    apply along_0.
Qed.

Lemma anchor_coverage_witness :
  ∃ dir anchor k,
    move_direction cat_across = Some dir ∧
    anchor ∈ find_anchors (set_direction cat_state (Some dir)) ∧
    (k < length (move_word cat_across))%nat ∧
    square cat_across k = anchor.
Proof.
  destruct cat_returns as [st' Hst'].
  apply (anchor_coverage cat_lexicon one_tile_board (W "at") st' cat_across);
    [exact Hst'|].
  destruct (moves_of_Ok _ _ Hst') as [-> _].
  destruct cat_run as [-> _]. by left.
Defined.




(** C10 as stated fails: the sample run leaves the rack [a, t] as [t, a]. *)
Lemma frame_counterexample : ¬ changes_three_fields cat_state.
Proof.
  intros Hclaim. destruct cat_returns as [st' Hst'].
  destruct (Hclaim st' Hst') as (_ & _ & _ & Hrack & _).
  destruct (moves_of_Ok _ _ Hst') as [_ Hr].
  rewrite Hr, (proj2 cat_run) in Hrack. discriminate Hrack.
Qed.

(** C10 (amended) — frame.  [find_all_options] leaves the board, the lexicon
    and [reference_rack] as they were; the rack keeps its letters, though not
    their order; and [found_moves] is only appended to, so the moves present
    before the call come first, in their order, after it. *)
Theorem find_all_options_frame (st st' : SolveState) :
  find_all_options st = Ok st' →
  dictionary st' = dictionary st ∧ board st' = board st ∧
  reference_rack st' = reference_rack st ∧
  rack st' ≡ₚ rack st ∧
  ∃ new, found_moves st' = found_moves st ++ new.
Proof.
  intros (new & (Hdict & Hb & Href) & Hmoves & Hr & _)%find_all_options_sound.
  split_and!; [done..|by exists new].
Qed.

Lemma find_all_options_frame_witness :
  ∃ st',
    find_all_options cat_state = Ok st' ∧
    board st' = one_tile_board ∧
    rack st' ≡ₚ W "at" ∧
    ∃ new, found_moves st' = [] ++ new.
Proof.
  destruct cat_returns as [st' Hst'].
  destruct (find_all_options_frame cat_state st' Hst')
    as (_ & Hb & _ & Hr & Hnew).
  exists st'. split_and!; [exact Hst'|exact Hb|exact Hr|exact Hnew].
Defined.

(** * Further properties of the solver *)

(** ** The four grid steps *)

(** X1 — the grid steps undo each other and swap with the direction.
    [after] undoes [before] and [before] undoes [after], likewise across the
    play direction; a step along the play direction commutes with a step
    across it; the play steps of one direction are the cross steps of the
    other; and an unset direction steps like ['down']. *)
Theorem grid_steps (d : option Direction) (p : pos) :
  after d (before d p) = p ∧ before d (after d p) = p ∧
  after_cross d (before_cross d p) = p ∧
  before_cross d (after_cross d p) = p ∧
  after d (after_cross d p) = after_cross d (after d p) ∧
  before (Some across) p = before_cross (Some down) p ∧
  after (Some across) p = after_cross (Some down) p ∧
  before (Some down) p = before_cross (Some across) p ∧
  after (Some down) p = after_cross (Some across) p ∧
  before None p = before (Some down) p ∧
  after None p = after (Some down) p.
Proof.
  destruct p as [row col].
  destruct d as [[]|]; simpl; split_and!; f_equal; lia.
Qed.

(** ** [find_anchors] *)

Lemma neighbor_filled_direction (b : Board) (d1 d2 : option Direction)
    (p : pos) :
  neighbor_filled b d1 p = neighbor_filled b d2 p.
Proof.
  destruct p as [row col]. unfold neighbor_filled.
  destruct d1 as [[]|], d2 as [[]|]; simpl;
    repeat destruct (is_filled b _); reflexivity.
Qed.

(** X2 — the anchors do not depend on the direction.  Whatever the direction
    field holds, [find_anchors] returns the same list: the four neighbours it
    inspects are the same four cells in both passes. *)
Theorem find_anchors_direction (st : SolveState) (d1 d2 : option Direction) :
  find_anchors (set_direction st d1) = find_anchors (set_direction st d2).
Proof.
  unfold find_anchors. rewrite !foldl_append_filter. simpl.
  apply filter_ext. intros p.
  by rewrite (neighbor_filled_direction _ d1 d2).
Qed.

(** X3 — the anchors come in board order.  The list [find_anchors] returns
    is a sublist of [all_positions]: positions appear in the order of the
    board's enumeration, and none appears more often than there. *)
Theorem find_anchors_sublist (st : SolveState) :
  sublist (find_anchors st) (all_positions (board st)).
Proof.
  unfold find_anchors. rewrite foldl_append_filter. simpl.
  induction (all_positions (board st)) as [|p ps IH]; simpl; [done|].
  destruct (is_empty (board st) p && neighbor_filled (board st) (direction st) p).
  - by apply sublist_skip.
  - by apply sublist_cons.
Qed.

(** ** The cross-check table, once more *)

(** X4 — what the table holds.  An entry of the table [cross_check] returns
    belongs to a position of the board that is not filled, and its letters
    are letters of the alphabet in alphabetical order, none twice. *)
Theorem cross_check_entry (st : SolveState) (table : gmap pos (list letter))
    (p : pos) (legal : list letter) :
  cross_check st = Ok table →
  table !! p = Some legal →
  p ∈ all_positions (board st) ∧
  is_filled (board st) p = false ∧
  sublist legal alphabet.
Proof.
  intros Htable Hentry.
  destruct (cross_check_Ok st table p Htable)
    as [(Hp & Hfill & rb & ra & _ & _ & Hentry')|[_ Hnone]]; [|congruence].
  split_and!; [done..|].
  rewrite Hentry in Hentry'. injection Hentry' as ->.
  apply legal_set_sublist.
Qed.

Lemma cat_table :
  ∃ table legal,
    cross_check (set_direction cat_state (Some across)) = Ok table ∧
    table !! (1, 2) = Some legal.
Proof.
  destruct (cross_check_returns (set_direction cat_state (Some across))
              (grid_board_ok _ _ _)) as [table Ht].
  destruct (cross_check_ready (set_direction cat_state (Some across)) table
              (grid_board_ok _ _ _) Ht (1, 2) eq_refl eq_refl)
    as [legal Hl].
  by exists table, legal.
Qed.

Lemma cross_check_entry_witness :
  ∃ table legal,
    cross_check (set_direction cat_state (Some across)) = Ok table ∧
    table !! (1, 2) = Some legal ∧
    sublist legal alphabet.
Proof.
  destruct cat_table as (table & legal & Ht & Hl).
  exists table, legal. split_and!; [exact Ht|exact Hl|].
  by destruct (cross_check_entry _ table (1, 2) legal Ht Hl) as (_ & _ & ?).
Defined.

(** ** [legal_move] *)

Lemma list_remove_all_None (xs l : list letter) :
  list_remove_all xs l = None → ¬ xs ⊆+ l.
Proof.
  intros Hnone [k Hk]%list_remove_all_submseteq. congruence.
Qed.

(** X5 — when [legal_move] records and when it raises.  If the working rack
    is part of the reference rack, [legal_move] appends exactly one move: the
    word, the start square [len(word) - 1] steps before [last_pos], the
    direction, the letters of the reference rack that are not on the working
    rack, and the score of the working rack.  Otherwise it raises a
    [ValueError] and records nothing. *)
Theorem legal_move_outcome (w : word) (last_pos : pos) (st : SolveState) :
  (rack st ⊆+ reference_rack st →
   ∃ used,
     reference_rack st ≡ₚ rack st ++ used ∧
     legal_move w last_pos st
     = Ok (set_found_moves st
             (found_moves st ++
                [mkMove w
                   (along (direction st) (1 - Z.of_nat (length w)) last_pos)
                   (direction st) used
                   (calculate_score (board st) w
                      (along (direction st) (1 - Z.of_nat (length w)) last_pos)
                      (direction st) (rack st))]))) ∧
  (¬ rack st ⊆+ reference_rack st →
   legal_move w last_pos st = Raise ValueError).
Proof.
  assert (after (direction st) (walk_back (direction st) (length w) last_pos)
          = along (direction st) (1 - Z.of_nat (length w)) last_pos) as Hstart.
  { rewrite walk_back_along, after_along, along_along. f_equal. lia. }
  unfold legal_move. rewrite Hstart.
  destruct (list_remove_all (rack st) (reference_rack st)) as [used|] eqn:Hused.
  - split; [|intros Hnot; exfalso; apply Hnot].
    + intros _. exists used. split; [|done]. by apply list_remove_all_Some.
    + apply list_remove_all_Some in Hused. rewrite Hused.
      by apply submseteq_inserts_r.
  - split; [|done]. intros Hsub. by apply list_remove_all_None in Hused.
Qed.

Lemma legal_move_outcome_witness :
  (∃ used, legal_move (W "cat") (2, 4)
             (set_direction (set_rack cat_state []) (Some across))
           = Ok (set_found_moves
                   (set_direction (set_rack cat_state []) (Some across))
                   [mkMove (W "cat") (2, 2) (Some across) used 0])) ∧
  legal_move (W "cat") (2, 4) (set_rack cat_state (W "x")) = Raise ValueError.
Proof.
  split.
  - destruct (legal_move_outcome (W "cat") (2, 4)
                (set_direction (set_rack cat_state []) (Some across)))
      as [Hrecords _].
    destruct Hrecords as (used & _ & Hrun); [apply submseteq_nil_l|].
    by exists used.
  - apply legal_move_outcome. intros Hsub.
    apply (elem_of_submseteq _ _ "x"%char) in Hsub; [|by left].
    apply list_elem_of_In in Hsub. vm_compute in Hsub.
    repeat (destruct Hsub as [Hsub|Hsub]; [discriminate Hsub|]). done.
Defined.

(** ** The cells of a found move *)

Lemma placed_letters_app b d (w1 w2 : word) (p : pos) :
  placed_letters b d (w1 ++ w2) p
  = placed_letters b d w1 p
    ++ placed_letters b d w2 (along d (Z.of_nat (length w1)) p).
Proof.
  revert p. induction w1 as [|l w1 IH]; intros p; simpl.
  - by rewrite along_0.
  - rewrite IH, <- app_assoc, after_along, along_along.
    by replace (1 + Z.of_nat (length w1)) with (Z.of_nat (S (length w1)))
      by lia.
Qed.

(** Letters laid on squares that are all empty are all placed; on squares
    none of which is empty, none is. *)
Lemma placed_letters_empty b d (w : word) (p : pos) :
  (∀ k : nat, (k < length w)%nat →
     is_empty b (along d (Z.of_nat k) p) = true) →
  placed_letters b d w p = w.
Proof.
  revert p. induction w as [|l w IH]; intros p Hall; simpl; [done|].
  pose proof (Hall 0%nat ltac:(simpl; lia)) as H0. rewrite along_0 in H0.
  rewrite H0. simpl. f_equal. apply IH. intros k Hk.
  rewrite after_along, along_along.
  replace (1 + Z.of_nat k) with (Z.of_nat (S k)) by lia.
  apply Hall. simpl. lia.
Qed.

Lemma placed_letters_tiles b d (w : word) (p : pos) :
  (∀ k : nat, (k < length w)%nat →
     is_empty b (along d (Z.of_nat k) p) = false) →
  placed_letters b d w p = [].
Proof.
  revert p. induction w as [|l w IH]; intros p Hall; simpl; [done|].
  pose proof (Hall 0%nat ltac:(simpl; lia)) as H0. rewrite along_0 in H0.
  rewrite H0. simpl. apply IH. intros k Hk.
  rewrite after_along, along_along.
  replace (1 + Z.of_nat k) with (Z.of_nat (S k)) by lia.
  apply Hall. simpl. lia.
Qed.

Section cells.
Context (b : Board) (d : option Direction)
        (table : option (gmap pos (list letter))).

(** The rack at the end of a path is the rack at its start less the letters
    laid on empty squares. *)
Lemma forward_placed n p r w n' p' r' :
  forward b d table n p r w n' p' r' →
  r ≡ₚ placed_letters b d w p ++ r'.
Proof.
  induction 1 as [n p r r' Hr|n p r l child t legal r1 w n' p' r'
                              _ Hempty _ _ _ _ Hr _ IH|
                  n p r l child w n' p' r' _ Hfull _ _ _ IH]; simpl.
  - done.
  - rewrite Hempty. simpl. by rewrite Hr, IH.
  - by rewrite Hfull.
Qed.

(** Every square of a path is on the board, and a square that is not empty
    holds the letter of the path as its tile. *)
Lemma forward_cells n p r w n' p' r' (i : nat) (l : letter) :
  forward b d table n p r w n' p' r' →
  w !! i = Some l →
  in_bounds b (along d (Z.of_nat i) p) = true ∧
  (is_empty b (along d (Z.of_nat i) p) = false →
   get_tile b (along d (Z.of_nat i) p) = Some l).
Proof.
  intros Hfwd. revert i.
  induction Hfwd as [n p r r' _|n p r l0 child t legal r1 w n' p' r'
                                Hin Hempty _ _ _ _ _ _ IH|
                     n p r l0 child w n' p' r' Hin _ Htile _ _ IH];
    intros i Hi; [done|..]; destruct i as [|i]; simpl in Hi.
  - injection Hi as <-. rewrite along_0. split; [done|congruence].
  - specialize (IH i Hi). rewrite after_along, along_along in IH.
    by replace (1 + Z.of_nat i) with (Z.of_nat (S i)) in IH by lia.
  - injection Hi as <-. rewrite along_0. by split.
  - specialize (IH i Hi). rewrite after_along, along_along in IH.
    by replace (1 + Z.of_nat i) with (Z.of_nat (S i)) in IH by lia.
Qed.

(** A path that starts on an empty square and has a letter lays a letter. *)
Lemma forward_places n p r w n' p' r' :
  forward b d table n p r w n' p' r' →
  w ≠ [] → is_empty b p = true →
  placed_letters b d w p ≠ [].
Proof.
  intros Hfwd Hw Hempty.
  destruct Hfwd as [n p r r' _|n p r l child t legal r1 w n' p' r'
                               _ _ _ _ _ _ _ _|
                    n p r l child w n' p' r' _ Hfull _ _ _];
    [done| |congruence].
  simpl. by rewrite Hempty.
Qed.

(** The tiles of a run, and the cell that ends it. *)
Lemma run_tiles (p : pos) (ts : list letter) :
  run b (before d) p ts →
  (∀ (j : nat) (t : letter), ts !! j = Some t →
     is_filled b (along d (- Z.of_nat (S j)) p) = true ∧
     get_tile b (along d (- Z.of_nat (S j)) p) = Some t) ∧
  is_filled b (along d (- Z.of_nat (S (length ts))) p) = false.
Proof.
  induction 1 as [p Hend|p t ts Hfill Htile _ [IHtiles IHend]].
  - split; [done|]. by rewrite <- before_along.
  - split.
    + intros [|j] t' Hj; simpl in Hj.
      * injection Hj as <-. by rewrite <- before_along.
      * specialize (IHtiles j t' Hj).
        rewrite before_along, along_along in IHtiles.
        by replace (-1 + - Z.of_nat (S j)) with (- Z.of_nat (S (S j)))
          in IHtiles by lia.
    + rewrite before_along, along_along in IHend. simpl length.
      by replace (-1 + - Z.of_nat (S (length ts)))
        with (- Z.of_nat (S (S (length ts)))) in IHend by lia.
Qed.
End cells.

(** The tiles of a run, read in the direction of play. *)
Lemma run_tiles_rev b d (p : pos) (ts : list letter) (k : nat) (l : letter) :
  run b (before d) p ts →
  rev ts !! k = Some l →
  is_filled b (along d (Z.of_nat k - Z.of_nat (length ts)) p) = true ∧
  get_tile b (along d (Z.of_nat k - Z.of_nat (length ts)) p) = Some l.
Proof.
  intros Hrun. revert k.
  induction Hrun as [p _|p t ts Hfill Htile _ IH]; intros k Hk; [done|].
  simpl in Hk. simpl length.
  destruct (decide (k < length (rev ts))%nat) as [Hlt|Hge].
  - rewrite lookup_app_l in Hk by done. specialize (IH k Hk).
    rewrite before_along, along_along in IH.
    by replace (-1 + (Z.of_nat k - Z.of_nat (length ts)))
      with (Z.of_nat k - Z.of_nat (S (length ts))) in IH by lia.
  - rewrite lookup_app_r in Hk by lia.
    destruct (k - length (rev ts))%nat as [|i] eqn:Hi; [|by destruct i].
    injection Hk as <-. rewrite length_rev in Hge, Hi.
    replace (Z.of_nat k - Z.of_nat (S (length ts))) with (-1).
    + by rewrite <- before_along.
    + lia.
Qed.

(** The layout of a move of the search from one anchor: the word is [pw ++ w]
    with [w] laid from the anchor on; its squares are on the board and the
    filled ones hold its letters; the cells next to its two ends are not
    filled; and the rack accounts for the letters laid on empty squares. *)
Lemma anchor_move_layout b dict d table anchors ref r anchor m :
  board_ok b →
  is_empty b anchor = true →
  (∀ q, is_empty b q = true → q ∉ anchors →
        is_filled b (before d q) = false) →
  anchor_move b dict d table anchors ref r anchor m →
  ∃ pw w r',
    move_word m = pw ++ w ∧
    move_direction m = d ∧
    move_start m = along d (- Z.of_nat (length pw)) anchor ∧
    w ≠ [] ∧
    (∀ (k : nat) (l : letter), (pw ++ w) !! k = Some l →
       in_bounds b (along d (Z.of_nat k - Z.of_nat (length pw)) anchor) = true ∧
       (is_empty b (along d (Z.of_nat k - Z.of_nat (length pw)) anchor) = false →
        get_tile b (along d (Z.of_nat k - Z.of_nat (length pw)) anchor)
        = Some l)) ∧
    is_filled b (along d (Z.of_nat (length w)) anchor) = false ∧
    is_filled b (along d (- Z.of_nat (S (length pw))) anchor) = false ∧
    r ≡ₚ placed_letters b d (pw ++ w)
           (along d (- Z.of_nat (length pw)) anchor) ++ r' ∧
    ref ≡ₚ r' ++ move_used m ∧
    placed_letters b d (pw ++ w) (along d (- Z.of_nat (length pw)) anchor) ≠ [].
Proof.
  intros Hok Hanchor Hfree Hmove.
  assert (∀ pw node r1 w n' p' r',
            forward b d table node anchor r1 w n' p' r' →
            w ≠ [] → is_filled b p' = false →
            recorded b d ref (pw ++ w) p' r' m →
            move_word m = pw ++ w ∧ move_direction m = d ∧
            move_start m = along d (- Z.of_nat (length pw)) anchor ∧
            is_filled b (along d (Z.of_nat (length w)) anchor) = false ∧
            ref ≡ₚ r' ++ move_used m ∧
            placed_letters b d w anchor ≠ [] ∧
            r1 ≡ₚ placed_letters b d w anchor ++ r' ∧
            ∀ (k : nat) (l : letter), w !! k = Some l →
              in_bounds b (along d (Z.of_nat k) anchor) = true ∧
              (is_empty b (along d (Z.of_nat k) anchor) = false →
               get_tile b (along d (Z.of_nat k) anchor) = Some l))
    as Hforward.
  { intros pw node r1 w n' p' r' Hfwd Hw Hend Hrec.
    apply recorded_fields in Hrec as (Hword & Hdir & Hstart & _ & Hused).
    pose proof (forward_end _ _ _ _ _ _ _ _ _ _ Hfwd) as ->.
    split_and!; [done|done| |done|done| | |].
    - rewrite Hstart, along_along, length_app. f_equal. lia.
    - by eapply forward_places.
    - by eapply forward_placed.
    - intros k l Hl. by eapply forward_cells. }
  assert (∀ k j : nat, (j ≤ k)%nat →
            along d (Z.of_nat (k - j))
                  (along d (Z.of_nat j) (along d (- Z.of_nat j) anchor))
            = along d (Z.of_nat k - Z.of_nat j) anchor) as Hshift.
  { intros k j Hj. rewrite !along_along. f_equal. lia. }
  destruct Hmove as [(_ & ts & node & Hrun & _ & Hm)
                    |(Hbefore & limit & Hlimit & pre & n1 & r1 & Hpath & Hlen
                      & Hm)].
  - destruct Hm as (w & n' & p' & r' & Hfwd & [[=]|Hw] & _ & Hend & Hrec).
    destruct (Hforward _ _ _ _ _ _ _ Hfwd Hw Hend Hrec)
      as (Hword & Hdir & Hstart & Hafter & Hused & Hsome & Hr & Hcells).
    pose proof (run_tiles b d anchor ts Hrun) as [_ Hfront].
    assert (∀ k : nat, (k < length (rev ts))%nat →
              is_empty b (along d (Z.of_nat k)
                            (along d (- Z.of_nat (length (rev ts))) anchor))
              = false) as Htiles.
    { intros k Hk. destruct (lookup_lt_is_Some_2 (rev ts) k Hk) as [l Hl].
      destruct (run_tiles_rev b d anchor ts k l Hrun Hl) as [Hfill _].
      rewrite along_along, length_rev.
      replace (- Z.of_nat (length ts) + Z.of_nat k)
        with (Z.of_nat k - Z.of_nat (length ts)) by lia.
      destruct (is_empty b (along d _ anchor)) eqn:He; [|done].
      apply empty_not_filled in He; [congruence|done]. }
    exists (rev ts), w, r'. split_and!; [done..| |done| | |done|].
    + intros k l Hl.
      destruct (decide (k < length (rev ts))%nat) as [Hlt|Hge].
      * rewrite lookup_app_l in Hl by done.
        destruct (run_tiles_rev b d anchor ts k l Hrun Hl) as [Hfill Htile].
        rewrite length_rev. split; [by apply (filled_in_bounds b Hok)|done].
      * rewrite lookup_app_r in Hl by lia.
        specialize (Hcells _ _ Hl).
        by replace (Z.of_nat (k - length (rev ts)))
          with (Z.of_nat k - Z.of_nat (length (rev ts))) in Hcells by lia.
    + by rewrite length_rev.
    + rewrite placed_letters_app, placed_letters_tiles by done.
      rewrite along_along, Z.add_opp_diag_l, along_0. done.
    + rewrite placed_letters_app, placed_letters_tiles by done.
      by rewrite along_along, Z.add_opp_diag_l, along_0.
  - destruct Hm as (w & n' & p' & r' & Hfwd & [[=]|Hw] & _ & Hend & Hrec).
    destruct (Hforward _ _ _ _ _ _ _ Hfwd Hw Hend Hrec)
      as (Hword & Hdir & Hstart & Hafter & Hused & Hsome & Hr & Hcells).
    simpl in Hword, Hstart.
    assert (∀ k : nat, (k < length pre)%nat →
              is_empty b (along d (Z.of_nat k)
                            (along d (- Z.of_nat (length pre)) anchor))
              = true) as Hempties.
    { intros k Hk. rewrite along_along.
      replace (- Z.of_nat (length pre) + Z.of_nat k)
        with (- Z.of_nat (length pre - k)) by lia.
      apply Hlimit. lia. }
    exists pre, w, r'. split_and!; [done..| |done| | |done|].
    + intros k l Hl.
      destruct (decide (k < length pre)%nat) as [Hlt|Hge].
      * specialize (Hempties k Hlt). rewrite along_along in Hempties.
        replace (- Z.of_nat (length pre) + Z.of_nat k)
          with (Z.of_nat k - Z.of_nat (length pre)) in Hempties by lia.
        split; [|congruence].
        by apply (empty_iff b Hok) in Hempties as [? _].
      * rewrite lookup_app_r in Hl by lia.
        specialize (Hcells _ _ Hl).
        by replace (Z.of_nat (k - length pre))
          with (Z.of_nat k - Z.of_nat (length pre)) in Hcells by lia.
    + destruct (length pre) as [|n] eqn:Hn.
      * by rewrite <- before_along.
      * destruct (Hlimit (S n)) as [He Hno]; [lia|].
        specialize (Hfree _ He Hno). rewrite before_along, along_along in Hfree.
        by replace (- Z.of_nat (S n) + -1) with (- Z.of_nat (S (S n)))
          in Hfree by lia.
    + rewrite placed_letters_app, placed_letters_empty by done.
      rewrite along_along, Z.add_opp_diag_l, along_0.
      apply prefix_path_rack in Hpath. by rewrite Hpath, Hr, app_assoc.
    + rewrite placed_letters_app. intros [_ Hnil]%app_eq_nil.
      by rewrite along_along, Z.add_opp_diag_l, along_0 in Hnil.
Qed.

Lemma unanchored_before (st : SolveState) (q : pos) :
  board_ok (board st) →
  is_empty (board st) q = true →
  q ∉ find_anchors st →
  is_filled (board st) (before (direction st) q) = false.
Proof.
  intros Hok Hempty Hno.
  destruct (neighbor_filled (board st) (direction st) q) eqn:Hn.
  - exfalso. apply Hno, find_anchors_elem.
    split_and!; [by apply empty_position|done..].
  - unfold neighbor_filled in Hn.
    apply orb_false_elim in Hn as [Hn _].
    apply orb_false_elim in Hn as [Hn _].
    by apply orb_false_elim in Hn as [Hn _].
Qed.

(** The layout of a move of a pass. *)
Lemma pass_move_layout (st : SolveState) (dir : Direction) (m : Move) :
  board_ok (board st) →
  pass_move st dir m →
  ∃ anchor pw w r',
    anchor ∈ find_anchors (set_direction st (Some dir)) ∧
    move_word m = pw ++ w ∧
    move_direction m = Some dir ∧
    move_start m = along (Some dir) (- Z.of_nat (length pw)) anchor ∧
    w ≠ [] ∧
    (∀ (k : nat) (l : letter), (pw ++ w) !! k = Some l →
       in_bounds (board st)
         (along (Some dir) (Z.of_nat k - Z.of_nat (length pw)) anchor) = true ∧
       (is_empty (board st)
          (along (Some dir) (Z.of_nat k - Z.of_nat (length pw)) anchor) = false →
        get_tile (board st)
          (along (Some dir) (Z.of_nat k - Z.of_nat (length pw)) anchor)
        = Some l)) ∧
    is_filled (board st) (along (Some dir) (Z.of_nat (length w)) anchor)
    = false ∧
    is_filled (board st) (along (Some dir) (- Z.of_nat (S (length pw))) anchor)
    = false ∧
    rack st ≡ₚ placed_letters (board st) (Some dir) (pw ++ w)
                 (along (Some dir) (- Z.of_nat (length pw)) anchor) ++ r' ∧
    reference_rack st ≡ₚ r' ++ move_used m ∧
    placed_letters (board st) (Some dir) (pw ++ w)
      (along (Some dir) (- Z.of_nat (length pw)) anchor) ≠ [].
Proof.
  intros Hok (table & anchor & _ & Hanchor & Hmove).
  apply anchor_move_layout in Hmove as (pw & w & r' & Hlayout); [|done|..].
  - by exists anchor, pw, w, r'.
  - by apply find_anchors_elem in Hanchor as (_ & ? & _).
  - intros q Hq Hno.
    by apply (unanchored_before (set_direction st (Some dir))).
Qed.

(** X6 — the letters a move uses.  On a board that keeps its contract, the
    letters listed as used by a found move are exactly the letters of its
    word that lie on empty squares, and there is at least one. *)
Theorem used_letters_placed (dict : LetterTree) (b : Board)
    (rack0 : list letter) (st' : SolveState) (m : Move) :
  board_ok b →
  find_all_options (init dict b rack0) = Ok st' →
  m ∈ found_moves st' →
  move_used m ≡ₚ placed_letters b (move_direction m) (move_word m)
                   (move_start m) ∧
  move_used m ≠ [].
Proof.
  intros Hok Hrun Hm.
  destruct (found_moves_init _ _ _ _ _ Hrun Hm) as [dir Hpass].
  apply pass_move_layout in Hpass
    as (anchor & pw & w & r' & _ & -> & -> & -> & _ & _ & _ & _
        & Hrack & Href & Hsome); [|done].
  cbn [init board rack reference_rack] in Hrack, Href, Hsome.
  assert (move_used m ≡ₚ placed_letters b (Some dir) (pw ++ w)
                          (along (Some dir) (- Z.of_nat (length pw)) anchor))
    as Hused.
  { apply (Permutation_app_inv_l r').
    rewrite <- Href, Hrack. apply Permutation_app_comm. }
  split; [done|].
  intros Hnil. rewrite Hnil in Hused. symmetry in Hused.
  by apply Permutation_nil_r in Hused.
Qed.

Lemma used_letters_placed_witness :
  move_used cat_across
  ≡ₚ placed_letters one_tile_board (move_direction cat_across)
       (move_word cat_across) (move_start cat_across) ∧
  move_used cat_across ≠ [].
Proof.
  destruct cat_returns as [st' Hst'].
  apply (used_letters_placed cat_lexicon one_tile_board (W "at") st' cat_across);
    [apply grid_board_ok|exact Hst'|].
  destruct (moves_of_Ok _ _ Hst') as [-> _].
  destruct cat_run as [-> _]. by left.
Defined.

(** X7 — a found move fits the board.  On a board that keeps its contract,
    every square of a found move is in bounds, a square that is not empty
    holds the letter the word has there, and the cells next to the two ends
    of the word are not filled. *)
Theorem found_move_fits (dict : LetterTree) (b : Board)
    (rack0 : list letter) (st' : SolveState) (m : Move) :
  board_ok b →
  find_all_options (init dict b rack0) = Ok st' →
  m ∈ found_moves st' →
  (∀ (k : nat) (l : letter), move_word m !! k = Some l →
     in_bounds b (square m k) = true ∧
     (is_empty b (square m k) = false → get_tile b (square m k) = Some l)) ∧
  is_filled b (before (move_direction m) (move_start m)) = false ∧
  is_filled b (square m (length (move_word m))) = false.
Proof.
  intros Hok Hrun Hm.
  destruct (found_moves_init _ _ _ _ _ Hrun Hm) as [dir Hpass].
  apply pass_move_layout in Hpass
    as (anchor & pw & w & r' & _ & Hword & Hdir & Hstart & _ & Hcells
        & Hafter & Hbefore & _); [|done].
  cbn [init board] in Hcells, Hafter, Hbefore.
  split_and!.
  - intros k l Hl. rewrite (square_from_anchor m _ anchor (length pw)) by done.
    apply Hcells. by rewrite <- Hword.
  - rewrite Hdir, Hstart, before_along, along_along.
    by replace (- Z.of_nat (length pw) + -1)
      with (- Z.of_nat (S (length pw))) by lia.
  - rewrite (square_from_anchor m _ anchor (length pw)) by done.
    rewrite Hword, length_app.
    by replace (Z.of_nat (length pw + length w) - Z.of_nat (length pw))
      with (Z.of_nat (length w)) by lia.
Qed.

Lemma found_move_fits_witness :
  (∀ (k : nat) (l : letter), move_word cat_across !! k = Some l →
     in_bounds one_tile_board (square cat_across k) = true ∧
     (is_empty one_tile_board (square cat_across k) = false →
      get_tile one_tile_board (square cat_across k) = Some l)) ∧
  is_filled one_tile_board
    (before (move_direction cat_across) (move_start cat_across)) = false ∧
  is_filled one_tile_board (square cat_across (length (move_word cat_across)))
  = false.
Proof.
  destruct cat_returns as [st' Hst'].
  apply (found_move_fits cat_lexicon one_tile_board (W "at") st' cat_across);
    [apply grid_board_ok|exact Hst'|].
  destruct (moves_of_Ok _ _ Hst') as [-> _].
  destruct cat_run as [-> _]. by left.
Defined.

Lemma empty_rack_found (dict : LetterTree) (b : Board) (st' : SolveState) :
  find_all_options (init dict b []) = Ok st' → found_moves st' = [].
Proof.
  intros Hrun.
  destruct (found_moves st') as [|m ms] eqn:Hmoves; [done|]. exfalso.
  assert (m ∈ found_moves st') as Hm by (rewrite Hmoves; by left).
  destruct (found_moves_init _ _ _ _ _ Hrun Hm)
    as (dir & table & anchor & _ & Hanchor & Hmove).
  apply find_anchors_elem in Hanchor as (_ & Hempty & _).
  cbn [set_direction board init] in Hempty.
  assert (∀ node pw r, r ≡ₚ [] →
            ¬ extension_move b (Some dir) (Some table) [] node pw anchor
                             false r m) as Hnone.
  { intros node pw r Hr (w & n' & p' & r' & Hfwd & [[=]|Hw] & _).
    destruct Hfwd as [| ? ? ? ? ? ? ? ? ? ? ? ? _ _ _ _ _ _ Hl _
                      | ? ? ? ? ? ? ? ? ? _ Hfull _ _ _]; [done| |congruence].
    rewrite Hr in Hl. by apply Permutation_nil_cons in Hl. }
  destruct Hmove as [(_ & ts & node & _ & _ & Hext)
                    |(_ & limit & _ & pre & n1 & r1 & Hpath & _ & Hext)].
  - by apply (Hnone node (rev ts) []).
  - apply (Hnone n1 ([] ++ pre) r1); [|done].
    apply prefix_path_rack in Hpath. cbn [init rack] in Hpath.
    symmetry in Hpath. apply Permutation_nil_r in Hpath.
    by apply app_eq_nil in Hpath as [_ ->].
Qed.

(** X8 — an empty rack finds nothing.  With no letter on the rack
    [find_all_options] records no move: on a board that keeps its contract it
    returns, and whenever it returns, [found_moves] is empty. *)
Theorem empty_rack_no_moves (dict : LetterTree) (b : Board) :
  (board_ok b → ∃ st', find_all_options (init dict b []) = Ok st') ∧
  ∀ st', find_all_options (init dict b []) = Ok st' → found_moves st' = [].
Proof.
  split; [intros Hok; by apply find_all_options_returns|].
  apply empty_rack_found.
Qed.

Lemma empty_rack_no_moves_witness :
  ∃ st', find_all_options (init cat_lexicon one_tile_board []) = Ok st' ∧
         found_moves st' = [].
Proof.
  destruct (empty_rack_no_moves cat_lexicon one_tile_board) as [Hret Hnone].
  destruct (Hret (grid_board_ok _ _ _)) as [st' Hst'].
  exists st'. split; [exact Hst'|]. apply Hnone, Hst'.
Defined.

(** ** Completeness of the search: every path is recorded *)

Lemma for_each_app {A S : Type} (xs ys : list A) (body : A → S → result S)
    (s : S) :
  for_each (xs ++ ys) body s = for_each xs body s ≫= for_each ys body.
Proof.
  revert s. induction xs as [|x xs IH]; intros s; simpl; [done|].
  destruct (body x s); simpl; [apply IH|done].
Qed.

Lemma finds_before (st t st' : SolveState) (new : list Move) (P : Move → Prop) :
  grows st t new → finds t st' P → finds st st' P.
Proof.
  intros (_ & Hmoves & _) (new2 & m & Hmoves2 & Hm & HP).
  exists (new ++ new2), m. rewrite Hmoves2, Hmoves, app_assoc.
  split_and!; [done| |done]. apply elem_of_app. by right.
Qed.

Lemma finds_after (st t st' : SolveState) (new : list Move) (P : Move → Prop) :
  finds st t P → grows t st' new → finds st st' P.
Proof.
  intros (new1 & m & Hmoves1 & Hm & HP) (_ & Hmoves & _).
  exists (new1 ++ new), m. rewrite Hmoves, Hmoves1, app_assoc.
  split_and!; [done| |done]. apply elem_of_app. by left.
Qed.

Lemma extend_after_step_grows pw p l child t t' :
  extend_after_step pw p (l, extend_after child) t = Ok t' →
  ∃ new, grows t t' new.
Proof.
  unfold extend_after_step. intros Hstep.
  case_bool_decide; [|injection Hstep as <-; exists []; apply grows_refl].
  apply bind_Ok in Hstep as (legal & _ & Hstep).
  case_bool_decide; [|injection Hstep as <-; exists []; apply grows_refl].
  apply bind_Ok in Hstep as (rack' & Hrem%or_raise_Ok & Hstep).
  apply bind_Ok in Hstep as (t2 & Hcall & [= <-]).
  apply extend_after_sound in Hcall as (new2 & Hgrow2 & _).
  exists ([] ++ new2). eapply grows_round; [apply grows_refl|done..].
Qed.

Lemma extend_after_loop_grows pw p cs t t' :
  for_each cs (λ kc, extend_after_step pw p (kc.1, extend_after kc.2)) t
  = Ok t' →
  ∃ new, grows t t' new.
Proof.
  apply (for_each_inv (λ s, ∃ new, grows t s new)).
  - exists []. apply grows_refl.
  - intros [l child] s s' _ (new & Hgrow) Hstep. simpl in Hstep.
    apply extend_after_step_grows in Hstep as (new2 & Hgrow2).
    exists (new ++ new2). by eapply grows_trans.
Qed.

(** [extend_after] is its first statement followed by the search from a node
    that marks no word. *)
Lemma extend_after_split isw cs pw p af st st' :
  extend_after (Node isw cs) pw p af st = Ok st' →
  ∃ st1 new1,
    grows st st1 new1 ∧
    (isw = true → af = true → is_filled (board st) p = false →
     finds st st1 (lays pw (along (direction st) (- Z.of_nat (length pw)) p)
                        (direction st))) ∧
    extend_after (Node false cs) pw p af st1 = Ok st'.
Proof.
  intros Hrun. simpl in Hrun.
  apply bind_Ok in Hrun as (st1 & Hrec & Hrun).
  pose proof (extend_after_record_sound _ cs _ _ _ _ _ Hrec)
    as (new1 & Hgrow1 & _).
  exists st1, new1. split_and!; [done| |].
  - intros -> -> Hfill. rewrite Hfill in Hrec. simpl in Hrec.
    apply legal_move_Ok in Hrec as (m & -> & Hm).
    rewrite after_before in Hm.
    apply recorded_fields in Hm as (Hword & Hdir & Hstart & _).
    exists [m], m. split_and!; [done|by left|]. by split_and!.
  - simpl. by rewrite andb_false_r.
Qed.

Lemma extend_after_complete b d table node p r w n' p' r' :
  forward b d table node p r w n' p' r' →
  ∀ pw af st st',
    board st = b → direction st = d → cross_check_results st = table →
    rack st ≡ₚ r →
    af = true ∨ w ≠ [] →
    is_word n' = true →
    is_filled b p' = false →
    extend_after node pw p af st = Ok st' →
    finds st st' (lays (pw ++ w) (along d (- Z.of_nat (length pw)) p) d).
Proof.
  induction 1 as [n p r r' Hr|n p r l child t legal r1 w n' p' r'
                              Hin Hempty Hchild Htable Hentry Hlegal Hr _ IH|
                  n p r l child w n' p' r' Hin Hfull Htile Hchild _ IH];
    intros pw af st st' Hb Hd Ht Hrack Haf Hisw Hend Hrun;
    destruct n as [isw cs];
    apply extend_after_split in Hrun
      as (st1 & new1 & Hgrow1 & Hrecord & Hrest).
  - destruct Haf as [->|]; [|done]. simpl in Hisw. subst isw.
    rewrite Hb, Hd in Hrecord. rewrite app_nil_r.
    apply extend_after_sound in Hrest as (new2 & Hgrow2 & _).
    eapply finds_after; [|exact Hgrow2]. by apply Hrecord.
  - eapply finds_before; [exact Hgrow1|].
    destruct Hgrow1 as ((_ & Hb1 & _ & Ht1 & Hd1) & _ & Hr1).
    simpl in Hrest, Hchild. rewrite andb_false_r in Hrest. simpl in Hrest.
    rewrite Hb1, Hb, Hin, Hempty in Hrest.
    rewrite for_each_map in Hrest.
    apply list_elem_of_split in Hchild as (cs1 & cs2 & ->).
    rewrite for_each_app in Hrest.
    apply bind_Ok in Hrest as (s & Hfirst & Hrest). simpl in Hrest.
    apply bind_Ok in Hrest as (s' & Hstep & Hlast).
    apply extend_after_loop_grows in Hfirst as (newA & HgrowA).
    apply extend_after_loop_grows in Hlast as (newB & HgrowB).
    eapply finds_before; [exact HgrowA|].
    eapply finds_after; [|exact HgrowB].
    destruct HgrowA as ((_ & Hbs & _ & Hts & Hds) & _ & Hrs).
    unfold extend_after_step in Hstep.
    assert (rack s ≡ₚ l :: r1) as Hracks.
    { by rewrite Hrs, Hr1, Hrack. }
    rewrite bool_decide_eq_true_2 in Hstep by (rewrite Hracks; by left).
    unfold table_at in Hstep.
    rewrite Hts, Ht1, Ht, Htable, Hentry in Hstep. simpl in Hstep.
    rewrite bool_decide_eq_true_2 in Hstep by done.
    apply bind_Ok in Hstep as (rack' & Hrem%or_raise_Ok & Hstep).
    apply bind_Ok in Hstep as (t2 & Hcall & [= <-]).
    rewrite Hds, Hd1, Hd in Hcall.
    apply (IH (pw ++ [l]) true (set_rack s rack')) in Hcall;
      [|simpl; congruence..| |by left|done|done].
    + destruct Hcall as (new2 & m & Hmoves & Hm & Hword & Hstart & Hdir).
      exists new2, m. split_and!; [done..|]. split_and!; [|  |done].
      * by rewrite Hword, <- app_assoc.
      * rewrite Hstart, after_along, along_along, length_app. f_equal.
        simpl. lia.
    + simpl. apply list_remove_Some in Hrem. rewrite Hrem in Hracks.
      by apply Permutation_cons_inv in Hracks.
  - eapply finds_before; [exact Hgrow1|].
    destruct Hgrow1 as ((_ & Hb1 & _ & Ht1 & Hd1) & _ & Hr1).
    simpl in Hrest, Hchild. rewrite andb_false_r in Hrest. simpl in Hrest.
    rewrite Hb1, Hb, Hin, Hfull, Htile in Hrest.
    rewrite child_of_map, Hchild in Hrest. simpl in Hrest.
    rewrite Hd1, Hd in Hrest.
    apply (IH (pw ++ [l]) true st1) in Hrest;
      [|congruence..|by rewrite Hr1|by left|done|done].
    destruct Hrest as (new2 & m & Hmoves & Hm & Hword & Hstart & Hdir).
    exists new2, m. split_and!; [done..|]. split_and!; [| |done].
    + by rewrite Hword, <- app_assoc.
    + rewrite Hstart, after_along, along_along, length_app. f_equal.
      simpl. lia.
Qed.

Lemma before_part_step_grows pw anchor limit l child t t' :
  before_part_step pw anchor limit (l, before_part child) t = Ok t' →
  ∃ new, grows t t' new.
Proof.
  unfold before_part_step. intros Hstep.
  case_bool_decide; [|injection Hstep as <-; exists []; apply grows_refl].
  apply bind_Ok in Hstep as (rack' & Hrem%or_raise_Ok & Hstep).
  apply bind_Ok in Hstep as (t2 & Hcall & [= <-]).
  apply before_part_sound in Hcall as (new2 & Hgrow2 & _).
  exists ([] ++ new2). eapply grows_round; [apply grows_refl|done..].
Qed.

Lemma before_part_loop_grows pw anchor limit cs t t' :
  for_each cs (λ kc, before_part_step pw anchor limit (kc.1, before_part kc.2))
           t = Ok t' →
  ∃ new, grows t t' new.
Proof.
  apply (for_each_inv (λ s, ∃ new, grows t s new)).
  - exists []. apply grows_refl.
  - intros [l child] s s' _ (new & Hgrow) Hstep. simpl in Hstep.
    apply before_part_step_grows in Hstep as (new2 & Hgrow2).
    exists (new ++ new2). by eapply grows_trans.
Qed.

Lemma before_part_complete b d table node r pre n1 r1 :
  prefix_path node r pre n1 r1 →
  ∀ pw anchor limit w n' p' r' st st',
    board st = b → direction st = d → cross_check_results st = table →
    rack st ≡ₚ r →
    (length pre ≤ limit)%nat →
    forward b d table n1 anchor r1 w n' p' r' →
    w ≠ [] →
    is_word n' = true →
    is_filled b p' = false →
    before_part node pw anchor limit st = Ok st' →
    finds st st'
      (lays (pw ++ pre ++ w)
            (along d (- Z.of_nat (length pw + length pre)) anchor) d).
Proof.
  induction 1 as [n r r1 Hr|n r l child rx pre n1 r1 Hchild Hr _ IH];
    intros pw anchor limit w n' p' r' st st' Hb Hd Ht Hrack Hlen Hfwd Hw
           Hisw Hend Hrun;
    rewrite before_part_eq in Hrun;
    apply bind_Ok in Hrun as (st1 & Hext & Hrun).
  - assert (∃ new, grows st1 st' new) as [new2 Hgrow2].
    { destruct (0 <? limit)%nat.
      - rewrite for_each_map in Hrun. by eapply before_part_loop_grows.
      - injection Hrun as <-. exists []. apply grows_refl. }
    eapply finds_after; [|exact Hgrow2]. simpl. rewrite Nat.add_0_r.
    eapply (extend_after_complete _ _ _ _ _ _ _ _ _ _ Hfwd);
      [done|done|done|by rewrite Hrack, Hr|by right|done|done|exact Hext].
  - apply extend_after_sound in Hext as (new1 & Hgrow1 & _).
    eapply finds_before; [exact Hgrow1|].
    destruct Hgrow1 as ((_ & Hb1 & _ & Ht1 & Hd1) & _ & Hr1).
    simpl in Hlen.
    destruct (0 <? limit)%nat eqn:Hlimit;
      [|apply Nat.ltb_ge in Hlimit; lia].
    rewrite for_each_map in Hrun.
    apply list_elem_of_split in Hchild as (cs1 & cs2 & Hcs).
    rewrite Hcs, for_each_app in Hrun.
    apply bind_Ok in Hrun as (s & Hfirst & Hrun). simpl in Hrun.
    apply bind_Ok in Hrun as (s' & Hstep & Hlast).
    apply before_part_loop_grows in Hfirst as (newA & HgrowA).
    apply before_part_loop_grows in Hlast as (newB & HgrowB).
    eapply finds_before; [exact HgrowA|].
    eapply finds_after; [|exact HgrowB].
    destruct HgrowA as ((_ & Hbs & _ & Hts & Hds) & _ & Hrs).
    unfold before_part_step in Hstep.
    assert (rack s ≡ₚ l :: rx) as Hracks.
    { by rewrite Hrs, Hr1, Hrack. }
    rewrite bool_decide_eq_true_2 in Hstep by (rewrite Hracks; by left).
    apply bind_Ok in Hstep as (rack' & Hrem%or_raise_Ok & Hstep).
    apply bind_Ok in Hstep as (t2 & Hcall & [= <-]).
    apply (IH (pw ++ [l]) anchor (limit - 1)%nat w n' p' r' (set_rack s rack'))
      in Hcall;
      [|simpl; congruence|simpl; congruence|simpl; congruence|
       |simpl in Hlen; lia|done|done|done|done].
    + destruct Hcall as (new2 & m & Hmoves & Hm & Hword & Hstart & Hdir).
      exists new2, m. split_and!; [done..|]. split_and!; [| |done].
      * rewrite Hword, <- !app_assoc. done.
      * rewrite Hstart, length_app. f_equal. simpl. lia.
    + simpl. apply list_remove_Some in Hrem. rewrite Hrem in Hracks.
      by apply Permutation_cons_inv in Hracks.
Qed.

(** ** From a placement to a path *)

Lemma count_limit_reaches b d anchors fuel p limit0 limit (k : nat) :
  count_limit b d anchors fuel p limit0 = Ok limit →
  (∀ i : nat, (0 < i ≤ k)%nat →
     is_empty b (along d (- Z.of_nat i) p) = true ∧
     along d (- Z.of_nat i) p ∉ anchors) →
  (limit0 + k ≤ limit)%nat.
Proof.
  revert p limit0 k. induction fuel as [|fuel IH]; intros p limit0 k; simpl;
    destruct (is_empty b (before d p)
              && negb (bool_decide (before d p ∈ anchors))) eqn:Hcond;
    try done.
  - intros [= <-] Hk. destruct k as [|k]; [lia|]. exfalso.
    destruct (Hk 1%nat) as [He Hno]; [lia|].
    rewrite <- before_along in He, Hno.
    by rewrite He, bool_decide_eq_false_2 in Hcond.
  - intros Hrun Hk. destruct k as [|k].
    + apply count_limit_Ok in Hrun as (n & -> & _). lia.
    + apply (IH _ _ k) in Hrun; [lia|]. intros i Hi.
      rewrite before_along, along_along.
      replace (-1 + - Z.of_nat i) with (- Z.of_nat (S i)) by lia.
      apply Hk. lia.
  - intros [= <-] Hk. destruct k as [|k]; [lia|]. exfalso.
    destruct (Hk 1%nat) as [He Hno]; [lia|].
    rewrite <- before_along in He, Hno.
    by rewrite He, bool_decide_eq_false_2 in Hcond.
Qed.

(** A word of the trie whose letters are on the rack is a prefix path. *)
Lemma prefix_path_of_lookup (n n1 : LetterTreeNode) (pre : word)
    (r : list letter) :
  lookup_from n pre = Some n1 →
  pre ⊆+ r →
  ∃ r1, prefix_path n r pre n1 r1 ∧ r ≡ₚ pre ++ r1.
Proof.
  revert n r. induction pre as [|l pre IH]; intros n r Hlookup Hsub;
    simpl in Hlookup.
  - injection Hlookup as <-. exists r. split; [by constructor|done].
  - destruct (child_of l (children n)) as [c|] eqn:Hc; [|done].
    apply submseteq_cons_l in Hsub as (k & Hk & Hsub).
    destruct (IH c k Hlookup Hsub) as (r1 & Hpath & Hr1).
    exists r1. split.
    + eapply prefix_place; [by apply child_of_Some_elem|done..].
    + by rewrite Hk, Hr1.
Qed.

(** A word of the trie that fits the cells from [p] on, with its new letters
    on the rack, is a path. *)
Lemma forward_of_cells (b : Board) (d : option Direction)
    (tbl : gmap pos (list letter)) (w : word) :
  ∀ (n n' : LetterTreeNode) (p : pos) (r : list letter),
    lookup_from n w = Some n' →
    (∀ (k : nat) (l : letter), w !! k = Some l →
       in_bounds b (along d (Z.of_nat k) p) = true ∧
       (is_empty b (along d (Z.of_nat k) p) = true →
        ∃ legal, tbl !! along d (Z.of_nat k) p = Some legal ∧ l ∈ legal) ∧
       (is_empty b (along d (Z.of_nat k) p) = false →
        get_tile b (along d (Z.of_nat k) p) = Some l)) →
    placed_letters b d w p ⊆+ r →
    ∃ r', forward b d (Some tbl) n p r w n'
                  (along d (Z.of_nat (length w)) p) r'.
Proof.
  induction w as [|l w IH]; intros n n' p r Hlookup Hcells Hsub;
    simpl in Hlookup.
  - injection Hlookup as <-. exists r. rewrite along_0. by constructor.
  - destruct (child_of l (children n)) as [c|] eqn:Hc; [|done].
    destruct (Hcells 0%nat l eq_refl) as (Hin & Hempty & Hfull).
    rewrite along_0 in Hin, Hempty, Hfull.
    assert (∀ (k : nat) (l' : letter), w !! k = Some l' →
              in_bounds b (along d (Z.of_nat k) (after d p)) = true ∧
              (is_empty b (along d (Z.of_nat k) (after d p)) = true →
               ∃ legal, tbl !! along d (Z.of_nat k) (after d p) = Some legal
                        ∧ l' ∈ legal) ∧
              (is_empty b (along d (Z.of_nat k) (after d p)) = false →
               get_tile b (along d (Z.of_nat k) (after d p)) = Some l'))
      as Hcells'.
    { intros k l' Hk. rewrite after_along, along_along.
      replace (1 + Z.of_nat k) with (Z.of_nat (S k)) by lia.
      by apply Hcells. }
    assert (along d (Z.of_nat (length (l :: w))) p
            = along d (Z.of_nat (length w)) (after d p)) as ->.
    { rewrite after_along, along_along. f_equal. simpl. lia. }
    simpl in Hsub. destruct (is_empty b p) eqn:He.
    + destruct (Hempty eq_refl) as (legal & Hentry & Hl).
      simpl in Hsub. apply submseteq_cons_l in Hsub as (k & Hk & Hsub).
      destruct (IH c n' (after d p) k Hlookup Hcells' Hsub) as [r' Hfwd].
      exists r'. eapply forward_place; [done..|by apply child_of_Some_elem|
                                         done|exact Hentry|done|exact Hk|done].
    + simpl in Hsub.
      destruct (IH c n' (after d p) r Hlookup Hcells' Hsub) as [r' Hfwd].
      exists r'. eapply forward_tile; [done|done|by apply Hfull|done|done].
Qed.

(** The least index with a decidable property. *)
Lemma least_index (P : nat → Prop) `{∀ k, Decision (P k)} (n : nat) :
  (∃ k, (k < n)%nat ∧ P k) →
  ∃ k0, (k0 < n)%nat ∧ P k0 ∧ ∀ j, (j < k0)%nat → ¬ P j.
Proof.
  assert ((∀ j, (j < n)%nat → ¬ P j) ∨
          ∃ k0, (k0 < n)%nat ∧ P k0 ∧ ∀ j, (j < k0)%nat → ¬ P j) as Hcases.
  { induction n as [|n [Hnone|(k0 & Hk0 & HP & Hleast)]].
    - left. intros j Hj. lia.
    - destruct (decide (P n)) as [HPn|HPn].
      + right. exists n. split_and!; [lia|done|]. intros j Hj. by apply Hnone.
      + left. intros j Hj. destruct (decide (j = n)) as [->|]; [done|].
        apply Hnone. lia.
    - right. exists k0. split_and!; [lia|done..]. }
  intros (k & Hk & HP). destruct Hcases as [Hnone|Hleast]; [|done].
  by destruct (Hnone k Hk).
Qed.

(** The cells of a word before its first anchor are either all filled or all
    empty. *)
Lemma cells_before_anchor (st : SolveState) (start : pos) (k0 : nat) :
  board_ok (board st) →
  (∀ j : nat, (j < k0)%nat →
     in_bounds (board st) (along (direction st) (Z.of_nat j) start) = true) →
  (∀ j : nat, (j < k0)%nat →
     along (direction st) (Z.of_nat j) start ∉ find_anchors st) →
  ((0 < k0)%nat ∧
   ∀ j : nat, (j < k0)%nat →
     is_filled (board st) (along (direction st) (Z.of_nat j) start) = true)
  ∨
  (∀ j : nat, (j < k0)%nat →
     is_empty (board st) (along (direction st) (Z.of_nat j) start) = true).
Proof.
  intros Hok Hin Hno.
  assert (∀ j : nat,
            before (direction st) (along (direction st) (Z.of_nat (S j)) start)
            = along (direction st) (Z.of_nat j) start) as Hbefore.
  { intros j. rewrite before_along, along_along. f_equal. lia. }
  assert (∀ j : nat,
            after (direction st) (along (direction st) (Z.of_nat j) start)
            = along (direction st) (Z.of_nat (S j)) start) as Hafter.
  { intros j. rewrite after_along, along_along. f_equal. lia. }
  destruct k0 as [|k1]; [right; intros j Hj; lia|].
  destruct (is_filled (board st) (along (direction st) (Z.of_nat k1) start))
    eqn:Hlast.
  - left. split; [lia|].
    assert (∀ i : nat, (i ≤ k1)%nat →
              is_filled (board st)
                (along (direction st) (Z.of_nat (k1 - i)) start) = true)
      as Hdown.
    { induction i as [|i IH]; intros Hi; [by rewrite Nat.sub_0_r|].
      destruct (is_filled (board st)
                  (along (direction st) (Z.of_nat (k1 - S i)) start))
        eqn:Hq; [done|].
      exfalso. apply (Hno (k1 - S i)%nat); [lia|].
      apply find_anchors_elem.
      assert (is_empty (board st)
                (along (direction st) (Z.of_nat (k1 - S i)) start) = true)
        as He.
      { apply (empty_iff _ Hok). split; [apply Hin; lia|done]. }
      split_and!; [by apply empty_position|done|].
      unfold neighbor_filled. rewrite Hafter.
      replace (S (k1 - S i)) with (k1 - i)%nat by lia.
      rewrite IH by lia. by rewrite orb_true_r. }
    intros j Hj. replace j with (k1 - (k1 - j))%nat by lia. apply Hdown. lia.
  - right.
    assert (∀ i : nat, (i ≤ k1)%nat →
              is_empty (board st)
                (along (direction st) (Z.of_nat (k1 - i)) start) = true)
      as Hdown.
    { induction i as [|i IH]; intros Hi.
      - rewrite Nat.sub_0_r. apply (empty_iff _ Hok).
        split; [apply Hin; lia|done].
      - apply (empty_iff _ Hok). split; [apply Hin; lia|].
        rewrite <- Hbefore. replace (S (k1 - S i)) with (k1 - i)%nat by lia.
        apply unanchored_before; [done|apply IH; lia|apply Hno; lia]. }
    intros j Hj. replace j with (k1 - (k1 - j))%nat by lia. apply Hdown. lia.
Qed.

(** ** Completeness of a pass *)

(** The search from the first anchor of a legal placement records it. *)
Lemma search_anchor_complete (st t' : SolveState)
    (tbl : gmap pos (list letter)) (w : word) (start : pos) (k0 : nat) :
  board_ok (board st) →
  cross_check_results st = Some tbl →
  legal_placement (board st) (dictionary st) (direction st) tbl
                  (find_anchors st) (rack st) w start →
  (k0 < length w)%nat →
  (∀ j : nat, (j < k0)%nat →
     along (direction st) (Z.of_nat j) start ∉ find_anchors st) →
  search_anchor (find_anchors st)
                (along (direction st) (Z.of_nat k0) start) st = Ok t' →
  finds st t' (lays w start (direction st)).
Proof.
  intros Hok Htbl [Hword Hsq Hrack Hbefore Hafter _] Hk0 Hno Hrun.
  set (b := board st) in *. set (d := direction st) in *.
  set (a := along d (Z.of_nat k0) start) in *.
  (* the trie *)
  unfold dict_is_word, lookup in Hword.
  destruct (lookup_from (root (dictionary st)) w) as [n'|] eqn:Hlook; [|done].
  rewrite <- (take_drop k0 w), lookup_from_app in Hlook.
  destruct (lookup_from (root (dictionary st)) (take k0 w)) as [node|] eqn:Hpw;
    [|done].
  simpl in Hlook.
  assert (length (take k0 w) = k0) as Hlen by (rewrite length_take; lia).
  (* the cells *)
  assert (∀ j : nat, (j < length w)%nat →
            in_bounds b (along d (Z.of_nat j) start) = true) as Hin.
  { intros j Hj. destruct (lookup_lt_is_Some_2 w j Hj) as [l Hl].
    by destruct (Hsq j l Hl) as [? _]. }
  assert (∀ (k : nat) (l : letter), drop k0 w !! k = Some l →
            in_bounds b (along d (Z.of_nat k) a) = true ∧
            (is_empty b (along d (Z.of_nat k) a) = true →
             ∃ legal, tbl !! along d (Z.of_nat k) a = Some legal ∧ l ∈ legal) ∧
            (is_empty b (along d (Z.of_nat k) a) = false →
             get_tile b (along d (Z.of_nat k) a) = Some l)) as Hcells.
  { intros k l Hl. rewrite lookup_drop in Hl. unfold a.
    rewrite along_along.
    replace (Z.of_nat k0 + Z.of_nat k) with (Z.of_nat (k0 + k)) by lia.
    by apply Hsq. }
  assert (placed_letters b d w start
          = placed_letters b d (take k0 w) start
            ++ placed_letters b d (drop k0 w) a) as Hplaced.
  { rewrite <- (take_drop k0 w) at 1. by rewrite placed_letters_app, Hlen. }
  assert (along d (Z.of_nat (length (drop k0 w))) a
          = along d (Z.of_nat (length w)) start) as Hend.
  { unfold a. rewrite along_along, length_drop. f_equal. lia. }
  assert (along d (- Z.of_nat k0) a = start) as Hstart.
  { unfold a. rewrite along_along, Z.add_opp_diag_r. apply along_0. }
  assert (drop k0 w ≠ []) as Hw.
  { intros Hnil. apply (f_equal length) in Hnil.
    rewrite length_drop in Hnil. simpl in Hnil. lia. }
  assert (before d a = along d (Z.of_nat k0 - 1) start) as Hbefa.
  { unfold a. by rewrite before_along, along_along. }
  unfold search_anchor in Hrun. fold b d in Hrun.
  destruct (cells_before_anchor st start k0 Hok) as [[Hpos Hfilled]|Hempties].
  { intros j Hj. apply Hin. lia. }
  { done. }
  - (* the tiles before the anchor are the fixed prefix *)
    fold b d in Hfilled.
    assert (is_filled b (before d a) = true) as Hfb.
    { rewrite Hbefa. replace (Z.of_nat k0 - 1) with (Z.of_nat (k0 - 1)) by lia.
      apply Hfilled. lia. }
    rewrite Hfb in Hrun.
    apply bind_Ok in Hrun as (first & Hfirst%or_raise_Ok & Hrun).
    apply bind_Ok in Hrun as (pw & Hscan & Hrun).
    apply scan_filled_run in Hscan as (ts' & Hts' & ->).
    rewrite foldl_prepend in Hrun.
    change (rev ts' ++ [first]) with (rev (first :: ts')) in Hrun.
    assert (run b (before d) a (first :: ts')) as Hts by by constructor.
    destruct (run_tiles b d a _ Hts) as [Htiles Hstop].
    assert (length (first :: ts') = k0) as Hlts.
    { destruct (decide (length (first :: ts') < k0)%nat) as [Hlt|Hge].
      - exfalso. unfold a in Hstop. rewrite along_along in Hstop.
        replace (Z.of_nat k0 + - Z.of_nat (S (length (first :: ts'))))
          with (Z.of_nat (k0 - S (length (first :: ts')))) in Hstop by lia.
        rewrite Hfilled in Hstop by lia. discriminate Hstop.
      - destruct (decide (length (first :: ts') = k0)) as [|Hne]; [done|].
        exfalso.
        destruct (lookup_lt_is_Some_2 (first :: ts') k0) as [t Ht]; [lia|].
        destruct (Htiles k0 t Ht) as [Hfill _].
        unfold a in Hfill. rewrite along_along in Hfill.
        replace (Z.of_nat k0 + - Z.of_nat (S k0)) with (-1) in Hfill by lia.
        congruence. }
    assert (rev (first :: ts') = take k0 w) as Hprefix.
    { apply list_eq. intros k.
      destruct (decide (k < k0)%nat) as [Hk|Hk].
      - destruct (lookup_lt_is_Some_2 (rev (first :: ts')) k) as [l Hl];
          [rewrite length_rev; lia|].
        rewrite Hl.
        destruct (run_tiles_rev b d a _ k l Hts Hl) as [_ Htile].
        rewrite Hlts in Htile. unfold a in Htile. rewrite along_along in Htile.
        replace (Z.of_nat k0 + (Z.of_nat k - Z.of_nat k0)) with (Z.of_nat k)
          in Htile by lia.
        rewrite lookup_take_lt by done.
        destruct (lookup_lt_is_Some_2 w k) as [l' Hl']; [lia|].
        rewrite Hl'. destruct (Hsq k l' Hl') as (_ & _ & Hfull).
        rewrite Hfull in Htile; [done|].
        destruct (is_empty b (along d (Z.of_nat k) start)) eqn:He; [|done].
        apply empty_not_filled in He; [|done].
        rewrite Hfilled in He by done. discriminate He.
      - rewrite !lookup_ge_None_2; [done|lia|rewrite length_rev; lia]. }
    rewrite Hprefix in Hrun. unfold lookup in Hrun. rewrite Hpw in Hrun.
    destruct (forward_of_cells b d tbl (drop k0 w) node n' a (rack st))
      as [r' Hfwd]; [done..| |].
    { etrans; [|exact Hrack]. rewrite Hplaced. apply submseteq_inserts_l.
      done. }
    rewrite Hend in Hfwd. subst b d.
    pose proof (extend_after_complete _ _ _ _ _ _ _ _ _ _ Hfwd
                  (take k0 w) false st t' eq_refl eq_refl Htbl
                  (reflexivity _) (or_intror Hw) Hword Hafter Hrun) as Hfinds.
    by rewrite take_drop, Hlen, Hstart in Hfinds.
  - (* the cells before the anchor are empty: the prefix comes from the rack *)
    fold b d in Hempties.
    assert (is_filled b (before d a) = false) as Hfb.
    { rewrite Hbefa. destruct k0 as [|k1]; [done|].
      replace (Z.of_nat (S k1) - 1) with (Z.of_nat k1) by lia.
      apply empty_not_filled; [done|]. apply Hempties. lia. }
    rewrite Hfb in Hrun.
    apply bind_Ok in Hrun as (limit & Hlimit & Hrun).
    apply (count_limit_reaches _ _ _ _ _ _ _ k0) in Hlimit.
    2:{ intros i Hi. unfold a. rewrite along_along.
        replace (Z.of_nat k0 + - Z.of_nat i) with (Z.of_nat (k0 - i)) by lia.
        split; [apply Hempties|apply Hno]; lia. }
    assert (placed_letters b d (take k0 w) start = take k0 w) as Hpre.
    { apply placed_letters_empty. intros k Hk. apply Hempties. lia. }
    rewrite Hpre in Hplaced.
    destruct (prefix_path_of_lookup _ _ _ (rack st) Hpw) as (r1 & Hpath & Hr1).
    { etrans; [|exact Hrack]. rewrite Hplaced. by apply submseteq_inserts_r. }
    destruct (forward_of_cells b d tbl (drop k0 w) node n' a r1)
      as [r' Hfwd]; [done..| |].
    { apply (submseteq_app_inv_l _ _ (take k0 w)).
      by rewrite <- Hplaced, <- Hr1. }
    rewrite Hend in Hfwd. subst b d.
    pose proof (before_part_complete _ _ _ _ _ _ _ _ Hpath
                  [] a limit _ _ _ _ st t' eq_refl eq_refl Htbl
                  (reflexivity _) ltac:(lia) Hfwd Hw Hword Hafter Hrun)
      as Hfinds.
    simpl in Hfinds. by rewrite take_drop, Hlen, Hstart in Hfinds.
Qed.

Lemma legal_placement_perm b dict d table anchors r1 r2 w start :
  r1 ≡ₚ r2 →
  legal_placement b dict d table anchors r1 w start →
  legal_placement b dict d table anchors r2 w start.
Proof.
  intros Hperm [Hword Hsq Hrack Hbefore Hafter Hanchor].
  split; [exact Hword|exact Hsq| |exact Hbefore|exact Hafter|exact Hanchor].
  by rewrite <- Hperm.
Qed.

Lemma search_anchor_loop_grows anchors xs t t' :
  for_each xs (search_anchor anchors) t = Ok t' → ∃ new, grows t t' new.
Proof.
  apply (for_each_inv (λ s, ∃ new, grows t s new)).
  - exists []. apply grows_refl.
  - intros anchor s s' _ (new & Hgrow) Hstep.
    apply search_anchor_sound in Hstep as (new2 & Hgrow2 & _).
    exists (new ++ new2). by eapply grows_trans.
Qed.

(** A pass records every legal placement of its direction. *)
Lemma search_direction_complete (dir : Direction) (st st' : SolveState)
    (table : gmap pos (list letter)) (w : word) (start : pos) :
  board_ok (board st) →
  search_direction dir st = Ok st' →
  cross_check (set_direction st (Some dir)) = Ok table →
  legal_placement (board st) (dictionary st) (Some dir) table
                  (find_anchors (set_direction st (Some dir))) (rack st)
                  w start →
  finds st st' (lays w start (Some dir)).
Proof.
  intros Hok Hrun Htable Hlegal. unfold search_direction in Hrun.
  rewrite Htable in Hrun. simpl in Hrun.
  set (sd := set_direction st (Some dir)) in *.
  set (sd' := set_cross_check_results sd (Some table)) in *.
  destruct (least_index (λ k, along (Some dir) (Z.of_nat k) start
                              ∈ find_anchors sd) (length w))
    as (k0 & Hk0 & Hanchor & Hleast); [apply Hlegal|].
  apply list_elem_of_split in Hanchor as Hsplit.
  destruct Hsplit as (as1 & as2 & Hsplit).
  remember (search_anchor (find_anchors sd)) as body eqn:Hbody.
  rewrite Hsplit in Hrun. subst body. rewrite for_each_app in Hrun.
  apply bind_Ok in Hrun as (s & Hfirst & Hrun). cbn [for_each] in Hrun.
  apply bind_Ok in Hrun as (s' & Hstep & Hlast).
  apply search_anchor_loop_grows in Hfirst as (newA & HgrowA).
  apply search_anchor_loop_grows in Hlast as (newB & HgrowB).
  assert (finds sd' st' (lays w start (Some dir))) as (new & m & Hmoves & Hm).
  { eapply finds_before; [exact HgrowA|].
    eapply finds_after; [|exact HgrowB].
    destruct HgrowA as ((Hdict & Hb & _ & Ht & Hd) & _ & Hr).
    assert (find_anchors s = find_anchors sd) as Hanchors.
    { by apply find_anchors_ext. }
    rewrite <- Hanchors in Hstep.
    replace (Some dir) with (direction s) in Hstep |- * by done.
    eapply search_anchor_complete; [by rewrite Hb|by rewrite Ht|
                                    |exact Hk0| |exact Hstep].
    - rewrite Hb, Hdict, Hd, Hanchors.
      eapply legal_placement_perm; [|exact Hlegal]. by rewrite Hr.
    - rewrite Hanchors, Hd. exact Hleast. }
  by exists new, m.
Qed.

(** The search records every legal placement of either direction. *)
Lemma find_all_options_complete (dir : Direction) (st st' : SolveState)
    (table : gmap pos (list letter)) (w : word) (start : pos) :
  board_ok (board st) →
  find_all_options st = Ok st' →
  cross_check (set_direction st (Some dir)) = Ok table →
  legal_placement (board st) (dictionary st) (Some dir) table
                  (find_anchors (set_direction st (Some dir))) (rack st)
                  w start →
  finds st st' (lays w start (Some dir)).
Proof.
  intros Hok Hrun Htable Hlegal. unfold find_all_options in Hrun.
  simpl in Hrun. apply bind_Ok in Hrun as (t & Hacross & Hrun).
  apply bind_Ok in Hrun as (t' & Hdown & [= <-]).
  pose proof (search_direction_sound _ _ _ Hacross)
    as (new1 & table1 & (Hdict1 & Hb1 & Href1) & Hmoves1 & Hr1 & _).
  pose proof (search_direction_sound _ _ _ Hdown)
    as (new2 & table2 & _ & Hmoves2 & _).
  destruct dir.
  - destruct (search_direction_complete across st t table w start)
      as (new & m & Hmoves & Hm & Hlays); [done..|].
    exists (new ++ new2), m. rewrite Hmoves2, Hmoves, app_assoc.
    split_and!; [done| |done]. apply elem_of_app. by left.
  - destruct (search_direction_complete down t t' table w start)
      as (new & m & Hmoves & Hm & Hlays); [by rewrite Hb1|done| | |].
    + rewrite <- Htable. by apply cross_check_ext.
    + rewrite Hb1, Hdict1.
      rewrite (find_anchors_ext (set_direction st (Some down))) by done.
      eapply legal_placement_perm; [|exact Hlegal]. by rewrite Hr1.
    + exists (new1 ++ new), m. rewrite Hmoves, Hmoves1, app_assoc.
      split_and!; [done| |done]. apply elem_of_app. by right.
Qed.

Lemma cross_ok_table (st : SolveState) (table : gmap pos (list letter))
    (p : pos) (l : letter) :
  board_ok (board st) →
  cross_check st = Ok table →
  is_empty (board st) p = true →
  cross_ok (board st) (dictionary st) (direction st) p l →
  ∃ legal, table !! p = Some legal ∧ l ∈ legal.
Proof.
  intros Hok Hrun Hempty [Hl Hcross].
  destruct (cross_check_Ok _ _ p Hrun)
    as [(_ & _ & rb & ra & Hrb & Hra & Hentry)|[[Hp|Hp] _]].
  - exists (legal_set (dictionary st) rb ra). split; [exact Hentry|].
    destruct (decide (rb = [] ∧ ra = [])) as [[-> ->]|Hruns].
    + by rewrite legal_set_nil.
    + apply legal_set_elem.
      * destruct rb, ra; [by destruct Hruns|right|left|left]; discriminate.
      * split; [exact Hl|]. apply Hcross; [exact Hrb|exact Hra|].
        destruct rb, ra; [by destruct Hruns|right|left|left]; discriminate.
  - exfalso. by apply Hp, empty_position.
  - apply empty_not_filled in Hempty; [congruence|done].
Qed.

Lemma playable_legal_placement (st : SolveState)
    (table : gmap pos (list letter)) (w : word) (start : pos) :
  board_ok (board st) →
  cross_check st = Ok table →
  playable (board st) (dictionary st) (rack st) (direction st) w start →
  legal_placement (board st) (dictionary st) (direction st) table
                  (find_anchors st) (rack st) w start.
Proof.
  intros Hok Hrun [Hword Hsq Hrack Hbefore Hafter (k & Hk & Hempty & Hnear)].
  split; [exact Hword| |exact Hrack|exact Hbefore|exact Hafter|].
  - intros j l Hj. destruct (Hsq j l Hj) as (Hin & Hcross & Htile).
    split_and!; [exact Hin| |exact Htile].
    intros Hfree. by eapply cross_ok_table; [| |exact Hfree|apply Hcross].
  - exists k. split; [exact Hk|]. apply find_anchors_elem.
    split_and!; [by apply empty_position|exact Hempty|exact Hnear].
Qed.

(** X9 — the search is complete.  On a board that keeps its contract, when
    [find_all_options] returns, every word that can be played records a
    move: a dictionary word laid across or down from a start square, whose
    squares are in bounds, whose letters agree with the tiles already on its
    squares, whose new letters are letters of the alphabet that fit the lines
    crossing them and are on the working rack together, with no tile just
    before its start or just after its end, and with at least one of its
    squares empty and next to a tile.  The list of found moves then holds a
    move with that word, start and direction. *)
Theorem playable_found (st st' : SolveState) (dir : Direction) (w : word)
    (start : pos) :
  board_ok (board st) →
  find_all_options st = Ok st' →
  playable (board st) (dictionary st) (rack st) (Some dir) w start →
  ∃ m : Move,
    m ∈ found_moves st' ∧
    move_word m = w ∧ move_start m = start ∧ move_direction m = Some dir.
Proof.
  intros Hok Hrun Hplay.
  destruct (cross_check_returns (set_direction st (Some dir)) Hok)
    as [table Htable].
  destruct (find_all_options_complete dir st st' table w start)
    as (new & m & Hmoves & Hm & Hlays); [exact Hok|exact Hrun|exact Htable| |].
  - by apply (playable_legal_placement (set_direction st (Some dir))).
  - exists m. split; [|exact Hlays].
    rewrite Hmoves. apply elem_of_app. by right.
Qed.

Lemma cross_ok_alone (b : Board) (dict : LetterTree) (d : option Direction)
    (p : pos) (l : letter) :
  l ∈ alphabet →
  is_filled b (before_cross d p) = false →
  is_filled b (after_cross d p) = false →
  cross_ok b dict d p l.
Proof.
  intros Hl Hb Ha. split; [exact Hl|].
  intros rb ra Hrb Hra Hruns. exfalso.
  inversion Hrb as [q Hb'|q t ts Hb' _ _]; subst; [|congruence].
  inversion Hra as [q Ha'|q t ts Ha' _ _]; subst; [|congruence].
  by destruct Hruns.
Qed.

Lemma cat_playable :
  playable one_tile_board cat_lexicon (W "at") (Some across) (W "cat") (2, 2).
Proof.
  split.
  - vm_compute. reflexivity.
  - intros [|[|[|k]]] l Hl; [| | |discriminate Hl]; injection Hl as <-.
    + split; [reflexivity|]. split.
      * intros Hfree. vm_compute in Hfree. discriminate Hfree.
      * intros _. vm_compute. reflexivity.
    + split; [reflexivity|]. split.
      * intros _.
        apply cross_ok_alone; [apply list_elem_of_In; vm_compute; tauto|..];
          vm_compute; reflexivity.
      * intros Hfree. vm_compute in Hfree. discriminate Hfree.
    + split; [reflexivity|]. split.
      * intros _.
        apply cross_ok_alone; [apply list_elem_of_In; vm_compute; tauto|..];
          vm_compute; reflexivity.
      * intros Hfree. vm_compute in Hfree. discriminate Hfree.
  - assert (placed_letters one_tile_board (Some across) (W "cat") (2, 2)
            = W "at") as -> by (vm_compute; reflexivity).
    reflexivity.
  - vm_compute. reflexivity.
  - vm_compute. reflexivity.
  - exists 1%nat. split; [simpl; lia|]. split; vm_compute; reflexivity.
Qed.

Lemma playable_found_witness :
  ∃ (st' : SolveState) (m : Move),
    find_all_options cat_state = Ok st' ∧
    m ∈ found_moves st' ∧
    move_word m = W "cat" ∧ move_start m = (2, 2) ∧
    move_direction m = Some across.
Proof.
  destruct cat_returns as [st' Hst'].
  destruct (playable_found cat_state st' across (W "cat") (2, 2)
              (grid_board_ok _ _ _) Hst' cat_playable) as [m Hm].
  exists st', m. exact (conj Hst' Hm).
Defined.

(** ** No move twice *)

Lemma elem_of_map {A B : Type} (f : A → B) (l : list A) (y : B) :
  y ∈ map f l ↔ ∃ x, x ∈ l ∧ y = f x.
Proof.
  rewrite list_elem_of_In, in_map_iff. split.
  - intros (x & <- & Hx). exists x. by rewrite list_elem_of_In.
  - intros (x & Hx & ->). exists x. by rewrite <- list_elem_of_In.
Qed.

Lemma NoDup_map_app {A B : Type} (f : A → B) (l k : list A) :
  NoDup (map f l) → NoDup (map f k) →
  (∀ x y, x ∈ l → y ∈ k → f x ≠ f y) →
  NoDup (map f (l ++ k)).
Proof.
  intros Hl Hk Hdiff. rewrite map_app. apply NoDup_app.
  split_and!; [exact Hl| |exact Hk].
  intros z (x & Hx & ->)%elem_of_map (y & Hy & Hxy)%elem_of_map.
  by eapply Hdiff.
Qed.

Lemma NoDup_map_finer {A B C : Type} (f : A → B) (g : A → C) (l : list A) :
  (∀ x y, g x = g y → f x = f y) →
  NoDup (map f l) → NoDup (map g l).
Proof.
  intros Hfg. induction l as [|a l IH]; simpl; [constructor|].
  intros [Ha Hl]%NoDup_cons. apply NoDup_cons. split; [|by apply IH].
  intros (y & Hy & Heq)%elem_of_map. apply Ha, elem_of_map.
  exists y. split; [done|]. by apply Hfg.
Qed.

Lemma prefix_snoc_inj (pw w : word) (l l' : letter) :
  (pw ++ [l]) `prefix_of` w → (pw ++ [l']) `prefix_of` w → l = l'.
Proof.
  intros [k ->] [k' Heq]. rewrite <- !app_assoc in Heq.
  apply app_inv_head in Heq. by injection Heq.
Qed.

Lemma prefix_snoc_longer (pw : word) (l : letter) :
  ¬ (pw ++ [l]) `prefix_of` pw.
Proof.
  intros Hpre%prefix_length. rewrite length_app in Hpre. simpl in Hpre. lia.
Qed.

Lemma extend_after_step_words pw p l child t t' :
  (∀ pw' p' af' s s',
     extend_after child pw' p' af' s = Ok s' → ext_words pw' s s') →
  extend_after_step pw p (l, extend_after child) t = Ok t' →
  ext_words (pw ++ [l]) t t'.
Proof.
  intros IH Hstep. unfold extend_after_step in Hstep.
  assert (ext_words (pw ++ [l]) t t) as Hskip.
  { exists []. rewrite app_nil_r. split_and!; [done|constructor|constructor]. }
  case_bool_decide; [|by injection Hstep as <-].
  apply bind_Ok in Hstep as (legal & _ & Hstep).
  case_bool_decide; [|by injection Hstep as <-].
  apply bind_Ok in Hstep as (rack' & _ & Hstep).
  apply bind_Ok in Hstep as (t2 & Hcall & [= <-]).
  apply IH in Hcall as (new & Hmoves & Hnew). by exists new.
Qed.

Lemma extend_after_loop_words pw p (cs : list (letter * LetterTreeNode)) :
  Forall (λ kc, ∀ pw' p' af' s s',
            extend_after kc.2 pw' p' af' s = Ok s' → ext_words pw' s s') cs →
  NoDup (map fst cs) →
  ∀ t t',
    for_each cs (λ kc, extend_after_step pw p (kc.1, extend_after kc.2)) t
    = Ok t' →
    ∃ new,
      found_moves t' = found_moves t ++ new ∧
      NoDup (map move_word new) ∧
      Forall (λ m, ∃ l, l ∈ map fst cs ∧ (pw ++ [l]) `prefix_of` move_word m)
             new.
Proof.
  induction cs as [|[l child] cs IHcs]; intros IH Hkeys t t' Hrun.
  - injection Hrun as <-. exists []. rewrite app_nil_r.
    split_and!; [done|constructor|constructor].
  - apply Forall_cons in IH as [IHchild IH].
    simpl in Hkeys. apply NoDup_cons in Hkeys as [Hl Hkeys].
    cbn [for_each] in Hrun. apply bind_Ok in Hrun as (t1 & Hstep & Hrun).
    simpl in Hstep.
    apply (extend_after_step_words _ _ _ _ _ _ IHchild) in Hstep
      as (new1 & Hmoves1 & Hdup1 & Hpre1).
    destruct (IHcs IH Hkeys _ _ Hrun) as (new2 & Hmoves2 & Hdup2 & Hpre2).
    exists (new1 ++ new2). split_and!.
    + by rewrite Hmoves2, Hmoves1, app_assoc.
    + apply NoDup_map_app; [done..|].
      intros m1 m2 Hm1 Hm2 Heq.
      rewrite Forall_forall in Hpre1, Hpre2.
      destruct (Hpre2 m2 Hm2) as (l2 & Hl2 & Hw2).
      pose proof (Hpre1 m1 Hm1) as Hw1. rewrite Heq in Hw1.
      by rewrite (prefix_snoc_inj _ _ _ _ Hw1 Hw2) in Hl.
    + apply Forall_app. split.
      * eapply Forall_impl; [exact Hpre1|]. intros m Hm. exists l.
        split; [simpl; left|done].
      * eapply Forall_impl; [exact Hpre2|]. intros m (l2 & Hl2 & Hm).
        exists l2. split; [simpl; by right|done].
Qed.

Lemma extend_after_words node :
  unique_keys node = true →
  ∀ pw p af st st',
    extend_after node pw p af st = Ok st' → ext_words pw st st'.
Proof.
  induction node as [isw cs IH] using LetterTreeNode_children_ind.
  intros [Hkeys Hcs]%unique_keys_Node pw p af st st' Hrun.
  assert (Forall (λ kc, ∀ pw' p' af' s s',
                    extend_after kc.2 pw' p' af' s = Ok s' →
                    ext_words pw' s s') cs) as IH'.
  { rewrite Forall_forall in IH |- *. intros [k c] Hkc. apply IH; [done|].
    by eapply Hcs. }
  simpl in Hrun. apply bind_Ok in Hrun as (st1 & Hrec & Hrun).
  assert (∃ new0, found_moves st1 = found_moves st ++ new0 ∧
                  board st1 = board st ∧
                  Forall (λ m, move_word m = pw) new0 ∧
                  (length new0 ≤ 1)%nat) as (new0 & Hmoves0 & Hb & Hpw & Hlen).
  { destruct (negb (is_filled (board st) p) && isw && af).
    - apply legal_move_Ok in Hrec as (m & -> & Hm%recorded_fields).
      exists [m]. split_and!; [done..| |simpl; lia].
      constructor; [|constructor]. apply Hm.
    - injection Hrec as <-. exists []. rewrite app_nil_r.
      split_and!; [done..|constructor|simpl; lia]. }
  assert (NoDup (map move_word new0)) as Hdup0.
  { destruct new0 as [|m [|m' new0]]; simpl in Hlen |- *; [constructor| |lia].
    apply NoDup_singleton. }
  assert (∀ new1,
            found_moves st' = found_moves st1 ++ new1 →
            NoDup (map move_word new1) →
            Forall (λ m, ∃ l, (pw ++ [l]) `prefix_of` move_word m) new1 →
            ext_words pw st st') as Hjoin.
  { intros new1 Hmoves1 Hdup1 Hpre1. exists (new0 ++ new1). split_and!.
    - by rewrite Hmoves1, Hmoves0, app_assoc.
    - apply NoDup_map_app; [done..|].
      intros m0 m1 Hm0 Hm1 Heq. rewrite Forall_forall in Hpw, Hpre1.
      destruct (Hpre1 m1 Hm1) as (l & Hl).
      rewrite <- Heq, (Hpw m0 Hm0) in Hl. by apply prefix_snoc_longer in Hl.
    - apply Forall_app. split.
      + eapply Forall_impl; [exact Hpw|]. by intros m ->.
      + eapply Forall_impl; [exact Hpre1|]. intros m (l & Hl).
        etrans; [|exact Hl]. by apply prefix_app_r. }
  assert (ext_words pw st st1) as Hstop.
  { exists new0. split_and!; [done..|].
    eapply Forall_impl; [exact Hpw|]. by intros m ->. }
  rewrite Hb in Hrun.
  destruct (in_bounds (board st) p); [|by injection Hrun as <-].
  destruct (is_empty (board st) p).
  - rewrite for_each_map in Hrun.
    destruct (extend_after_loop_words pw p cs IH' Hkeys _ _ Hrun)
      as (new1 & Hmoves1 & Hdup1 & Hpre1).
    apply (Hjoin new1); [done..|].
    eapply Forall_impl; [exact Hpre1|]. intros m (l & _ & Hl). by exists l.
  - destruct (get_tile (board st) p) as [l|]; [|by injection Hrun as <-].
    rewrite child_of_map in Hrun.
    destruct (child_of l cs) as [child|] eqn:Hchild; simpl in Hrun;
      [|by injection Hrun as <-].
    rewrite Forall_forall in IH'.
    apply (IH' (l, child)) in Hrun as (new1 & Hmoves1 & Hdup1 & Hpre1);
      [|by apply child_of_Some_elem].
    apply (Hjoin new1); [done..|].
    eapply Forall_impl; [exact Hpre1|]. intros m Hm. by exists l.
Qed.

Lemma along_inj (d : option Direction) (j k : Z) (p : pos) :
  along d j p = along d k p → j = k.
Proof.
  destruct p as [row col]. unfold along.
  destruct d as [[]|]; simpl; intros [=]; lia.
Qed.

(** Where a move of [before_part] starts and how its word begins. *)
Lemma part_move_key b d table ref node pw anchor limit r m :
  part_move b d table ref node pw anchor limit r m →
  pw `prefix_of` move_word m ∧
  ∃ n : nat, (length pw ≤ n)%nat ∧
             move_start m = along d (- Z.of_nat n) anchor.
Proof.
  intros (pre & n1 & r1 & _ & _ & Hm).
  apply extension_move_start in Hm as (w & _ & -> & _ & ->). split.
  - rewrite <- app_assoc. by apply prefix_app_r.
  - exists (length (pw ++ pre)). split; [rewrite length_app; lia|done].
Qed.

Lemma before_part_step_keys pw anchor limit l child t t' :
  (∀ pw' limit' s s',
     before_part child pw' anchor limit' s = Ok s' → part_keys s s') →
  before_part_step pw anchor limit (l, before_part child) t = Ok t' →
  ∃ new,
    found_moves t' = found_moves t ++ new ∧
    NoDup (map move_key new) ∧
    Forall (λ m, (pw ++ [l]) `prefix_of` move_word m ∧
                 ∃ n : nat, (length pw < n)%nat ∧
                   move_start m = along (direction t) (- Z.of_nat n) anchor)
           new.
Proof.
  intros IH Hstep. unfold before_part_step in Hstep.
  assert (∃ new : list Move,
            found_moves t = found_moves t ++ new ∧
            NoDup (map move_key new) ∧
            Forall (λ m, (pw ++ [l]) `prefix_of` move_word m ∧
                         ∃ n : nat, (length pw < n)%nat ∧
                           move_start m
                           = along (direction t) (- Z.of_nat n) anchor)
                   new) as Hskip.
  { exists []. rewrite app_nil_r. split_and!; [done|constructor|constructor]. }
  case_bool_decide; [|by injection Hstep as <-].
  apply bind_Ok in Hstep as (rack' & _ & Hstep).
  apply bind_Ok in Hstep as (t2 & Hcall & [= <-]).
  pose proof (before_part_sound _ _ _ _ _ _ Hcall)
    as (new' & (_ & Hmoves' & _) & Hnew').
  apply IH in Hcall as (new & Hmoves & Hdup).
  rewrite Hmoves in Hmoves'. apply app_inv_head in Hmoves' as <-.
  exists new. split_and!; [done..|].
  eapply Forall_impl; [exact Hnew'|]. intros m Hm. simpl in Hm.
  apply part_move_key in Hm as (Hpre & n & Hn & Hstart).
  split; [done|]. exists n. rewrite length_app in Hn. simpl in Hn.
  split; [lia|done].
Qed.

Lemma before_part_loop_keys pw anchor limit
    (cs : list (letter * LetterTreeNode)) :
  Forall (λ kc, ∀ pw' limit' s s',
            before_part kc.2 pw' anchor limit' s = Ok s' → part_keys s s')
         cs →
  NoDup (map fst cs) →
  ∀ t t',
    for_each cs
      (λ kc, before_part_step pw anchor limit (kc.1, before_part kc.2)) t
    = Ok t' →
    ∃ new,
      found_moves t' = found_moves t ++ new ∧
      NoDup (map move_key new) ∧
      Forall (λ m, (∃ l, l ∈ map fst cs ∧
                         (pw ++ [l]) `prefix_of` move_word m) ∧
                   ∃ n : nat, (length pw < n)%nat ∧
                     move_start m = along (direction t) (- Z.of_nat n) anchor)
             new.
Proof.
  induction cs as [|[l child] cs IHcs]; intros IH Hkeys t t' Hrun.
  - injection Hrun as <-. exists []. rewrite app_nil_r.
    split_and!; [done|constructor|constructor].
  - apply Forall_cons in IH as [IHchild IH].
    simpl in Hkeys. apply NoDup_cons in Hkeys as [Hl Hkeys].
    cbn [for_each] in Hrun. apply bind_Ok in Hrun as (t1 & Hstep & Hrun).
    simpl in Hstep.
    pose proof (before_part_step_grows _ _ _ _ _ _ _ Hstep)
      as (new0 & (_ & _ & _ & _ & Hd) & _).
    apply (before_part_step_keys _ _ _ _ _ _ _ IHchild) in Hstep
      as (new1 & Hmoves1 & Hdup1 & Hpre1).
    destruct (IHcs IH Hkeys _ _ Hrun) as (new2 & Hmoves2 & Hdup2 & Hpre2).
    rewrite Hd in Hpre2.
    exists (new1 ++ new2). split_and!.
    + by rewrite Hmoves2, Hmoves1, app_assoc.
    + apply NoDup_map_app; [done..|].
      intros m1 m2 Hm1 Hm2 [= Hword _ _].
      rewrite Forall_forall in Hpre1, Hpre2.
      destruct (Hpre2 m2 Hm2) as ((l2 & Hl2 & Hw2) & _).
      destruct (Hpre1 m1 Hm1) as (Hw1 & _). rewrite Hword in Hw1.
      by rewrite (prefix_snoc_inj _ _ _ _ Hw1 Hw2) in Hl.
    + apply Forall_app. split.
      * eapply Forall_impl; [exact Hpre1|]. intros m [Hm Hn].
        split; [|done]. exists l. split; [simpl; left|done].
      * eapply Forall_impl; [exact Hpre2|]. intros m [(l2 & Hl2 & Hm) Hn].
        split; [|done]. exists l2. split; [simpl; by right|done].
Qed.

Lemma extend_after_keys node pw p st st' :
  unique_keys node = true →
  extend_after node pw p false st = Ok st' →
  ∃ new,
    found_moves st' = found_moves st ++ new ∧
    direction st' = direction st ∧
    NoDup (map move_key new) ∧
    Forall (λ m, move_start m
                 = along (direction st) (- Z.of_nat (length pw)) p) new.
Proof.
  intros Hkeys Hrun.
  pose proof (extend_after_sound _ _ _ _ _ _ Hrun)
    as (new' & ((_ & _ & _ & _ & Hd) & Hmoves' & _) & Hnew').
  apply (extend_after_words _ Hkeys) in Hrun as (new & Hmoves & Hdup & _).
  rewrite Hmoves in Hmoves'. apply app_inv_head in Hmoves' as <-.
  exists new. split_and!; [done..| |].
  - eapply NoDup_map_finer; [|exact Hdup]. by intros m1 m2 [= ? _ _].
  - eapply Forall_impl; [exact Hnew'|]. intros m Hm.
    by apply extension_move_start in Hm as (w & _ & _ & _ & ->).
Qed.

Lemma before_part_keys node :
  unique_keys node = true →
  ∀ pw anchor limit st st',
    before_part node pw anchor limit st = Ok st' → part_keys st st'.
Proof.
  induction node as [isw cs IH] using LetterTreeNode_children_ind.
  intros Hnode pw anchor limit st st' Hrun.
  pose proof Hnode as [Hkeys Hcs]%unique_keys_Node.
  assert (Forall (λ kc, ∀ pw' limit' s s',
                    before_part kc.2 pw' anchor limit' s = Ok s' →
                    part_keys s s') cs) as IH'.
  { rewrite Forall_forall in IH |- *. intros [k c] Hkc pw' limit'.
    apply IH; [done|]. by eapply Hcs. }
  rewrite before_part_eq in Hrun.
  apply bind_Ok in Hrun as (st1 & Hhere & Hrun).
  apply (extend_after_keys _ _ _ _ _ Hnode) in Hhere
    as (new0 & Hmoves0 & Hd & Hdup0 & Hstart0).
  destruct (0 <? limit)%nat; [|injection Hrun as <-; by exists new0].
  cbn [children] in Hrun. rewrite for_each_map in Hrun.
  destruct (before_part_loop_keys pw anchor limit cs IH' Hkeys _ _ Hrun)
    as (new1 & Hmoves1 & Hdup1 & Hpre1).
  exists (new0 ++ new1). split.
  - by rewrite Hmoves1, Hmoves0, app_assoc.
  - apply NoDup_map_app; [done..|].
    intros m0 m1 Hm0 Hm1 [= _ Hstart _].
    rewrite Forall_forall in Hstart0, Hpre1.
    destruct (Hpre1 m1 Hm1) as (_ & n & Hn & Hs1).
    rewrite <- Hstart, (Hstart0 m0 Hm0), Hd in Hs1.
    apply along_inj in Hs1. lia.
Qed.

Lemma search_anchor_keys anchors anchor st st' :
  unique_keys (root (dictionary st)) = true →
  search_anchor anchors anchor st = Ok st' → part_keys st st'.
Proof.
  intros Hkeys. unfold search_anchor.
  destruct (is_filled (board st) (before (direction st) anchor)).
  - intros (first & _ & Hrun)%bind_Ok.
    apply bind_Ok in Hrun as (pw & _ & Hrun).
    destruct (lookup (dictionary st) pw) as [node|] eqn:Hnode.
    + apply lookup_from_unique_keys in Hnode; [|done].
      apply (extend_after_keys _ _ _ _ _ Hnode) in Hrun
        as (new & Hmoves & _ & Hdup & _).
      by exists new.
    + injection Hrun as <-. exists []. rewrite app_nil_r.
      split; [done|constructor].
  - intros (limit & _ & Hrun)%bind_Ok. by eapply before_part_keys.
Qed.

Lemma first_anchor_unique d anchors a1 a2 m1 m2 :
  first_anchor d anchors a1 m1 → first_anchor d anchors a2 m2 →
  move_start m1 = move_start m2 → a1 = a2.
Proof.
  intros (Ha1 & _ & n1 & Hs1 & Hfree1) (Ha2 & _ & n2 & Hs2 & Hfree2) Hstart.
  rewrite Hs1, Hs2 in Hstart.
  assert (a1 = along d (Z.of_nat n1 - Z.of_nat n2) a2) as Ha.
  { apply (f_equal (along d (Z.of_nat n1))) in Hstart.
    rewrite !along_along in Hstart.
    replace (- Z.of_nat n1 + Z.of_nat n1) with 0 in Hstart by lia.
    rewrite along_0 in Hstart. rewrite Hstart. f_equal. lia. }
  destruct (decide (n1 = n2)) as [->|Hne].
  - rewrite Ha. replace (Z.of_nat n2 - Z.of_nat n2) with 0 by lia.
    apply along_0.
  - exfalso. destruct (decide (n1 < n2)%nat) as [Hlt|Hge].
    + apply (Hfree2 (n2 - n1)%nat); [lia|].
      replace (- Z.of_nat (n2 - n1)) with (Z.of_nat n1 - Z.of_nat n2) by lia.
      by rewrite <- Ha.
    + apply (Hfree1 (n1 - n2)%nat); [lia|].
      rewrite Ha, along_along.
      replace (Z.of_nat n1 - Z.of_nat n2 + - Z.of_nat (n1 - n2)) with 0
        by lia.
      by rewrite along_0.
Qed.

Lemma anchor_move_first b dict d table anchors ref r anchor m :
  board_ok b →
  (∀ q, q ∈ anchors → is_empty b q = true) →
  anchor ∈ anchors →
  anchor_move b dict d table anchors ref r anchor m →
  first_anchor d anchors anchor m.
Proof.
  intros Hok Hempty Hanchor
    [(_ & ts & node & Hrun & _ & Hm)
    |(_ & limit & Hfree & pre & n1 & r1 & _ & Hlen & Hm)];
    apply extension_move_start in Hm as (w & _ & _ & Hd & Hstart);
    (split; [exact Hanchor|split; [exact Hd|]]).
  - exists (length (rev ts)). split; [exact Hstart|].
    intros i Hi Hin. rewrite length_rev in Hi.
    apply (run_filled b d _ _ i Hrun) in Hi.
    apply Hempty, empty_not_filled in Hin; [congruence|done].
  - exists (length ([] ++ pre)). split; [exact Hstart|].
    intros i Hi. simpl in Hi. apply Hfree. lia.
Qed.

Lemma find_anchors_NoDup (st : SolveState) :
  NoDup (all_positions (board st)) → NoDup (find_anchors st).
Proof.
  unfold find_anchors. rewrite foldl_append_filter. simpl.
  induction (all_positions (board st)) as [|p ps IH]; simpl; [done|].
  intros [Hp Hps]%NoDup_cons.
  destruct (is_empty (board st) p && neighbor_filled (board st) (direction st) p);
    [|by apply IH].
  apply NoDup_cons. split; [|by apply IH].
  rewrite list_elem_of_In, filter_In, <- list_elem_of_In. by intros [? _].
Qed.

Lemma search_anchor_loop_keys (anchors xs : list pos) :
  NoDup xs →
  (∀ x, x ∈ xs → x ∈ anchors) →
  ∀ t t',
    board_ok (board t) →
    unique_keys (root (dictionary t)) = true →
    (∀ q, q ∈ anchors → is_empty (board t) q = true) →
    for_each xs (search_anchor anchors) t = Ok t' →
    ∃ new,
      found_moves t' = found_moves t ++ new ∧
      NoDup (map move_key new) ∧
      Forall (λ m, ∃ a, a ∈ xs ∧ first_anchor (direction t) anchors a m) new.
Proof.
  induction xs as [|x xs IH]; intros Hdup Hsub t t' Hok Hkeys Hempty Hrun.
  - injection Hrun as <-. exists []. rewrite app_nil_r.
    split_and!; [done|constructor|constructor].
  - apply NoDup_cons in Hdup as [Hx Hdup].
    cbn [for_each] in Hrun. apply bind_Ok in Hrun as (t1 & Hstep & Hrun).
    pose proof (search_anchor_sound _ _ _ _ Hstep)
      as (new' & ((Hdict & Hb & _ & _ & Hd) & Hmoves' & _) & Hnew').
    apply (search_anchor_keys _ _ _ _ Hkeys) in Hstep
      as (new1 & Hmoves1 & Hdup1).
    rewrite Hmoves1 in Hmoves'. apply app_inv_head in Hmoves' as <-.
    destruct (IH Hdup (λ y Hy, Hsub y (list_elem_of_further _ _ _ Hy)) t1 t')
      as (new2 & Hmoves2 & Hdup2 & Hnew2);
      [by rewrite Hb|by rewrite Hdict|by rewrite Hb|exact Hrun|].
    rewrite Hd in Hnew2.
    assert (Forall (first_anchor (direction t) anchors x) new1) as Hfirst.
    { eapply Forall_impl; [exact Hnew'|]. intros m Hm.
      eapply anchor_move_first; [exact Hok|exact Hempty| |exact Hm].
      apply Hsub. left. }
    exists (new1 ++ new2). split_and!.
    + by rewrite Hmoves2, Hmoves1, app_assoc.
    + apply NoDup_map_app; [done..|].
      intros m1 m2 Hm1 Hm2 [= _ Hstart _].
      rewrite Forall_forall in Hfirst, Hnew2.
      destruct (Hnew2 m2 Hm2) as (a & Ha & Hm2').
      by rewrite (first_anchor_unique _ _ _ _ _ _ (Hfirst m1 Hm1) Hm2' Hstart)
        in Hx.
    + apply Forall_app. split.
      * eapply Forall_impl; [exact Hfirst|]. intros m Hm. exists x.
        split; [left|done].
      * eapply Forall_impl; [exact Hnew2|]. intros m (a & Ha & Hm).
        exists a. split; [by right|done].
Qed.

Lemma search_direction_keys (dir : Direction) (st st' : SolveState) :
  board_ok (board st) →
  unique_keys (root (dictionary st)) = true →
  NoDup (all_positions (board st)) →
  search_direction dir st = Ok st' →
  ∃ new,
    found_moves st' = found_moves st ++ new ∧
    NoDup (map move_key new) ∧
    Forall (λ m, move_direction m = Some dir) new.
Proof.
  intros Hok Hkeys Hdup. unfold search_direction.
  intros (table & _ & Hrun)%bind_Ok.
  apply search_anchor_loop_keys in Hrun as (new & Hmoves & Hnew & Hfirst);
    [|by apply find_anchors_NoDup|done..|].
  - exists new. split_and!; [done..|].
    eapply Forall_impl; [exact Hfirst|]. by intros m (a & _ & _ & Hd & _).
  - by intros q (_ & Hq & _)%find_anchors_elem.
Qed.

Lemma find_all_options_keys (st st' : SolveState) :
  board_ok (board st) →
  unique_keys (root (dictionary st)) = true →
  NoDup (all_positions (board st)) →
  find_all_options st = Ok st' →
  ∃ new,
    found_moves st' = found_moves st ++ new ∧ NoDup (map move_key new).
Proof.
  intros Hok Hkeys Hdup Hrun. unfold find_all_options in Hrun.
  simpl in Hrun. apply bind_Ok in Hrun as (t & Hacross & Hrun).
  apply bind_Ok in Hrun as (t' & Hdown & [= <-]).
  pose proof (search_direction_sound _ _ _ Hacross)
    as (_ & _ & (Hdict & Hb & _) & _).
  apply search_direction_keys in Hacross as (new1 & Hmoves1 & Hdup1 & Hd1);
    [|done..].
  apply search_direction_keys in Hdown as (new2 & Hmoves2 & Hdup2 & Hd2);
    [|by rewrite ?Hb, ?Hdict..].
  exists (new1 ++ new2). split.
  - by rewrite Hmoves2, Hmoves1, app_assoc.
  - apply NoDup_map_app; [done..|].
    intros m1 m2 Hm1 Hm2 [= _ _ Hd].
    rewrite Forall_forall in Hd1, Hd2.
    rewrite (Hd1 m1 Hm1), (Hd2 m2 Hm2) in Hd. discriminate Hd.
Qed.

Lemma lookup_map {A B : Type} (f : A → B) (l : list A) (i : nat) :
  map f l !! i = f <$> l !! i.
Proof.
  revert i. induction l as [|a l IH]; intros [|i]; simpl; [done..|apply IH].
Qed.

(** X10 — no move is found twice.  On a board that keeps its contract and
    lists each position once, with a lexicon whose nodes have unique keys:
    two entries of the list [find_all_options] builds from the initial state
    that agree in word, start and direction are one and the same entry. *)
Theorem found_moves_distinct (dict : LetterTree) (b : Board)
    (rack0 : list letter) (st' : SolveState) :
  board_ok b →
  unique_keys (root dict) = true →
  NoDup (all_positions b) →
  find_all_options (init dict b rack0) = Ok st' →
  ∀ (i j : nat) (m1 m2 : Move),
    found_moves st' !! i = Some m1 →
    found_moves st' !! j = Some m2 →
    move_word m1 = move_word m2 →
    move_start m1 = move_start m2 →
    move_direction m1 = move_direction m2 →
    i = j.
Proof.
  intros Hok Hkeys Hdup Hrun.
  apply find_all_options_keys in Hrun as (new & Hmoves & Hnew); [|done..].
  simpl in Hmoves. subst new.
  intros i j m1 m2 Hi Hj Hword Hstart Hdir.
  apply (proj1 (NoDup_alt _) Hnew i j (move_key m1)).
  - by rewrite lookup_map, Hi.
  - rewrite lookup_map, Hj. simpl. unfold move_key. congruence.
Qed.

Lemma found_moves_distinct_witness :
  ∃ st',
    find_all_options cat_state = Ok st' ∧
    ∀ (i j : nat) (m1 m2 : Move),
      found_moves st' !! i = Some m1 →
      found_moves st' !! j = Some m2 →
      move_word m1 = move_word m2 →
      move_start m1 = move_start m2 →
      move_direction m1 = move_direction m2 →
      i = j.
Proof.
  destruct cat_returns as [st' Hst'].
  exists st'. split; [exact Hst'|].
  apply (found_moves_distinct cat_lexicon one_tile_board (W "at") st').
  - apply grid_board_ok.
  - vm_compute. reflexivity.
  - apply (bool_decide_unpack (NoDup (all_positions one_tile_board))).
    vm_compute. exact I.
  - exact Hst'.
Defined.

(** ** The opponent model *)

Lemma tile_count_app tile xs ys :
  tile_count tile (xs ++ ys) = (tile_count tile xs + tile_count tile ys)%nat.
Proof. unfold tile_count. by rewrite filter_app, length_app. Qed.

Lemma tile_count_cons tile x xs :
  tile_count tile (x :: xs)
  = ((if decide (x = tile) then 1 else 0) + tile_count tile xs)%nat.
Proof. unfold tile_count. rewrite filter_cons. by case_decide. Qed.

Lemma tile_count_replicate tile x (n : nat) :
  tile_count tile (replicate n x) = if decide (x = tile) then n else 0%nat.
Proof.
  induction n as [|n IH]; simpl; [by case_decide|].
  rewrite tile_count_cons, IH. by case_decide.
Qed.

Lemma tile_count_submseteq tile xs ys :
  xs ⊆+ ys → (tile_count tile xs ≤ tile_count tile ys)%nat.
Proof.
  induction 1 as [|x xs ys _ IH|x y xs|x xs ys _ IH|xs ys zs _ IH1 _ IH2];
    rewrite ?tile_count_cons; lia.
Qed.

Lemma dist_set_keys tile_dist tile count :
  map fst (dist_set tile_dist tile count) = map fst tile_dist.
Proof.
  induction tile_dist as [|[key old] rest IH]; simpl; [done|].
  case_decide; simpl; [done|by rewrite IH].
Qed.

Lemma dist_count_set tile_dist tile count l :
  is_Some (dist_count tile_dist tile) →
  dist_count (dist_set tile_dist tile count) l
  = if decide (l = tile) then Some count else dist_count tile_dist l.
Proof.
  induction tile_dist as [|[key old] rest IH]; simpl; [by intros [? [=]]|].
  intros Hsome. destruct (decide (key = tile)) as [->|Hkey]; simpl.
  - destruct (decide (tile = l)) as [->|Hl]; [by rewrite decide_True|].
    by rewrite decide_False.
  - destruct (decide (key = l)) as [->|Hl]; [by rewrite decide_False|].
    by apply IH.
Qed.

Lemma take_tile_keys tile_dist tile :
  map fst (take_tile tile_dist tile) = map fst tile_dist.
Proof.
  unfold take_tile. destruct (dist_count tile_dist tile); [|done].
  destruct (0 <? _); [apply dist_set_keys|done].
Qed.

Lemma dist_count_take tile_dist tile l :
  dist_count (take_tile tile_dist tile) l
  = if decide (l = tile)
    then (λ count, if 0 <? count then count - 1 else count)
           <$> dist_count tile_dist l
    else dist_count tile_dist l.
Proof.
  unfold take_tile.
  destruct (dist_count tile_dist tile) as [count|] eqn:Hcount.
  - destruct (0 <? count) eqn:Hpos.
    + rewrite dist_count_set by (by rewrite Hcount).
      case_decide as Hl; [|done]. subst l. by rewrite Hcount; simpl; rewrite Hpos.
    + case_decide as Hl; [|done]. subst l. by rewrite Hcount; simpl; rewrite Hpos.
  - case_decide as Hl; [|done]. subst l. by rewrite Hcount.
Qed.

Lemma dist_count_seen (seen : list letter) tile_dist l :
  dist_count (foldl take_tile tile_dist seen) l
  = left_of (tile_count l seen) <$> dist_count tile_dist l.
Proof.
  revert tile_dist. induction seen as [|tile seen IH]; intros tile_dist; simpl.
  - destruct (dist_count tile_dist l) as [count|]; simpl; [|done].
    f_equal. unfold left_of. destruct (count <=? 0) eqn:Hc; [done|].
    apply Z.leb_gt in Hc. change (tile_count l []) with 0%nat. lia.
  - rewrite IH, dist_count_take, tile_count_cons.
    destruct (decide (tile = l)) as [->|Hne].
    + rewrite decide_True by done.
      destruct (dist_count tile_dist l) as [count|]; simpl; [|done].
      f_equal. unfold left_of.
      destruct (Z.ltb_spec 0 count), (Z.leb_spec count 0); try lia.
      destruct (Z.leb_spec (count - 1) 0); lia.
    + rewrite decide_False by done. done.
Qed.

Lemma board_phase (b : Board) (ps : list pos) tile_dist :
  foldl (λ tile_dist pos,
           match get_tile b pos with
           | Some tile => take_tile tile_dist tile
           | None => tile_dist
           end) tile_dist ps
  = foldl take_tile tile_dist (omap (get_tile b) ps).
Proof.
  revert tile_dist. induction ps as [|p ps IH]; intros tile_dist; simpl;
    [done|].
  rewrite IH. by destruct (get_tile b p).
Qed.

Lemma write_out (tile_dist : tile_distribution) (acc : list letter) :
  foldl (λ remaining '(tile, count),
           remaining ++ replicate (Z.to_nat count) tile) acc tile_dist
  = acc ++ flat_map (λ '(tile, count), replicate (Z.to_nat count) tile)
                    tile_dist.
Proof.
  revert acc. induction tile_dist as [|[tile count] rest IH]; intros acc;
    simpl; [by rewrite app_nil_r|].
  by rewrite IH, <- app_assoc.
Qed.

Lemma tile_count_written (tile_dist : tile_distribution) (l : letter) :
  NoDup (map fst tile_dist) →
  tile_count l (flat_map (λ '(tile, count), replicate (Z.to_nat count) tile)
                         tile_dist)
  = Z.to_nat (default 0 (dist_count tile_dist l)).
Proof.
  induction tile_dist as [|[tile count] rest IH]; simpl; [done|].
  intros [Hkey Hrest]%NoDup_cons.
  rewrite tile_count_app, tile_count_replicate, IH by done.
  destruct (decide (tile = l)) as [->|Hne]; [|done].
  assert (dist_count rest l = None) as ->; [|simpl; lia].
  clear -Hkey. induction rest as [|[key c] rest IH]; simpl; [done|].
  destruct (decide (key = l)) as [->|Hne].
  - exfalso. apply Hkey. simpl. left.
  - apply IH. intros Hin. apply Hkey. simpl. by right.
Qed.

Lemma remaining_tiles_count (tile_distribution0 : tile_distribution)
    (b : Board) (rack my_used_tiles : list letter) (l : letter) :
  NoDup (map fst tile_distribution0) →
  tile_count l (remaining_tiles tile_distribution0 b rack my_used_tiles)
  = Z.to_nat (default 0 (dist_count tile_distribution0 l)
              - Z.of_nat (tile_count l (seen_tiles b rack my_used_tiles))).
Proof.
  intros Hkeys. unfold remaining_tiles, seen_tiles.
  rewrite write_out, board_phase, <- !foldl_app. simpl.
  rewrite tile_count_written.
  - rewrite dist_count_seen.
    destruct (dist_count tile_distribution0 l) as [count|]; simpl; [|lia].
    unfold left_of. destruct (count <=? 0) eqn:Hc;
      [apply Z.leb_le in Hc|apply Z.leb_gt in Hc]; lia.
  - revert Hkeys. generalize tile_distribution0.
    induction (_ ++ _ ++ _) as [|tile seen IH]; intros dist Hdist; simpl;
      [done|].
    apply IH. by rewrite take_tile_keys.
Qed.

(** X11 — the simulated opponent rack.  For a distribution with one entry
    per tile, a rack [_simulate_opponent_rack] can return has at most seven
    tiles, and it holds no tile more often than the distribution has it
    after the tiles on the board, the tiles of the own rack and the tiles of
    the planned move are taken away (the last are counted twice when they are
    still on the own rack). *)
Theorem simulated_rack_bound (tile_distribution0 : tile_distribution)
    (b : Board) (rack my_used_tiles out : list letter) :
  NoDup (map fst tile_distribution0) →
  _simulate_opponent_rack tile_distribution0 b rack my_used_tiles out →
  (length out ≤ 7)%nat ∧
  ∀ l : letter,
    (tile_count l out
     ≤ Z.to_nat (default 0%Z (dist_count tile_distribution0 l)
                 - Z.of_nat (tile_count l (seen_tiles b rack my_used_tiles)))%Z
    )%nat.
Proof.
  intros Hkeys Hout. unfold _simulate_opponent_rack in Hout.
  assert (out ⊆+ remaining_tiles tile_distribution0 b rack my_used_tiles ∧
          (length out ≤ 7)%nat) as [Hsub Hlen].
  { destruct (remaining_tiles _ _ _ _) as [|tile tiles];
      cbv beta zeta iota in Hout.
    - subst out. split; [done|simpl; lia].
    - destruct Hout as [Hlen Hsub]. split; [done|]. rewrite Hlen.
      apply Nat.le_min_l. }
  split; [exact Hlen|]. intros l.
  rewrite <- remaining_tiles_count by done.
  by apply tile_count_submseteq.
Qed.

Lemma simulated_rack_bound_witness :
  (length (W "ta") ≤ 7)%nat ∧
  ∀ l : letter,
    (tile_count l (W "ta")
     ≤ Z.to_nat
         (default 0%Z
            (dist_count [("a"%char, 2); ("c"%char, 1); ("t"%char, 1)]%Z l)
          - Z.of_nat (tile_count l (seen_tiles one_tile_board (W "a") [])))%Z
    )%nat.
Proof.
  apply (simulated_rack_bound
           [("a"%char, 2); ("c"%char, 1); ("t"%char, 1)]
           one_tile_board (W "a") [] (W "ta")).
  - apply (bool_decide_unpack _). vm_compute. exact I.
  - unfold _simulate_opponent_rack.
    assert (remaining_tiles [("a"%char, 2); ("c"%char, 1); ("t"%char, 1)]
                            one_tile_board (W "a") [] = W "at") as ->
      by (vm_compute; reflexivity).
    split; [reflexivity|]. apply Permutation_submseteq, Permutation_swap.
Defined.

Lemma max_score_from (a : Z) (ms : list Move) :
  let best := foldl (λ best m', Z.max best (move_score m')) a ms in
  a ≤ best ∧
  (∀ m', m' ∈ ms → move_score m' ≤ best) ∧
  (best = a ∨ ∃ m', m' ∈ ms ∧ best = move_score m').
Proof.
  revert a. induction ms as [|m ms IH]; intros a; simpl.
  - split_and!; [lia| |by left]. by intros m' ?%elem_of_nil.
  - destruct (IH (Z.max a (move_score m))) as (Hge & Hall & Hin).
    split_and!; [lia| |].
    + intros m' [->|Hm']%elem_of_cons; [lia|by apply Hall].
    + destruct Hin as [Hbest|(m' & Hm' & Hbest)].
      * destruct (Z.max_spec a (move_score m)) as [[_ Hmax]|[_ Hmax]].
        -- right. exists m. split; [left|congruence].
        -- left. congruence.
      * right. exists m'. split; [by right|done].
Qed.

(** X12 — the value of a move sequence.  When [place_word] returns a board
    that keeps its contract, [_evaluate_move_sequence] returns: the score of
    the own move when the opponent's rack is empty or the solver finds no
    reply, and otherwise that score less the score of a best reply, so that
    no reply the solver finds for the opponent scores more than the
    difference allows. *)
Theorem evaluation_outcome
    (place_word : Board → word → pos → option Direction → list letter
                  → result Board)
    (dict : LetterTree) (b b' : Board) (rack : list letter) (my_move : Move)
    (opponent_rack : list letter) :
  place_word b (move_word my_move) (move_start my_move)
             (move_direction my_move) rack = Ok b' →
  board_ok b' →
  ∃ (v : Z) (st' : SolveState),
    _evaluate_move_sequence place_word dict b rack my_move opponent_rack
    = Ok v ∧
    find_all_options (init dict b' opponent_rack) = Ok st' ∧
    (opponent_rack = [] → v = move_score my_move) ∧
    (found_moves st' = [] → v = move_score my_move) ∧
    (∀ reply, reply ∈ found_moves st' →
       v ≤ move_score my_move - move_score reply) ∧
    (found_moves st' ≠ [] →
     ∃ reply, reply ∈ found_moves st' ∧
              v = move_score my_move - move_score reply).
Proof.
  intros Hplace Hok. unfold _evaluate_move_sequence. rewrite Hplace. simpl.
  destruct (find_all_options_returns (init dict b' opponent_rack))
    as [st' Hst']; [done..|].
  rewrite Hst'. simpl.
  destruct (found_moves st') as [|m ms] eqn:Hmoves.
  - exists (move_score my_move), st'. rewrite Hmoves.
    split_and!; [done..| |done].
    by intros reply ?%elem_of_nil.
  - exists (move_score my_move - max_score m ms), st'. rewrite Hmoves.
    destruct (max_score_from (move_score m) ms) as (Hge & Hall & Hin).
    fold (max_score m ms) in Hge, Hall, Hin.
    split_and!; [done..| |done| |].
    + intros ->. apply empty_rack_found in Hst'. congruence.
    + intros reply [->|Hreply]%elem_of_cons; [lia|].
      specialize (Hall reply Hreply). lia.
    + intros _. destruct Hin as [Hbest|(m' & Hm' & Hbest)].
      * exists m. split; [left|lia].
      * exists m'. split; [by right|lia].
Qed.

Lemma evaluation_outcome_witness :
  ∃ (v : Z) (st' : SolveState),
    _evaluate_move_sequence lay_cat cat_lexicon one_tile_board (W "at")
                            cat_across (W "ta")
    = Ok v ∧
    find_all_options (init cat_lexicon cat_board (W "ta")) = Ok st' ∧
    (W "ta" = [] → v = move_score cat_across) ∧
    (found_moves st' = [] → v = move_score cat_across) ∧
    (∀ reply, reply ∈ found_moves st' →
       v ≤ move_score cat_across - move_score reply) ∧
    (found_moves st' ≠ [] →
     ∃ reply, reply ∈ found_moves st' ∧
              v = move_score cat_across - move_score reply).
Proof.
  apply (evaluation_outcome lay_cat cat_lexicon one_tile_board cat_board
                            (W "at") cat_across (W "ta"));
    [reflexivity|apply grid_board_ok].
Defined.

(** ** The moves found are the words that can be played *)

Lemma table_cross_ok (st : SolveState) (table : gmap pos (list letter))
    (p : pos) (legal : list letter) (l : letter) :
  cross_check st = Ok table →
  table !! p = Some legal → l ∈ legal →
  cross_ok (board st) (dictionary st) (direction st) p l.
Proof.
  intros Hrun Hentry Hl.
  destruct (cross_check_Ok _ _ p Hrun)
    as [(_ & _ & rb & ra & Hrb & Hra & Hentry')|[_ Hnone]]; [|congruence].
  rewrite Hentry in Hentry'. injection Hentry' as ->.
  assert (l ∈ alphabet) as Habc.
  { destruct (decide (rb = [] ∧ ra = [])) as [[-> ->]|Hruns].
    - by rewrite legal_set_nil in Hl.
    - apply legal_set_elem in Hl as [? _]; [done|].
      destruct rb, ra; [by destruct Hruns|right|left|left]; discriminate. }
  split; [exact Habc|]. intros rb' ra' Hrb' Hra' Hruns.
  rewrite <- (run_functional _ _ _ _ _ Hrb Hrb').
  rewrite <- (run_functional _ _ _ _ _ Hra Hra').
  rewrite (run_functional _ _ _ _ _ Hrb' Hrb) in Hruns.
  rewrite (run_functional _ _ _ _ _ Hra' Hra) in Hruns.
  by apply legal_set_elem in Hl as [_ ?].
Qed.

Lemma pass_move_playable (st : SolveState) (dir : Direction) (m : Move) :
  board_ok (board st) →
  unique_keys (root (dictionary st)) = true →
  Forall (λ l, l ∈ alphabet) (rack st) →
  pass_move st dir m →
  move_direction m = Some dir ∧
  playable (board st) (dictionary st) (rack st) (Some dir)
           (move_word m) (move_start m).
Proof.
  intros Hok Hkeys Hrack Hpass.
  pose proof (pass_move_layout _ _ _ Hok Hpass)
    as (anchor' & pw' & w' & r' & Hanchor' & Hword' & Hdir' & Hstart' & Hw'
        & Hsq' & Hafter' & Hbefore' & Hr' & _).
  destruct Hpass as (table & anchor & Htable & Hanchor & Hmove).
  apply anchor_move_anatomy in Hmove
    as (pw & w & node & r1 & n' & p' & r'' & Hword & Hdir & Hstart & Hw
        & Hfwd & Hisw & Hlookup & Hprefix).
  destruct (Hlookup Hkeys) as [Hpw Hnode].
  split; [exact Hdir|]. split.
  - unfold dict_is_word, lookup. rewrite Hword, lookup_from_app.
    unfold lookup in Hpw. rewrite Hpw. simpl.
    by rewrite (forward_lookup _ _ _ _ _ _ _ _ _ _ Hnode Hfwd).
  - intros k l Hl.
    assert (along (Some dir) (Z.of_nat k) (move_start m)
            = along (Some dir) (Z.of_nat k - Z.of_nat (length pw')) anchor')
      as Hsq1.
    { rewrite Hstart', along_along. f_equal. lia. }
    assert (along (Some dir) (Z.of_nat k) (move_start m)
            = along (Some dir) (Z.of_nat k - Z.of_nat (length pw)) anchor)
      as Hsq.
    { rewrite Hstart, along_along. f_equal. lia. }
    pose proof Hl as Hl'. rewrite Hword' in Hl'.
    destruct (Hsq' k l Hl') as [Hin Htile]. rewrite <- Hsq1 in Hin, Htile.
    split_and!; [exact Hin| |exact Htile].
    intros Hempty. rewrite Hsq in Hempty |- *. rewrite Hword in Hl.
    destruct (decide (k < length pw)%nat) as [Hk|Hk].
    + rewrite lookup_app_l in Hl by done.
      replace (Z.of_nat k - Z.of_nat (length pw))
        with (- Z.of_nat (length pw - k)) in Hempty |- * by lia.
      destruct Hprefix as [Hfilled|[Hsub Hfree]].
      * apply empty_not_filled in Hempty; [|done].
        rewrite Hfilled in Hempty by lia. discriminate Hempty.
      * destruct (Hfree (length pw - k)%nat) as [_ Hno]; [lia|].
        apply (table_cross_ok (set_direction st (Some dir)) table _ alphabet);
          [exact Htable| |].
        -- by apply (unanchored_entry (set_direction st (Some dir))).
        -- rewrite Forall_forall in Hrack. apply Hrack.
           eapply elem_of_submseteq; [|exact Hsub].
           by eapply list_elem_of_lookup_2.
    + rewrite lookup_app_r in Hl by lia.
      replace (Z.of_nat k - Z.of_nat (length pw))
        with (Z.of_nat (k - length pw)) in Hempty |- * by lia.
      destruct (forward_squares _ _ _ _ _ _ _ _ _ _ _ _ Hfwd Hl Hempty)
        as (t & legal & [= <-] & Hentry & Hlegal).
      by apply (table_cross_ok (set_direction st (Some dir)) table _ legal).
  - rewrite Hword', Hstart', Hr'. by apply submseteq_inserts_r.
  - rewrite Hstart', along_along.
    replace (- Z.of_nat (length pw') + -1)
      with (- Z.of_nat (S (length pw'))) by lia.
    exact Hbefore'.
  - rewrite Hstart', along_along, Hword', length_app.
    replace (- Z.of_nat (length pw') + Z.of_nat (length pw' + length w'))
      with (Z.of_nat (length w')) by lia.
    exact Hafter'.
  - exists (length pw'). rewrite Hword', length_app, Hstart', along_along.
    replace (- Z.of_nat (length pw') + Z.of_nat (length pw')) with 0 by lia.
    rewrite along_0.
    apply find_anchors_elem in Hanchor' as (_ & Hempty & Hnear).
    split_and!; [|exact Hempty|exact Hnear].
    destruct w'; [done|]. simpl. lia.
Qed.

(** X13 — only words that can be played are found.  On a board that keeps
    its contract, with a lexicon whose nodes have unique keys and a rack of
    letters of the alphabet, every move [find_all_options] finds from the
    initial state can be played: its word is a dictionary word laid across or
    down, in bounds, agreeing with the tiles on its squares, its new letters
    fit the lines crossing them and are on the rack together, no tile lies
    just before or after it, and one of its squares is empty and next to a
    tile. *)
Theorem found_move_playable (dict : LetterTree) (b : Board)
    (rack0 : list letter) (st' : SolveState) (m : Move) :
  board_ok b →
  unique_keys (root dict) = true →
  Forall (λ l, l ∈ alphabet) rack0 →
  find_all_options (init dict b rack0) = Ok st' →
  m ∈ found_moves st' →
  ∃ dir : Direction,
    move_direction m = Some dir ∧
    playable b dict rack0 (Some dir) (move_word m) (move_start m).
Proof.
  intros Hok Hkeys Hrack Hrun Hm.
  destruct (found_moves_init _ _ _ _ _ Hrun Hm) as [dir Hpass].
  exists dir. by apply (pass_move_playable (init dict b rack0)).
Qed.

Lemma found_move_playable_witness :
  ∃ dir : Direction,
    move_direction cat_across = Some dir ∧
    playable one_tile_board cat_lexicon (W "at") (Some dir)
             (move_word cat_across) (move_start cat_across).
Proof.
  destruct cat_returns as [st' Hst'].
  apply (found_move_playable cat_lexicon one_tile_board (W "at") st').
  - apply grid_board_ok.
  - vm_compute. reflexivity.
  - apply (bool_decide_unpack _). vm_compute. exact I.
  - exact Hst'.
  - destruct (moves_of_Ok _ _ Hst') as [-> _].
    destruct cat_run as [-> _]. by left.
Defined.

Lemma playable_rack_mono b dict d (r1 r2 : list letter) w start :
  r1 ⊆+ r2 → playable b dict r1 d w start → playable b dict r2 d w start.
Proof.
  intros Hsub [Hword Hsq Hrack Hbefore Hafter Hanchor].
  split; [exact Hword|exact Hsq| |exact Hbefore|exact Hafter|exact Hanchor].
  by etrans.
Qed.

(** X14 — more tiles, no fewer moves.  On a board that keeps its contract,
    with a lexicon whose nodes have unique keys: when a rack of letters of
    the alphabet is part of a second rack, every move found with the first
    rack has a move with the same word, start and direction among the moves
    found with the second. *)
Theorem larger_rack_keeps_moves (dict : LetterTree) (b : Board)
    (rack0 rack1 : list letter) (st0 st1 : SolveState) (m : Move) :
  board_ok b →
  unique_keys (root dict) = true →
  Forall (λ l, l ∈ alphabet) rack0 →
  rack0 ⊆+ rack1 →
  find_all_options (init dict b rack0) = Ok st0 →
  find_all_options (init dict b rack1) = Ok st1 →
  m ∈ found_moves st0 →
  ∃ m' : Move,
    m' ∈ found_moves st1 ∧
    move_word m' = move_word m ∧ move_start m' = move_start m ∧
    move_direction m' = move_direction m.
Proof.
  intros Hok Hkeys Hrack Hsub Hrun0 Hrun1 Hm.
  destruct (found_moves_init _ _ _ _ _ Hrun0 Hm) as [dir Hpass].
  apply pass_move_playable in Hpass as [Hdir Hplay]; [|done..].
  cbn [init board dictionary rack] in Hplay.
  apply (playable_rack_mono _ _ _ _ rack1 _ _ Hsub) in Hplay.
  destruct (cross_check_returns
              (set_direction (init dict b rack1) (Some dir)) Hok)
    as [table Htable].
  destruct (find_all_options_complete dir (init dict b rack1) st1 table
              (move_word m) (move_start m))
    as (new & m' & Hmoves & Hm' & Hw & Hs & Hd); [done..| |].
  - by apply (playable_legal_placement
                (set_direction (init dict b rack1) (Some dir))).
  - exists m'. split_and!; [|done..|congruence].
    rewrite Hmoves. apply elem_of_app. by right.
Qed.

Lemma larger_rack_keeps_moves_witness :
  ∃ (st1 : SolveState) (m' : Move),
    find_all_options (init cat_lexicon one_tile_board (W "ats")) = Ok st1 ∧
    m' ∈ found_moves st1 ∧
    move_word m' = move_word cat_across ∧
    move_start m' = move_start cat_across ∧
    move_direction m' = move_direction cat_across.
Proof.
  destruct cat_returns as [st0 Hst0].
  destruct (find_all_options_returns
              (init cat_lexicon one_tile_board (W "ats")))
    as [st1 Hst1]; [apply grid_board_ok|done|].
  destruct (larger_rack_keeps_moves cat_lexicon one_tile_board
              (W "at") (W "ats") st0 st1 cat_across) as [m' Hm'].
  - apply grid_board_ok.
  - vm_compute. reflexivity.
  - apply (bool_decide_unpack _). vm_compute. exact I.
  - apply (bool_decide_unpack _). vm_compute. exact I.
  - exact Hst0.
  - exact Hst1.
  - destruct (moves_of_Ok _ _ Hst0) as [-> _].
    destruct cat_run as [-> _]. by left.
  - exists st1, m'. exact (conj Hst1 Hm').
Defined.

(** X15 — what the search leaves behind.  When [find_all_options] returns,
    the direction of the state is ['down'] and its table is the table
    [cross_check] computes for that direction on the board of the call. *)
Theorem find_all_options_leaves (st st' : SolveState) :
  find_all_options st = Ok st' →
  direction st' = Some down ∧
  ∃ table,
    cross_check (set_direction st (Some down)) = Ok table ∧
    cross_check_results st' = Some table.
Proof.
  intros Hrun. unfold find_all_options in Hrun. simpl in Hrun.
  apply bind_Ok in Hrun as (t & Hacross & Hrun).
  apply bind_Ok in Hrun as (t' & Hdown & [= <-]).
  apply search_direction_sound in Hacross
    as (_ & _ & (Hdict & Hb & _) & _).
  apply search_direction_sound in Hdown
    as (_ & table & _ & _ & _ & Hd & Htable & Hresults & _).
  split; [exact Hd|]. exists table. split; [|exact Hresults].
  rewrite <- Htable. by apply cross_check_ext.
Qed.

Lemma find_all_options_leaves_witness :
  ∃ st',
    find_all_options cat_state = Ok st' ∧
    direction st' = Some down ∧
    ∃ table,
      cross_check (set_direction cat_state (Some down)) = Ok table ∧
      cross_check_results st' = Some table.
Proof.
  destruct cat_returns as [st' Hst'].
  exists st'. split; [exact Hst'|].
  exact (find_all_options_leaves cat_state st' Hst').
Defined.
